(** * Credit approval system: the decision core, embedded and verified

    Shallow embedding of
      - [apps/core/utils.py]      ([calculate_emi]),
      - [apps/loans/services.py]  ([CreditScoreService.calculate],
        [EligibilityService.check], [LoanService.create_loan],
        [LoanService._get_rejection_message]),
      - [apps/loans/models.py], [apps/customers/models.py] (the two tables),
    together with the fragments of the Python run time the code relies on:
    [decimal.Decimal] under the context installed by [utils.py]
    ([getcontext().prec = 28], rounding half-even, the default traps), the
    binary64 [float] used by the credit score, [round], [datetime.date] and
    [dateutil.relativedelta]. *)

From Stdlib Require Import ZArith QArith Qpower Qround Qabs Lia Lqa Bool List String Ascii.
From Stdlib Require Import Floats.SpecFloat.
From stdpp Require Import gmap.
Import ListNotations.

Local Open Scope Z_scope.

(** ** Exceptions and the error monad *)

(** The exceptions the modelled code can raise.  Business rejections are
    ordinary return values, not exceptions. *)
Inductive exn : Type :=
| ValueError (msg : string)            (* raised by [calculate_emi] and [date.replace] *)
| DivisionByZero                       (* decimal trap *)
| InvalidOperation                     (* decimal trap *)
| Overflow                             (* decimal trap *)
| OverflowError                        (* int / int too large for a float *)
| CustomerNotFoundError (detail : string)
| DatabaseError (msg : string).        (* any failure of the storage layer *)

Inductive result (A : Type) : Type :=
| Ok (a : A)
| Raise (e : exn).
Arguments Ok {A} a.
Arguments Raise {A} e.

Definition bind {A B : Type} (c : result A) (k : A -> result B) : result B :=
  match c with
  | Ok a => k a
  | Raise e => Raise e
  end.

Notation "'let*' x ':=' c 'in' k" := (bind c (fun x => k))
  (at level 10, x pattern, c at level 100, k at level 200).

(** ** [decimal.Decimal] *)

Module Decimal.

(** A finite decimal [coeff * 10 ^ exponent].  The sign lives in the
    coefficient, so [-0] is identified with [0]; NaN and the infinities are
    not represented (an operation that would produce one raises, because
    the default context traps it). *)
Record t : Type := Dec { coeff : Z; exponent : Z }.

Inductive rounding : Type := ROUND_HALF_EVEN | ROUND_HALF_UP.

(** [getcontext().prec = 28] (utils.py); [Emax], [Emin] are the defaults. *)
Definition prec : Z := 28.
Definition Emax : Z := 999999.
Definition Emin : Z := -999999.
Definition Etiny (p : Z) : Z := Emin - p + 1.
Definition Etop (p : Z) : Z := Emax - p + 1.

(** Number of decimal digits of [|n|]; [ndigits 0 = 1] as [len('0')]. *)
Fixpoint ndigits_aux (fuel : nat) (n : Z) : Z :=
  match fuel with
  | O => 1
  | S f => if n <? 10 then 1 else 1 + ndigits_aux f (n / 10)
  end.

Definition ndigits (n : Z) : Z :=
  ndigits_aux (Z.to_nat (Z.log2 (Z.abs n))) (Z.abs n).

Definition adjusted (d : t) : Z := ndigits (coeff d) + exponent d - 1.

(** [n / 10^k] rounded to an integer, for [0 <= n] and [0 < k]. *)
Definition div_round (mode : rounding) (n k : Z) : Z :=
  let b := 10 ^ k in
  let q := n / b in
  let r := n mod b in
  match mode with
  | ROUND_HALF_EVEN =>
      if (2 * r >? b) || ((2 * r =? b) && Z.odd q) then q + 1 else q
  | ROUND_HALF_UP =>
      if 2 * r >=? b then q + 1 else q
  end.

(** [Decimal._rescale(exp, rounding)] *)
Definition rescale (mode : rounding) (d : t) (e : Z) : t :=
  if coeff d =? 0 then Dec 0 e
  else if e <=? exponent d then Dec (coeff d * 10 ^ (exponent d - e)) e
  else Dec (Z.sgn (coeff d) * div_round mode (Z.abs (coeff d)) (e - exponent d)) e.

(** [Decimal._fix(context)] at precision [p]: round to [p] significant
    digits (half-even), honour [Emin]/[Emax]; [Overflow] is trapped. *)
Definition fix_at (p : Z) (d : t) : result t :=
  if coeff d =? 0 then
    Ok (Dec 0 (Z.min (Z.max (exponent d) (Etiny p)) Emax))
  else
    let exp_min := ndigits (coeff d) + exponent d - p in
    if exp_min >? Etop p then Raise Overflow
    else
      let exp_min := Z.max exp_min (Etiny p) in
      if exponent d <? exp_min then
        let q := div_round ROUND_HALF_EVEN (Z.abs (coeff d)) (exp_min - exponent d) in
        let '(q, exp_min) :=
          if ndigits q >? p then (q / 10, exp_min + 1) else (q, exp_min) in
        if exp_min >? Etop p then Raise Overflow
        else Ok (Dec (Z.sgn (coeff d) * q) exp_min)
      else Ok d.

(** Exact sum, on the smaller exponent. *)
Definition add_exact (a b : t) : t :=
  let e := Z.min (exponent a) (exponent b) in
  Dec (coeff a * 10 ^ (exponent a - e) + coeff b * 10 ^ (exponent b - e)) e.

Definition neg (a : t) : t := Dec (- coeff a) (exponent a).

Definition add_at (p : Z) (a b : t) : result t := fix_at p (add_exact a b).
Definition sub_at (p : Z) (a b : t) : result t := fix_at p (add_exact a (neg b)).
Definition mul_at (p : Z) (a b : t) : result t :=
  fix_at p (Dec (coeff a * coeff b) (exponent a + exponent b)).

(** An exact quotient is brought as close to the ideal exponent as its
    trailing zeros allow. *)
Fixpoint strip_zeros (fuel : nat) (c e ideal : Z) : Z * Z :=
  match fuel with
  | O => (c, e)
  | S f =>
      if (e <? ideal) && (c mod 10 =? 0)
      then strip_zeros f (c / 10) (e + 1) ideal
      else (c, e)
  end.

(** [Decimal.__truediv__] *)
Definition div_at (p : Z) (a b : t) : result t :=
  if coeff b =? 0 then
    if coeff a =? 0 then Raise InvalidOperation else Raise DivisionByZero
  else if coeff a =? 0 then fix_at p (Dec 0 (exponent a - exponent b))
  else
    let shift := ndigits (coeff b) - ndigits (coeff a) + p + 1 in
    let e := exponent a - exponent b - shift in
    let n := Z.abs (coeff a) in
    let m := Z.abs (coeff b) in
    let '(q, r) :=
      if 0 <=? shift then Z.div_eucl (n * 10 ^ shift) m
      else Z.div_eucl n (m * 10 ^ (- shift)) in
    let '(q, e) :=
      if r =? 0
      then strip_zeros (Z.to_nat (exponent a - exponent b - e)) q e
                       (exponent a - exponent b)
      else (if q mod 5 =? 0 then q + 1 else q, e) in
    fix_at p (Dec (Z.sgn (coeff a) * Z.sgn (coeff b) * q) e).

(** Integer power, as libmpdec computes it: left-to-right binary
    exponentiation, every product rounded at the working precision [w];
    the loop stops once the value has underflowed to zero. *)
Fixpoint pow_uint (w : Z) (base : t) (n : positive) : result t :=
  match n with
  | xH => Ok base
  | xO m =>
      let* r := pow_uint w base m in
      if coeff r =? 0 then Ok r else mul_at w r r
  | xI m =>
      let* r := pow_uint w base m in
      if coeff r =? 0 then Ok r
      else let* s := mul_at w r r in mul_at w s base
  end.

(** [base ** n] for a Python int [n >= 1]: a base equal to [+-1] gives one
    padded with zeros; otherwise the working precision is
    [p + digits(n) + 2] and the result is rounded to [p] digits. *)
Definition pow_at (p : Z) (base : t) (n : positive) : result t :=
  if coeff base =? 0 then Ok (Dec 0 0)
  else if (exponent base <=? 0) &&
          (Z.abs (coeff base) =? 10 ^ (- exponent base)) then
    let shift := Z.min (Zpos n * (- exponent base)) (p - 1) in
    Ok (Dec ((if Z.odd (Zpos n) then Z.sgn (coeff base) else 1) * 10 ^ shift)
            (- shift))
  else
    let* r := pow_uint (p + ndigits (Zpos n) + 2) base n in
    fix_at p r.

(** [Decimal.quantize(Decimal(1E[e]), rounding=mode)] *)
Definition quantize_at (p : Z) (mode : rounding) (d : t) (e : Z) : result t :=
  if negb ((Etiny p <=? e) && (e <=? Emax)) then Raise InvalidOperation
  else if coeff d =? 0 then fix_at p (Dec 0 e)
  else if adjusted d >? Emax then Raise InvalidOperation
  else if adjusted d - e + 1 >? p then Raise InvalidOperation
  else
    let ans := rescale mode d e in
    if adjusted ans >? Emax then Raise InvalidOperation
    else if ndigits (coeff ans) >? p then Raise InvalidOperation
    else fix_at p ans.

(** Comparisons are exact: they never round. *)
Definition compare (a b : t) : comparison :=
  let e := Z.min (exponent a) (exponent b) in
  Z.compare (coeff a * 10 ^ (exponent a - e)) (coeff b * 10 ^ (exponent b - e)).

Definition eqb (a b : t) : bool :=
  match compare a b with Eq => true | _ => false end.
Definition ltb (a b : t) : bool :=
  match compare a b with Lt => true | _ => false end.
Definition leb (a b : t) : bool :=
  match compare a b with Gt => false | _ => true end.
Definition gtb (a b : t) : bool := ltb b a.
Definition geb (a b : t) : bool := leb b a.

(** [Decimal(str(n))] for a Python int. *)
Definition of_int (n : Z) : t := Dec n 0.

(** The context operations of the running program. *)
Definition add := add_at prec.
Definition sub := sub_at prec.
Definition mul := mul_at prec.
Definition div := div_at prec.
Definition pow := pow_at prec.
Definition quantize := quantize_at prec.

(** The rational a decimal denotes. *)
Definition to_Q (d : t) : Q :=
  if 0 <=? exponent d then inject_Z (coeff d * 10 ^ exponent d)
  else Qmake (coeff d) (Z.to_pos (10 ^ (- exponent d))).

End Decimal.

Abbreviation Decimal := Decimal.t.


(** ** Python [float] (IEEE 754 binary64) and [round] *)

Module PyFloat.

Definition prec : Z := 53.
Definition emax : Z := 1024.

Definition t : Type := spec_float.

Definition mul : t -> t -> t := SFmul prec emax.
Definition add : t -> t -> t := SFadd prec emax.
Definition div : t -> t -> t := SFdiv prec emax.
Definition leb : t -> t -> bool := SFleb.

(** The double nearest to [n / d] (ties to even), for [0 < d]: the quotient
    is taken with at least 64 significant bits and a sticky bit records a
    non-zero remainder. *)
Definition of_ratio (n d : Z) : t :=
  let a := Z.abs n in
  let k := Z.max 0 (64 + Z.log2 d - Z.log2 a) in
  let q := (a * 2 ^ k) / d in
  let r := (a * 2 ^ k) mod d in
  binary_normalize prec emax
    (Z.sgn n * (2 * q + (if r =? 0 then 0 else 1))) (- k - 1) false.

Definition is_finite (x : t) : bool :=
  match x with
  | S754_zero _ | S754_finite _ _ _ => true
  | _ => false
  end.

(** [float(n)] for a Python int. *)
Definition of_int (n : Z) : result t :=
  let x := of_ratio n 1 in
  if is_finite x then Ok x else Raise OverflowError.

(** [a / b] on Python ints, for [b > 0]: correctly rounded. *)
Definition truediv_int (a b : Z) : result t :=
  let x := of_ratio a b in
  if is_finite x then Ok x else Raise OverflowError.

(** [float(d)] for a [Decimal]. *)
Definition of_decimal (d : Decimal) : t :=
  if 0 <=? Decimal.exponent d
  then of_ratio (Decimal.coeff d * 10 ^ Decimal.exponent d) 1
  else of_ratio (Decimal.coeff d) (10 ^ (- Decimal.exponent d)).

(** A float literal with the decimal expansion [n / d]. *)
Definition literal (n d : Z) : t := of_ratio n d.

(** [round(x)]: the nearest integer, ties to the even one. *)
Definition round (x : t) : result Z :=
  match x with
  | S754_zero _ => Ok 0
  | S754_finite s m e =>
      Ok (cond_Zopp s
            (if 0 <=? e then Zpos m * 2 ^ e
             else
               let b := 2 ^ (- e) in
               let q := Zpos m / b in
               let r := Zpos m mod b in
               if (2 * r >? b) || ((2 * r =? b) && Z.odd q) then q + 1 else q))
  | S754_infinity _ => Raise OverflowError
  | S754_nan => Raise (ValueError "cannot convert float NaN to integer")
  end.

(** The rational a finite float denotes. *)
Definition to_Q (x : t) : Q :=
  match x with
  | S754_finite s m e =>
      if 0 <=? e then inject_Z (cond_Zopp s (Zpos m * 2 ^ e))
      else Qmake (cond_Zopp s (Zpos m)) (Z.to_pos (2 ^ (- e)))
  | _ => 0%Q
  end.

End PyFloat.

(** ** [datetime.date] and [dateutil.relativedelta] *)

Record date : Type := Date { year : Z; month : Z; day : Z }.

Definition is_leap (y : Z) : bool :=
  (y mod 4 =? 0) && (negb (y mod 100 =? 0) || (y mod 400 =? 0)).

(** [calendar.monthrange(y, m)[1]] *)
Definition days_in_month (y m : Z) : Z :=
  if m =? 2 then (if is_leap y then 29 else 28)
  else if (m =? 4) || (m =? 6) || (m =? 9) || (m =? 11) then 30
  else 31.

Definition MAXYEAR : Z := 9999.

(** [d + relativedelta(months=n)] for [0 <= n]: whole years are split off,
    the month wraps, the day is clamped to the length of the target month;
    [date.replace] rejects a year past [MAXYEAR]. *)
Definition add_months (d : date) (n : Z) : result date :=
  let years := n / 12 in
  let months := n mod 12 in
  let y := year d + years in
  let m := month d + months in
  let '(y, m) := if m >? 12 then (y + 1, m - 12) else (y, m) in
  let dd := Z.min (days_in_month y m) (day d) in
  if y >? MAXYEAR then Raise (ValueError "year is out of range")
  else Ok (Date y m dd).

(** ** [str(n)] for a Python int *)

Definition digit_char (d : Z) : ascii :=
  ascii_of_nat (48 + Z.to_nat d).

Fixpoint str_nat_aux (fuel : nat) (n : Z) (acc : string) : string :=
  match fuel with
  | O => acc
  | S f =>
      let acc' := String (digit_char (n mod 10)) acc in
      if n <? 10 then acc' else str_nat_aux f (n / 10) acc'
  end.

Definition str_int (n : Z) : string :=
  let s := str_nat_aux (S (Z.to_nat (Z.log2 (Z.abs n)))) (Z.abs n) EmptyString in
  if n <? 0 then String "-"%char s else s.

(** ** The two tables ([customers/models.py], [loans/models.py]) *)

(** A row of [customers].  [created_at]/[updated_at] are written by the ORM
    and read by none of the modelled functions; they are left out. *)
Record Customer : Type := mkCustomer {
  c_pk : Z;
  first_name : string;
  last_name : string;
  age : Z;
  phone_number : Z;
  monthly_salary : Z;
  approved_limit : Z;
  current_debt : Decimal
}.

(** A row of [loans]; [l_customer] is the foreign key. *)
Record Loan : Type := mkLoan {
  l_pk : Z;
  l_customer : Z;
  loan_amount : Decimal;
  tenure : Z;
  interest_rate : Decimal;
  monthly_installment : Decimal;
  emis_paid_on_time : Z;
  start_date : date;
  end_date : date;
  is_active : bool
}.

(** The database: the committed rows and the primary-key sequence of
    [loans].  Rows hold the values the code writes. *)
Record DB : Type := mkDB {
  customers : gmap Z Customer;
  loans : list Loan;
  loans_id_seq : Z
}.

(** *** Query sets and aggregates *)

(** [Loan.objects.filter(customer=c)] *)
Definition loans_of (db : DB) (c : Customer) : list Loan :=
  List.filter (fun l => l_customer l =? c_pk c) (loans db).

(** [qs.filter(is_active=True)] *)
Definition active (ls : list Loan) : list Loan :=
  List.filter is_active ls.

(** [qs.aggregate(Sum(field))] on an integer column, followed by [or 0]. *)
Definition Sum_int (f : Loan -> Z) (ls : list Loan) : Z :=
  fold_left (fun acc l => acc + f l) ls 0.

(** [qs.aggregate(Sum(field))] on a decimal column: SQL [NUMERIC] sums are
    exact; the aggregate of no rows is [None]. *)
Definition Sum_decimal (f : Loan -> Decimal) (ls : list Loan) : option Decimal :=
  match ls with
  | [] => None
  | l :: ls' => Some (fold_left (fun acc x => Decimal.add_exact acc (f x)) ls' (f l))
  end.

(** [total or Decimal('0')]: [None] and a zero total are both falsy. *)
Definition or_zero (o : option Decimal) : Decimal :=
  match o with
  | Some d => if Decimal.coeff d =? 0 then Decimal.Dec 0 0 else d
  | None => Decimal.Dec 0 0
  end.

(** ** [apps/core/utils.py] *)

Definition TWO_PLACES : Decimal := Decimal.Dec 1 (-2).

(** [calculate_emi(principal, annual_rate, tenure_months)].  The guard
    [tenure_months < 1] is the match on a non-positive [Z]. *)
Definition calculate_emi (principal annual_rate : Decimal) (tenure_months : Z)
  : result Decimal :=
  if Decimal.leb principal (Decimal.of_int 0) then
    Raise (ValueError "Principal must be greater than 0.")
  else if Decimal.ltb annual_rate (Decimal.of_int 0) then
    Raise (ValueError "Interest rate cannot be negative.")
  else
    match tenure_months with
    | Zpos n =>
        if Decimal.eqb annual_rate (Decimal.of_int 0) then
          let* emi := Decimal.div principal (Decimal.of_int tenure_months) in
          Decimal.quantize Decimal.ROUND_HALF_UP emi (Decimal.exponent TWO_PLACES)
        else
          let* monthly_rate := Decimal.div annual_rate (Decimal.of_int 1200) in
          let* one_plus_r := Decimal.add (Decimal.of_int 1) monthly_rate in
          let* power_term := Decimal.pow one_plus_r n in
          let* t1 := Decimal.mul principal monthly_rate in
          let* t2 := Decimal.mul t1 power_term in
          let* t3 := Decimal.sub power_term (Decimal.of_int 1) in
          let* emi := Decimal.div t2 t3 in
          Decimal.quantize Decimal.ROUND_HALF_UP emi (Decimal.exponent TWO_PLACES)
    | _ => Raise (ValueError "Tenure must be at least 1 month.")
    end.

(** ** [apps/loans/services.py] *)

Module CreditScoreService.

Definition WEIGHT_ON_TIME_PAYMENT : Z := 30.
Definition WEIGHT_NUM_LOANS : Z := 20.
Definition WEIGHT_CURRENT_YEAR_ACTIVITY : Z := 20.
Definition WEIGHT_LOAN_VOLUME : Z := 30.

(** [x * w] for a float [x] and a small int [w]. *)
Definition times (x : PyFloat.t) (w : Z) : PyFloat.t :=
  PyFloat.mul x (PyFloat.literal w 1).

(** Factor i *)
Definition score_on_time (ls : list Loan) : result PyFloat.t :=
  let total_emis_due := Sum_int tenure ls in
  let total_emis_on_time := Sum_int emis_paid_on_time ls in
  let* on_time_ratio :=
    if total_emis_due >? 0
    then PyFloat.truediv_int total_emis_on_time total_emis_due
    else Ok (PyFloat.literal 0 1) in
  Ok (times on_time_ratio WEIGHT_ON_TIME_PAYMENT).

(** Factor ii *)
Definition score_num_loans (ls : list Loan) : PyFloat.t :=
  let total_loans := Z.of_nat (length ls) in
  let loan_count_ratio :=
    if total_loans <=? 2 then PyFloat.literal 1 1
    else if total_loans <=? 5 then PyFloat.literal 7 10
    else if total_loans <=? 10 then PyFloat.literal 4 10
    else PyFloat.literal 1 10 in
  times loan_count_ratio WEIGHT_NUM_LOANS.

(** Factor iii *)
Definition score_activity (today : date) (ls : list Loan) : PyFloat.t :=
  let current_year := year today in
  let current_year_loans :=
    Z.of_nat (length (List.filter (fun l => year (start_date l) =? current_year) ls)) in
  let activity_ratio :=
    if current_year_loans =? 0 then PyFloat.literal 1 1
    else if current_year_loans <=? 2 then PyFloat.literal 7 10
    else if current_year_loans <=? 4 then PyFloat.literal 4 10
    else PyFloat.literal 1 10 in
  times activity_ratio WEIGHT_CURRENT_YEAR_ACTIVITY.

(** Factor iv *)
Definition score_volume (customer : Customer) (ls : list Loan) : result PyFloat.t :=
  let total_loan_volume := or_zero (Sum_decimal loan_amount ls) in
  let* volume_score_ratio :=
    if approved_limit customer >? 0 then
      let* limit := PyFloat.of_int (approved_limit customer) in
      let volume_ratio := PyFloat.div (PyFloat.of_decimal total_loan_volume) limit in
      Ok (if PyFloat.leb volume_ratio (PyFloat.literal 25 100) then PyFloat.literal 1 1
          else if PyFloat.leb volume_ratio (PyFloat.literal 5 10) then PyFloat.literal 7 10
          else if PyFloat.leb volume_ratio (PyFloat.literal 75 100) then PyFloat.literal 4 10
          else if PyFloat.leb volume_ratio (PyFloat.literal 1 1) then PyFloat.literal 2 10
          else PyFloat.literal 0 1)
    else Ok (PyFloat.literal 0 1) in
  Ok (times volume_score_ratio WEIGHT_LOAN_VOLUME).

(** The float that is handed to [round]. *)
Definition weighted_sum (today : date) (customer : Customer) (ls : list Loan)
  : result PyFloat.t :=
  let* s1 := score_on_time ls in
  let s2 := score_num_loans ls in
  let s3 := score_activity today ls in
  let* s4 := score_volume customer ls in
  Ok (PyFloat.add (PyFloat.add (PyFloat.add s1 s2) s3) s4).

(** [CreditScoreService.calculate(customer)]; [today] is [date.today()]. *)
Definition calculate (db : DB) (today : date) (customer : Customer) : result Z :=
  let ls := loans_of db customer in
  match ls with
  | [] => Ok 50
  | _ =>
      let total_current_loan_amount := or_zero (Sum_decimal loan_amount (active ls)) in
      if Decimal.gtb total_current_loan_amount (Decimal.of_int (approved_limit customer))
      then Ok 0
      else
        let* s := weighted_sum today customer ls in
        let* total_score := PyFloat.round s in
        Ok (Z.max 0 (Z.min 100 total_score))
  end.

End CreditScoreService.

(** The dict built by [EligibilityService._build_response]. *)
Record Eligibility : Type := mkEligibility {
  e_customer_id : Z;
  approval : bool;
  e_interest_rate : Decimal;
  corrected_interest_rate : Decimal;
  e_tenure : Z;
  e_monthly_installment : Decimal
}.

Module EligibilityService.

Definition _build_response (customer_id : Z) (approval : bool)
    (interest_rate corrected_interest_rate : Decimal) (tenure : Z)
    (monthly_installment : Decimal) : Eligibility :=
  mkEligibility customer_id approval interest_rate corrected_interest_rate
                tenure monthly_installment.

(** Steps 4 and 5 of [check] (the [if credit_score > 50 ... else] chain):
    the approval flag and the corrected rate. *)
Definition slab (credit_score : Z) (interest_rate : Decimal) : bool * Decimal :=
  if credit_score >? 50 then (true, interest_rate)
  else if (30 <? credit_score) && (credit_score <=? 50) then
    if Decimal.gtb interest_rate (Decimal.of_int 12) then (true, interest_rate)
    else (true, Decimal.Dec 1200 (-2))
  else if (10 <? credit_score) && (credit_score <=? 30) then
    if Decimal.gtb interest_rate (Decimal.of_int 16) then (true, interest_rate)
    else (true, Decimal.Dec 1600 (-2))
  else (false, interest_rate).

(** [current_emi_total] of step 3. *)
Definition current_emi_total (db : DB) (customer : Customer) : Decimal :=
  or_zero (Sum_decimal monthly_installment (active (loans_of db customer))).

(** [emi_limit] of step 3. *)
Definition emi_limit (customer : Customer) : result Decimal :=
  Decimal.mul (Decimal.of_int (monthly_salary customer)) (Decimal.Dec 5 (-1)).

(** [EligibilityService.check(customer, loan_amount, interest_rate, tenure)] *)
Definition check (db : DB) (today : date) (customer : Customer)
    (loan_amount interest_rate : Decimal) (tenure : Z) : result Eligibility :=
  (* Step 1 *)
  let* credit_score := CreditScoreService.calculate db today customer in
  (* Step 2 *)
  if Decimal.gtb loan_amount (Decimal.of_int (approved_limit customer)) then
    let* new_emi := calculate_emi loan_amount interest_rate tenure in
    Ok (_build_response (c_pk customer) false interest_rate interest_rate
                        tenure new_emi)
  else
    (* Step 3 *)
    let current_emi_total := current_emi_total db customer in
    let* emi_limit := emi_limit customer in
    let* new_emi := calculate_emi loan_amount interest_rate tenure in
    if Decimal.geb current_emi_total emi_limit then
      Ok (_build_response (c_pk customer) false interest_rate interest_rate
                          tenure new_emi)
    else
      (* Steps 4 and 5 *)
      let '(approval, corrected_interest_rate) := slab credit_score interest_rate in
      (* Step 6 *)
      let* final_emi := calculate_emi loan_amount corrected_interest_rate tenure in
      (* [approval and (current_emi_total + final_emi) > emi_limit] *)
      let* breach :=
        if approval then
          let* total := Decimal.add current_emi_total final_emi in
          Ok (Decimal.gtb total emi_limit)
        else Ok false in
      let approval := if breach then false else approval in
      Ok (_build_response (c_pk customer) approval interest_rate
                          corrected_interest_rate tenure final_emi).

End EligibilityService.

(** The dict returned by [LoanService.create_loan]. *)
Record LoanOutcome : Type := mkLoanOutcome {
  loan_id : option Z;
  o_customer_id : Z;
  loan_approved : bool;
  message : string;
  o_monthly_installment : option Decimal
}.

(** What the storage layer does to the two writes of [create_loan]:
    [None] lets the statement through, [Some e] makes it raise [e]. *)
Record Faults : Type := mkFaults {
  fail_insert : option exn;
  fail_update : option exn
}.

Definition no_faults : Faults := mkFaults None None.

Module LoanService.

(** [' '.join(reasons)] *)
Fixpoint join (sep : string) (l : list string) : string :=
  match l with
  | [] => EmptyString
  | [x] => x
  | x :: rest => (x ++ sep ++ join sep rest)%string
  end.

Definition low_score_reason (credit_score : Z) : string :=
  ("Credit score too low (" ++ str_int credit_score ++ "/100).")%string.

Definition emi_reason : string := "Current EMIs exceed 50% of monthly income.".

Definition generic_reason : string :=
  "Loan not approved based on eligibility criteria.".

(** [LoanService._get_rejection_message(customer)] *)
Definition _get_rejection_message (db : DB) (today : date) (customer : Customer)
  : result string :=
  let current_emi := EligibilityService.current_emi_total db customer in
  let* emi_limit := EligibilityService.emi_limit customer in
  let* credit_score := CreditScoreService.calculate db today customer in
  let reasons :=
    (if credit_score <=? 10 then [low_score_reason credit_score] else []) ++
    (if Decimal.geb current_emi emi_limit then [emi_reason] else []) in
  Ok (match reasons with
      | [] => generic_reason
      | _ => join " " reasons
      end).

(** [Loan.objects.create(...)]: the row gets the next key of the sequence. *)
Definition insert_loan (f : Faults) (db : DB) (row : Z -> Loan) : result Loan * DB :=
  match fail_insert f with
  | Some e => (Raise e, db)
  | None =>
      let pk := loans_id_seq db + 1 in
      (Ok (row pk), mkDB (customers db) (loans db ++ [row pk]) pk)
  end.

(** [customer.save(update_fields=['current_debt'])] *)
Definition save_current_debt (f : Faults) (db : DB) (customer : Customer)
  : result unit * DB :=
  match fail_update f with
  | Some e => (Raise e, db)
  | None =>
      match customers db !! c_pk customer with
      | Some row =>
          (Ok tt,
           mkDB (<[c_pk customer :=
                    mkCustomer (c_pk row) (first_name row) (last_name row) (age row)
                               (phone_number row) (monthly_salary row)
                               (approved_limit row) (current_debt customer)]>
                   (customers db))
                (loans db) (loans_id_seq db))
      | None => (Raise (DatabaseError "Save with update_fields did not affect any rows."), db)
      end
  end.

(** [customer.current_debt += loan_amount] on the in-memory instance. *)
Definition with_debt (customer : Customer) (debt : Decimal) : Customer :=
  mkCustomer (c_pk customer) (first_name customer) (last_name customer)
             (age customer) (phone_number customer) (monthly_salary customer)
             (approved_limit customer) debt.

(** Step 1: [Customer.objects.select_for_update().get(pk=customer_id)] *)
Definition lock_customer (db : DB) (customer_id : Z) : result Customer :=
  match customers db !! customer_id with
  | Some c => Ok c
  | None =>
      Raise (CustomerNotFoundError
               ("Customer with ID " ++ str_int customer_id ++ " not found."))
  end.

(** Everything after the eligibility decision: the rejection dict, or the
    two writes and the approval dict. *)
Definition apply_decision (f : Faults) (today : date) (customer_id : Z)
    (customer : Customer) (loan_amount : Decimal) (tenure : Z)
    (eligibility : Eligibility) (db : DB) : result LoanOutcome * DB :=
  if negb (approval eligibility) then
    match _get_rejection_message db today customer with
    | Ok msg => (Ok (mkLoanOutcome None customer_id false msg None), db)
    | Raise e => (Raise e, db)
    end
  else
    let final_rate := corrected_interest_rate eligibility in
    let monthly_installment := e_monthly_installment eligibility in
    match add_months today tenure with
    | Raise e => (Raise e, db)
    | Ok end_date =>
        match insert_loan f db
                (fun pk => mkLoan pk (c_pk customer) loan_amount tenure final_rate
                                  monthly_installment 0 today end_date true) with
        | (Raise e, db1) => (Raise e, db1)
        | (Ok loan, db1) =>
            match Decimal.add (current_debt customer) loan_amount with
            | Raise e => (Raise e, db1)
            | Ok debt =>
                match save_current_debt f db1 (with_debt customer debt) with
                | (Raise e, db2) => (Raise e, db2)
                | (Ok _, db2) =>
                    (Ok (mkLoanOutcome (Some (l_pk loan)) customer_id true
                                       "Loan approved successfully."
                                       (Some monthly_installment)), db2)
                end
            end
        end
    end.

(** The body of [create_loan], run inside the transaction. *)
Definition create_loan_body (f : Faults) (today : date) (customer_id : Z)
    (loan_amount interest_rate : Decimal) (tenure : Z) (db : DB)
  : result LoanOutcome * DB :=
  match lock_customer db customer_id with
  | Raise e => (Raise e, db)
  | Ok customer =>
      match EligibilityService.check db today customer loan_amount interest_rate tenure with
      | Raise e => (Raise e, db)
      | Ok eligibility =>
          apply_decision f today customer_id customer loan_amount tenure eligibility db
      end
  end.

(** [@transaction.atomic]: a normal return commits; an exception rolls the
    tables back and is re-raised.  The key sequence is not transactional. *)
Definition atomic {A : Type} (body : DB -> result A * DB) (db : DB) : result A * DB :=
  match body db with
  | (Ok a, db') => (Ok a, db')
  | (Raise e, db') => (Raise e, mkDB (customers db) (loans db) (loans_id_seq db'))
  end.

(** [LoanService.create_loan(customer_id, loan_amount, interest_rate, tenure)] *)
Definition create_loan (f : Faults) (today : date) (customer_id : Z)
    (loan_amount interest_rate : Decimal) (tenure : Z) (db : DB)
  : result LoanOutcome * DB :=
  atomic (create_loan_body f today customer_id loan_amount interest_rate tenure) db.

End LoanService.

(** *** Well-formed databases and requests *)

(** The primary key of a customer row is the key it is stored under. *)
Definition wf_db (db : DB) : Prop :=
  forall (k : Z) (c : Customer), customers db !! k = Some c -> c_pk c = k.

(** A value of a [DecimalField(max_digits=15, decimal_places=2)] column or
    serializer field that is not negative. *)
Definition money (x : Decimal) : Prop :=
  Decimal.exponent x = -2 /\ 0 <= Decimal.coeff x < 10 ^ 15.

(** The loan the approved path inserts. *)
Definition new_loan (pk : Z) (c : Customer) (loan_amount : Decimal) (tenure : Z)
    (e : Eligibility) (today end_date : date) : Loan :=
  mkLoan pk (c_pk c) loan_amount tenure (corrected_interest_rate e)
         (e_monthly_installment e) 0 today end_date true.

(** The outcome of a rejection with message [msg]. *)
Definition rejected (customer_id : Z) (msg : string) : LoanOutcome :=
  mkLoanOutcome None customer_id false msg None.

(** The outcome of an approval. *)
Definition accepted (customer_id pk : Z) (emi : Decimal) : LoanOutcome :=
  mkLoanOutcome (Some pk) customer_id true "Loan approved successfully." (Some emi).

(** ** Concurrent calls of [create_loan]

    [create_loan] runs in a transaction and takes the row lock of the
    customer ([select_for_update]) before anything else.  A call is cut into
    the three stages at which another call could be scheduled: taking the
    lock, evaluating eligibility, and writing and committing.  The lock is
    released when the transaction ends. *)

Record Request : Type := mkRequest {
  r_customer_id : Z;
  r_loan_amount : Decimal;
  r_interest_rate : Decimal;
  r_tenure : Z;
  r_faults : Faults
}.

Module Concurrent.

(** Where one call stands. *)
Inductive pc : Type :=
| Start
| Locked (c : Customer)
| Decided (c : Customer) (e : Eligibility)
| Done (r : result LoanOutcome).

(** The committed database, the holder of each row lock, and the calls. *)
Record World : Type := mkWorld {
  w_db : DB;
  w_locks : gmap Z nat;
  w_calls : list (Request * pc)
}.

Definition set_pc (w : World) (i : nat) (rq : Request) (p : pc) : list (Request * pc) :=
  <[i := (rq, p)]> (w_calls w).

(** One stage of call [i]; [None] when the call cannot move (it waits for
    the lock, it has finished, or there is no such call). *)
Definition step (today : date) (i : nat) (w : World) : option World :=
  match w_calls w !! i with
  | Some (rq, Start) =>
      match LoanService.lock_customer (w_db w) (r_customer_id rq) with
      | Raise e => Some (mkWorld (w_db w) (w_locks w) (set_pc w i rq (Done (Raise e))))
      | Ok c =>
          match w_locks w !! r_customer_id rq with
          | Some _ => None
          | None =>
              Some (mkWorld (w_db w) (<[r_customer_id rq := i]> (w_locks w))
                            (set_pc w i rq (Locked c)))
          end
      end
  | Some (rq, Locked c) =>
      match EligibilityService.check (w_db w) today c (r_loan_amount rq)
              (r_interest_rate rq) (r_tenure rq) with
      | Raise e =>
          Some (mkWorld (w_db w) (delete (r_customer_id rq) (w_locks w))
                        (set_pc w i rq (Done (Raise e))))
      | Ok e => Some (mkWorld (w_db w) (w_locks w) (set_pc w i rq (Decided c e)))
      end
  | Some (rq, Decided c e) =>
      let '(r, db') :=
        LoanService.atomic
          (LoanService.apply_decision (r_faults rq) today (r_customer_id rq) c
             (r_loan_amount rq) (r_tenure rq) e) (w_db w) in
      Some (mkWorld db' (delete (r_customer_id rq) (w_locks w))
                    (set_pc w i rq (Done r)))
  | Some (_, Done _) => None
  | None => None
  end.

(** A schedule names the call that moves next. *)
Fixpoint run (today : date) (sched : list nat) (w : World) : option World :=
  match sched with
  | [] => Some w
  | i :: rest =>
      match step today i w with
      | Some w' => run today rest w'
      | None => None
      end
  end.

Definition init (db : DB) (rq1 rq2 : Request) : World :=
  mkWorld db ∅ [(rq1, Start); (rq2, Start)].

(** The sequential call, on a request. *)
Definition call (today : date) (rq : Request) (db : DB) : result LoanOutcome * DB :=
  LoanService.create_loan (r_faults rq) today (r_customer_id rq)
    (r_loan_amount rq) (r_interest_rate rq) (r_tenure rq) db.

Definition approved (r : result LoanOutcome) : bool :=
  match r with
  | Ok o => loan_approved o
  | Raise _ => false
  end.

(** [place b x y]: the two calls in their order in the world, when [x]
    belongs to the call that takes the lock first; [b] tells whether that is
    call 0. *)
Definition place {A : Type} (b : bool) (x y : A) : list A :=
  if b then [x; y] else [y; x].

Definition pick {A : Type} (b : bool) (x y : A) : A := if b then x else y.

(** The worlds two calls on the same customer go through: the call that
    takes the lock first runs to its end on [db], and only then does the
    other one take the lock, on the database the first one left. *)
Inductive reachable (today : date) (db : DB) (rq1 rq2 : Request) : World -> Prop :=
| reach_init :
    reachable today db rq1 rq2 (init db rq1 rq2)
| reach_first_locked (b : bool) (c : Customer) :
    customers db !! r_customer_id rq1 = Some c ->
    reachable today db rq1 rq2
      (mkWorld db {[ r_customer_id rq1 := pick b 0%nat 1%nat ]}
               (place b (pick b rq1 rq2, Locked c) (pick b rq2 rq1, Start)))
| reach_first_decided (b : bool) (c : Customer) (e : Eligibility) :
    customers db !! r_customer_id rq1 = Some c ->
    EligibilityService.check db today c (r_loan_amount (pick b rq1 rq2))
      (r_interest_rate (pick b rq1 rq2)) (r_tenure (pick b rq1 rq2)) = Ok e ->
    reachable today db rq1 rq2
      (mkWorld db {[ r_customer_id rq1 := pick b 0%nat 1%nat ]}
               (place b (pick b rq1 rq2, Decided c e) (pick b rq2 rq1, Start)))
| reach_first_done (b : bool) (r : result LoanOutcome) (dbm : DB) :
    call today (pick b rq1 rq2) db = (r, dbm) ->
    reachable today db rq1 rq2
      (mkWorld dbm ∅ (place b (pick b rq1 rq2, Done r) (pick b rq2 rq1, Start)))
| reach_second_locked (b : bool) (r : result LoanOutcome) (dbm : DB) (c : Customer) :
    call today (pick b rq1 rq2) db = (r, dbm) ->
    customers dbm !! r_customer_id rq1 = Some c ->
    reachable today db rq1 rq2
      (mkWorld dbm {[ r_customer_id rq1 := pick b 1%nat 0%nat ]}
               (place b (pick b rq1 rq2, Done r) (pick b rq2 rq1, Locked c)))
| reach_second_decided (b : bool) (r : result LoanOutcome) (dbm : DB)
    (c : Customer) (e : Eligibility) :
    call today (pick b rq1 rq2) db = (r, dbm) ->
    customers dbm !! r_customer_id rq1 = Some c ->
    EligibilityService.check dbm today c (r_loan_amount (pick b rq2 rq1))
      (r_interest_rate (pick b rq2 rq1)) (r_tenure (pick b rq2 rq1)) = Ok e ->
    reachable today db rq1 rq2
      (mkWorld dbm {[ r_customer_id rq1 := pick b 1%nat 0%nat ]}
               (place b (pick b rq1 rq2, Done r) (pick b rq2 rq1, Decided c e)))
| reach_both_done (b : bool) (r r' : result LoanOutcome) (dbm db2 : DB) :
    call today (pick b rq1 rq2) db = (r, dbm) ->
    call today (pick b rq2 rq1) dbm = (r', db2) ->
    reachable today db rq1 rq2
      (mkWorld db2 ∅ (place b (pick b rq1 rq2, Done r) (pick b rq2 rq1, Done r'))).

End Concurrent.

(** ** The installment as the specification words it

    The annuity formula over the rationals, rounded half-up to cents; used
    only to compare [calculate_emi] with it. *)

Module Spec.

Local Open Scope Q_scope.

(** [x] rounded half-up to two decimal places, in cents. *)
Definition round_half_up_cents (x : Q) : Z := Qfloor (x * 100 + (1 # 2)).

(** [P * r * (1+r)^n / ((1+r)^n - 1)] *)
Definition annuity (P r : Q) (n : positive) : Q :=
  P * r * (1 + r) ^ (Zpos n) / ((1 + r) ^ (Zpos n) - 1).

(** The exact installment: [P / n] at rate zero, the annuity at the monthly
    rate [rate / 1200] otherwise. *)
Definition installment (P rate : Q) (n : positive) : Q :=
  if Qeq_bool rate 0 then P / inject_Z (Zpos n)
  else annuity P (rate / 1200) n.

Definition compute_emi_cents (P rate : Q) (n : positive) : Z :=
  round_half_up_cents (installment P rate n).

End Spec.

(** ** Values

    The rational a decimal denotes, with the power of ten as a rational
    power; used to state what the rounding of the context does. *)

Definition p10 (k : Z) : Q := Qpower (10 # 1) k.

Definition val (d : Decimal) : Q :=
  (inject_Z (Decimal.coeff d) * p10 (Decimal.exponent d))%Q.

(** The relative error of one rounding to [p] significant digits. *)
Definition unit_roundoff (p : Z) : Q := ((1 # 2) * p10 (1 - p))%Q.

(** [y] approximates [x] with relative error [e], either way round. *)
Definition close (e x y : Q) : Prop :=
  (x * (1 - e) <= y /\ y * (1 - e) <= x)%Q.

(** ** Python strings

    A [str] is a sequence of code points. *)

Module PyStr.

Definition t : Type := list N.

(** The code points of a literal whose characters are below 256. *)
Fixpoint of_string (s : string) : t :=
  match s with
  | EmptyString => []
  | String c r => N_of_ascii c :: of_string r
  end.

(** [chr(c).isspace()] *)
Definition isspace (c : N) : bool :=
  (((9 <=? c) && (c <=? 13)) || ((28 <=? c) && (c <=? 32)) ||
   (c =? 133) || (c =? 160) || (c =? 5760) ||
   ((8192 <=? c) && (c <=? 8202)) ||
   (c =? 8232) || (c =? 8233) || (c =? 8239) || (c =? 8287) || (c =? 12288))%N.

Fixpoint lstrip (s : t) : t :=
  match s with
  | c :: r => if isspace c then lstrip r else s
  | [] => []
  end.

Definition rstrip (s : t) : t := rev (lstrip (rev s)).

(** [s.strip()] *)
Definition strip (s : t) : t := rstrip (lstrip s).

(** [s.split(sep)] for a separator of one character. *)
Fixpoint split (sep : N) (s : t) : list t :=
  match s with
  | [] => [[]]
  | c :: r =>
      if (c =? sep)%N then [] :: split sep r
      else match split sep r with
           | h :: tl => (c :: h) :: tl
           | [] => [[c]]
           end
  end.

(** [sep.join(l)] *)
Fixpoint join (sep : t) (l : list t) : t :=
  match l with
  | [] => []
  | [x] => x
  | x :: rest => x ++ sep ++ join sep rest
  end.

(** [s.startswith(p)] *)
Fixpoint startswith (s p : t) : bool :=
  match p, s with
  | [], _ => true
  | a :: p', b :: s' => (a =? b)%N && startswith s' p'
  | _ :: _, [] => false
  end.

Fixpoint eqb (a b : t) : bool :=
  match a, b with
  | [], [] => true
  | x :: a', y :: b' => (x =? y)%N && eqb a' b'
  | _, _ => false
  end.

(** [x in l] for a list [l] of strings. *)
Definition contains (l : list t) (x : t) : bool := existsb (eqb x) l.

End PyStr.

(** ** [config/settings.py]

    [API_KEYS]: the comma-separated value of the environment variable of the
    same name ([None] when it is not set), each key stripped, empty keys
    dropped. *)

Definition COMMA : N := 44.

Definition API_KEYS (environ : option PyStr.t) : list PyStr.t :=
  let value := match environ with Some v => v | None => [] end in
  map PyStr.strip
      (List.filter (fun k => match PyStr.strip k with [] => false | _ => true end)
                   (PyStr.split COMMA value)).

(** ** [apps/core/middleware.py] *)

Module APIKeyMiddleware.

Definition EXEMPT_PATHS : list PyStr.t :=
  map PyStr.of_string ["/health/"; "/health"; "/admin/"]%string.

(** What the middleware reads of a request: its path and the [X-API-KEY]
    header ([None] when the header is absent). *)
Record HttpRequest : Type := mkHttpRequest {
  path : PyStr.t;
  HTTP_X_API_KEY : option PyStr.t
}.

(** What [__call__] returns: the response of the wrapped handler, or a
    [JsonResponse] of its own with a status and a detail. *)
Inductive outcome : Type :=
| get_response
| JsonResponse (status_code : Z) (detail : string).

(** [APIKeyMiddleware.__call__(request)], with [settings.API_KEYS]. *)
Definition call (api_keys : list PyStr.t) (request : HttpRequest) : outcome :=
  if existsb (PyStr.startswith (path request)) EXEMPT_PATHS then get_response
  else
    match api_keys with
    | [] => get_response
    | _ =>
        let provided_key :=
          match HTTP_X_API_KEY request with Some k => k | None => [] end in
        match provided_key with
        | [] => JsonResponse 401 "Authentication required. Provide X-API-KEY header."
        | _ =>
            if negb (PyStr.contains api_keys provided_key)
            then JsonResponse 403 "Invalid API key."
            else get_response
        end
    end.

End APIKeyMiddleware.

(** ** Reading loans ([apps/loans/models.py], [apps/loans/services.py]) *)


Module LoanQueries.



End LoanQueries.

(** A key as [API_KEYS] holds it: not empty, free of commas, and with no
    white space at either end. *)
Definition clean_key (k : PyStr.t) : Prop :=
  k <> [] /\ ~ In COMMA k /\
  (forall c r, k = c :: r -> PyStr.isspace c = false) /\
  (forall c r, k = r ++ [c] -> PyStr.isspace c = false).

(** The same, as a test. *)
Definition clean_keyb (k : PyStr.t) : bool :=
  match k with
  | [] => false
  | c :: _ =>
      negb (PyStr.isspace c) && negb (PyStr.isspace (List.last k 0%N)) &&
      negb (existsb (N.eqb COMMA) k)
  end.


(** A request as the serializers of [loans/serializers.py] hand it on: an
    amount of at least 0.01 with two decimals and at most fifteen digits, a
    rate between 0 and 100 with two decimals, a tenure of 1 to 360 months. *)
Definition valid_request (amount rate : Decimal) (tenure : Z) : Prop :=
  Decimal.exponent amount = -2 /\ 1 <= Decimal.coeff amount < 10 ^ 15 /\
  Decimal.exponent rate = -2 /\ 0 <= Decimal.coeff rate <= 10000 /\
  1 <= tenure <= 360.

(** ** [apps/core/utils.py]: [round_to_nearest_lakh] *)

(** [math.floor(x)] *)
Definition py_floor (x : PyFloat.t) : result Z :=
  match x with
  | S754_zero _ => Ok 0
  | S754_finite s m e =>
      Ok (if 0 <=? e then cond_Zopp s (Zpos m * 2 ^ e)
          else cond_Zopp s (Zpos m) / 2 ^ (- e))
  | S754_infinity _ => Raise OverflowError
  | S754_nan => Raise (ValueError "cannot convert float NaN to integer")
  end.

(** [round_to_nearest_lakh(amount)] for a Python int [amount], which is what
    [CustomerService.register] passes: [amount / lakh] is the true division
    of two ints, [+ 0.5] an addition of floats. *)
Definition round_to_nearest_lakh (amount : Z) : result Z :=
  if amount <=? 0 then Ok 0
  else
    let lakh := 100000 in
    let* q := PyFloat.truediv_int amount lakh in
    let* f := py_floor (PyFloat.add q (PyFloat.literal 5 10)) in
    Ok (f * lakh).

(** ** [apps/customers] *)

(** [validated_data] of [RegisterCustomerSerializer]. *)
Record RegisterData : Type := mkRegisterData {
  v_first_name : string;
  v_last_name : string;
  v_age : Z;
  v_monthly_income : Z;
  v_phone_number : Z
}.

Module RegisterCustomerSerializer.

(** [validate_phone_number(value)]; [inl] carries the message of the
    [ValidationError]. *)
Definition validate_phone_number (value : Z) : string + Z :=
  if (value <? 1000000000) || (value >? 9999999999)
  then inl "Phone number must be a valid 10-digit number."%string
  else inr value.

End RegisterCustomerSerializer.

(** What the fields of the serializer accept: names of 1 to 100 characters,
    an age of 18 to 120, an income of at least 1, a phone number that
    [validate_phone_number] lets through. *)
Definition valid_registration (v : RegisterData) : Prop :=
  (1 <= String.length (v_first_name v) <= 100)%nat /\
  (1 <= String.length (v_last_name v) <= 100)%nat /\
  18 <= v_age v <= 120 /\
  1 <= v_monthly_income v /\
  RegisterCustomerSerializer.validate_phone_number (v_phone_number v) =
    inr (v_phone_number v).

(** The database together with the primary-key sequence of [customers]. *)
Record Store : Type := mkStore {
  s_db : DB;
  customers_id_seq : Z
}.

(** The largest value of an [integer] column ([PositiveIntegerField]). *)
Definition INT4_MAX : Z := 2147483647.
(** The largest value of a [bigint] column ([BigIntegerField]). *)
Definition INT8_MAX : Z := 9223372036854775807.

(** The columns of [customers] as [customers/models.py] declares them: two
    [varchar(100)], three non-negative [integer]s, a [bigint]. *)
Definition fits_columns (c : Customer) : bool :=
  (String.length (first_name c) <=? 100)%nat &&
  (String.length (last_name c) <=? 100)%nat &&
  (0 <=? age c) && (age c <=? INT4_MAX) &&
  (- INT8_MAX - 1 <=? phone_number c) && (phone_number c <=? INT8_MAX) &&
  (0 <=? monthly_salary c) && (monthly_salary c <=? INT4_MAX) &&
  (0 <=? approved_limit c) && (approved_limit c <=? INT4_MAX).

Module CustomerService.

(** [Customer.objects.create(...)]: one [INSERT].  The key is the next value
    of the sequence, which stays advanced whatever happens; a value that does
    not fit its column, or a key that is already present, makes the
    statement fail and leaves the table as it was. *)
Definition insert_customer (st : Store) (row : Z -> Customer)
  : result Customer * Store :=
  let pk := customers_id_seq st + 1 in
  let c := row pk in
  let st' := mkStore (s_db st) pk in
  if negb (fits_columns c)
  then (Raise (DatabaseError "value out of range for its column"), st')
  else
    match customers (s_db st) !! pk with
    | Some _ =>
        (Raise (DatabaseError "duplicate key value violates unique constraint"), st')
    | None =>
        (Ok c, mkStore (mkDB (<[pk := c]> (customers (s_db st)))
                             (loans (s_db st)) (loans_id_seq (s_db st))) pk)
    end.

(** [CustomerService.register(validated_data)] *)
Definition register (validated_data : RegisterData) (st : Store)
  : result Customer * Store :=
  let monthly_income := v_monthly_income validated_data in
  let raw_limit := 36 * monthly_income in
  match round_to_nearest_lakh raw_limit with
  | Raise e => (Raise e, st)
  | Ok approved_limit =>
      insert_customer st
        (fun pk => mkCustomer pk (v_first_name validated_data)
                     (v_last_name validated_data) (v_age validated_data)
                     (v_phone_number validated_data) monthly_income
                     approved_limit (Decimal.Dec 0 (-2)))
  end.

(** [CustomerService.get_customer(customer_id)]; [None] stands for
    [Customer.DoesNotExist]. *)
Definition get_customer (st : Store) (customer_id : Z) : option Customer :=
  customers (s_db st) !! customer_id.

End CustomerService.

(** ** Sample data

    The customer of the test suite ([tests/test_create_loan.py]), requests in
    the format of the serializers, and a few loan histories. *)

Module Sample.

Definition today : date := Date 2026 11 3.

(** Monthly salary 100000, approved limit 3600000, no debt. *)
Definition customer : Customer :=
  mkCustomer 1 "Test" "User" 30 9876543210 100000 3600000 (Decimal.Dec 0 (-2)).

(** No loan history: the score is the baseline 50. *)
Definition db0 : DB := mkDB {[ 1 := customer ]} [] 0.

Definition d (cents : Z) : Decimal := Decimal.Dec cents (-2).

(** The decision on [db0] for 100000.00 at 10.00 % over 12 months. *)
Definition eligibility0 : Eligibility :=
  mkEligibility 1 true (d 1000) (d 1200) 12 (d 888488).

(** One active loan whose installment, 55000.00, is above half the salary
    ([test_create_loan_rejected]). *)
Definition busy_loan : Loan :=
  mkLoan 1 1 (d 200000000) 60 (d 1000) (d 5500000) 5
         (Date 2023 1 1) (Date 2028 1 1) true.

Definition db_busy : DB := mkDB {[ 1 := customer ]} [busy_loan] 1.


(** The decision on [db0] for 3000000.00 at 10.00 % over 12 months: the
    slab step approves at 12.00 %, the new installment alone is above the
    ceiling. *)
Definition eligibility_flipped : Eligibility :=
  mkEligibility 1 false (d 1000) (d 1200) 12 (d 26654637).

(** Three closed loans taken this year, four installments each of which one
    was paid on time, 1500000 in total: the sub-scores are 7.5, 14, 8 and
    21. *)
Definition tie_loan (pk : Z) : Loan :=
  mkLoan pk 1 (d 50000000) 4 (d 1000) (d 12760000) 1
         (Date 2026 1 1) (Date 2026 5 1) false.

Definition db_tie : DB :=
  mkDB {[ 1 := customer ]} [tie_loan 1; tie_loan 2; tie_loan 3] 3.

(** A storage layer whose [UPDATE] of the customer row fails. *)
Definition update_fails : Faults :=
  mkFaults None (Some (DatabaseError "server closed the connection unexpectedly")).

(** 2000000.00 at 12.00 % over 360 months: twice this principal is above
    the approved limit of 3600000, twice its installment of 20572.25 is below
    the ceiling of 50000. *)
Definition request_2m : Request :=
  mkRequest 1 (d 200000000) (d 1200) 360 no_faults.

Definition approved_2m (pk : Z) : LoanOutcome := accepted 1 pk (d 2057225).

End Sample.

(** * Verification *)

(** ** The error monad *)

Lemma bind_Ok_inv {A B : Type} (c : result A) (k : A -> result B) (b : B) :
  bind c k = Ok b -> exists a, c = Ok a /\ k a = Ok b.
Proof.
  destruct c as [a|e]; simpl; intros H; [eauto | discriminate].
Qed.

(** Split a hypothesis [bind c k = Ok b] into its two halves. *)
Ltac inv_bind H :=
  let a := fresh "v" in
  let Ha := fresh "Hv" in
  apply bind_Ok_inv in H; destruct H as (a & Ha & H).

(** ** Exact comparison of decimals *)

Module DecimalFacts.
Import Decimal.

Lemma pow10_pos (k : Z) : 0 <= k -> 0 < 10 ^ k.
Proof. intros; apply Z.pow_pos_nonneg; lia. Qed.

Lemma pow10_split (a b : Z) : 0 <= a -> 0 <= b -> 10 ^ (a + b) = 10 ^ a * 10 ^ b.
Proof. intros; apply Z.pow_add_r; lia. Qed.

(** Any common exponent below both gives the same comparison. *)
Lemma compare_at (k : Z) (a b : t) :
  k <= exponent a -> k <= exponent b ->
  compare a b =
  Z.compare (coeff a * 10 ^ (exponent a - k)) (coeff b * 10 ^ (exponent b - k)).
Proof.
  intros Ha Hb. unfold compare.
  set (m := Z.min (exponent a) (exponent b)).
  assert (Hm : k <= m) by (unfold m; lia).
  assert (Hma : m <= exponent a) by (unfold m; lia).
  assert (Hmb : m <= exponent b) by (unfold m; lia).
  replace (exponent a - k) with ((exponent a - m) + (m - k)) by lia.
  replace (exponent b - k) with ((exponent b - m) + (m - k)) by lia.
  rewrite !pow10_split by lia.
  rewrite !Z.mul_assoc.
  apply Zmult_compare_compat_r.
  apply Z.lt_gt, pow10_pos; lia.
Qed.

Lemma compare_antisym (a b : t) : compare b a = CompOpp (compare a b).
Proof.
  unfold compare. rewrite (Z.min_comm (exponent b) (exponent a)).
  apply Z.compare_antisym.
Qed.

Lemma compare_refl (a : t) : compare a a = Eq.
Proof. unfold compare. apply Z.compare_refl. Qed.

Lemma leb_refl (a : t) : leb a a = true.
Proof. unfold leb. now rewrite compare_refl. Qed.

Lemma gtb_false_leb (a b : t) : gtb a b = false -> leb a b = true.
Proof.
  unfold gtb, ltb, leb. rewrite (compare_antisym a b).
  destruct (compare a b); simpl; congruence.
Qed.

Lemma gtb_true_leb (a b : t) : gtb a b = true -> leb a b = false.
Proof.
  unfold gtb, ltb, leb. rewrite (compare_antisym a b).
  destruct (compare a b); simpl; congruence.
Qed.

Lemma geb_gtb (a b : t) : gtb a b = true -> geb a b = true.
Proof.
  unfold gtb, geb, ltb, leb. destruct (compare b a); congruence.
Qed.

(** Trailing zeros do not change a comparison: [c * 10^j E (e-j)] is [c E e]. *)
Lemma compare_scale_r (a : t) (c e j : Z) :
  0 <= j -> compare a (Dec (c * 10 ^ j) (e - j)) = compare a (Dec c e).
Proof.
  intros Hj.
  set (k := Z.min (exponent a) (e - j)).
  rewrite (compare_at k a (Dec (c * 10 ^ j) (e - j))) by (unfold k; simpl; lia).
  rewrite (compare_at k a (Dec c e)) by (unfold k; simpl; lia).
  simpl. f_equal.
  replace (e - k) with (j + (e - j - k)) by lia.
  rewrite pow10_split by (unfold k; lia). ring.
Qed.

Lemma twelve_00 (a : t) : compare a (Dec 1200 (-2)) = compare a (Dec 12 0).
Proof. exact (compare_scale_r a 12 0 2 ltac:(lia)). Qed.

Lemma sixteen_00 (a : t) : compare a (Dec 1600 (-2)) = compare a (Dec 16 0).
Proof. exact (compare_scale_r a 16 0 2 ltac:(lia)). Qed.

End DecimalFacts.

(** ** The eligibility decision *)

Module EligibilityFacts.
Import Decimal DecimalFacts EligibilityService.

(** The slab chain, case by case. *)
Lemma slab_cases (s : Z) (rate : Decimal) :
  (50 < s -> slab s rate = (true, rate)) /\
  (30 < s <= 50 ->
     slab s rate = (true, if leb rate (Dec 12 0) then Dec 1200 (-2) else rate)) /\
  (10 < s <= 30 ->
     slab s rate = (true, if leb rate (Dec 16 0) then Dec 1600 (-2) else rate)) /\
  (s <= 10 -> slab s rate = (false, rate)).
Proof.
  unfold slab, of_int. repeat split; intros H.
  - destruct (Z.gtb_spec s 50); [reflexivity | lia].
  - destruct (Z.gtb_spec s 50); [lia |].
    replace (30 <? s) with true by (symmetry; apply Z.ltb_lt; lia).
    replace (s <=? 50) with true by (symmetry; apply Z.leb_le; lia). simpl.
    destruct (gtb rate (Dec 12 0)) eqn:G.
    + now rewrite (gtb_true_leb _ _ G).
    + now rewrite (gtb_false_leb _ _ G).
  - destruct (Z.gtb_spec s 50); [lia |].
    replace (30 <? s) with false by (symmetry; apply Z.ltb_ge; lia).
    replace (10 <? s) with true by (symmetry; apply Z.ltb_lt; lia).
    replace (s <=? 30) with true by (symmetry; apply Z.leb_le; lia). simpl.
    destruct (gtb rate (Dec 16 0)) eqn:G.
    + now rewrite (gtb_true_leb _ _ G).
    + now rewrite (gtb_false_leb _ _ G).
  - destruct (Z.gtb_spec s 50); [lia |].
    replace (30 <? s) with false by (symmetry; apply Z.ltb_ge; lia).
    replace (10 <? s) with false by (symmetry; apply Z.ltb_ge; lia).
    reflexivity.
Qed.

(** The corrected rate of the slab step is the requested rate or one of the
    two floors, and never below the requested rate. *)
Lemma slab_rate (s : Z) (rate : Decimal) :
  (snd (slab s rate) = rate \/
   snd (slab s rate) = Dec 1200 (-2) \/
   snd (slab s rate) = Dec 1600 (-2)) /\
  leb rate (snd (slab s rate)) = true.
Proof.
  unfold slab, of_int.
  destruct (s >? 50); simpl; [split; [auto | apply leb_refl] |].
  destruct ((30 <? s) && (s <=? 50)).
  - destruct (gtb rate (Dec 12 0)) eqn:G; simpl; [split; [auto | apply leb_refl] |].
    split; [auto |]. apply gtb_false_leb in G.
    unfold leb in *. now rewrite twelve_00.
  - destruct ((10 <? s) && (s <=? 30)); simpl; [| split; [auto | apply leb_refl]].
    destruct (gtb rate (Dec 16 0)) eqn:G; simpl; [split; [auto | apply leb_refl] |].
    split; [auto |]. apply gtb_false_leb in G.
    unfold leb in *. now rewrite sixteen_00.
Qed.

(** Every way [check] can return. *)
Lemma check_inv (db : DB) (today : date) (c : Customer)
    (amount rate : Decimal) (tenure : Z) (e : Eligibility) :
  check db today c amount rate tenure = Ok e ->
  exists s, CreditScoreService.calculate db today c = Ok s /\
  e_customer_id e = c_pk c /\ e_interest_rate e = rate /\ e_tenure e = tenure /\
  ((gtb amount (of_int (approved_limit c)) = true /\
    calculate_emi amount rate tenure = Ok (e_monthly_installment e) /\
    approval e = false /\ corrected_interest_rate e = rate)
   \/
   (gtb amount (of_int (approved_limit c)) = false /\
    exists lim new_emi,
      emi_limit c = Ok lim /\
      calculate_emi amount rate tenure = Ok new_emi /\
      ((geb (current_emi_total db c) lim = true /\
        e_monthly_installment e = new_emi /\
        approval e = false /\ corrected_interest_rate e = rate)
       \/
       (geb (current_emi_total db c) lim = false /\
        calculate_emi amount (snd (slab s rate)) tenure = Ok (e_monthly_installment e) /\
        corrected_interest_rate e = snd (slab s rate) /\
        ((fst (slab s rate) = false /\ approval e = false)
         \/
         (fst (slab s rate) = true /\
          exists total,
            add (current_emi_total db c) (e_monthly_installment e) = Ok total /\
            approval e = negb (gtb total lim))))))).
Proof.
  unfold check. intros H.
  inv_bind H. exists v. split; [assumption |].
  destruct (gtb amount (of_int (approved_limit c))) eqn:G.
  - inv_bind H. inversion H; subst; clear H. simpl.
    repeat split. left. repeat split; assumption.
  - inv_bind H. inv_bind H.
    destruct (geb (current_emi_total db c) v0) eqn:G2.
    + inversion H; subst; clear H. simpl. repeat split.
      right. split; [reflexivity |]. exists v0, v1. repeat split; try assumption.
      left. repeat split; assumption.
    + destruct (slab v rate) as [ok cr] eqn:S.
      inv_bind H. inv_bind H. inversion H; subst; clear H. simpl. repeat split.
      right. split; [reflexivity |]. exists v0, v1. repeat split; try assumption.
      right. repeat split; try assumption.
      destruct ok; simpl in *.
      * right. split; [reflexivity |].
        apply bind_Ok_inv in Hv3. destruct Hv3 as (total & Ht & Hb).
        inversion Hb; subst. exists total. split; [assumption |].
        now destruct (gtb total v0).
      * left. inversion Hv3; subst. split; reflexivity.
Qed.

End EligibilityFacts.

(** ** Claims on the eligibility decision *)





(** C10.  On every input on which [check] returns, the corrected rate is at
    least the requested rate: it is the requested rate itself or one of the
    floors 12.00 and 16.00, and it is the requested rate whenever the score is
    above 50 or at most 10, and whenever the request is rejected before the
    slab step.  A decision flipped to rejected by the new-EMI test keeps the
    rate of the slab step. *)
Theorem corrected_rate_ge_requested :
  forall (db : DB) (today : date) (c : Customer) (amount rate : Decimal)
         (tenure : Z) (e : Eligibility),
    EligibilityService.check db today c amount rate tenure = Ok e ->
    e_interest_rate e = rate /\
    Decimal.leb rate (corrected_interest_rate e) = true /\
    (corrected_interest_rate e = rate \/
     corrected_interest_rate e = Decimal.Dec 1200 (-2) \/
     corrected_interest_rate e = Decimal.Dec 1600 (-2)) /\
    (forall s : Z,
       CreditScoreService.calculate db today c = Ok s ->
       50 < s \/ s <= 10 -> corrected_interest_rate e = rate) /\
    (Decimal.gtb amount (Decimal.of_int (approved_limit c)) = true ->
       corrected_interest_rate e = rate) /\
    (forall lim : Decimal,
       EligibilityService.emi_limit c = Ok lim ->
       Decimal.geb (EligibilityService.current_emi_total db c) lim = true ->
       corrected_interest_rate e = rate).
Proof.
  intros db today c amount rate tenure e Hchk.
  destruct (EligibilityFacts.check_inv _ _ _ _ _ _ _ Hchk)
    as (s & Hs & _ & Hr & _ & H).
  split; [assumption |].
  destruct H as [(G & _ & _ & Hcr) | (G & lim & emi & Hlim & _ & H)].
  { rewrite Hcr. repeat split; auto using DecimalFacts.leb_refl. }
  destruct H as [(G2 & _ & _ & Hcr) | (G2 & _ & Hcr & _)].
  { rewrite Hcr. repeat split; auto using DecimalFacts.leb_refl. }
  destruct (EligibilityFacts.slab_rate s rate) as (Hshape & Hle).
  rewrite Hcr. split; [assumption |]. split; [assumption |].
  split; [| split].
  - intros s' Hs' Hrange. assert (s' = s) by congruence; subst s'.
    destruct (EligibilityFacts.slab_cases s rate) as (S1 & _ & _ & S4).
    destruct Hrange as [Hhi | Hlo]; [now rewrite (S1 Hhi) | now rewrite (S4 Hlo)].
  - congruence.
  - intros lim' Hlim' Hge. congruence.
Qed.

Lemma corrected_rate_ge_requested_witness :
  Decimal.leb (Sample.d 1000) (corrected_interest_rate Sample.eligibility_flipped) = true.
Proof.
  exact (proj1 (proj2 (corrected_rate_ge_requested Sample.db0 Sample.today
                         Sample.customer (Sample.d 300000000) (Sample.d 1000) 12
                         Sample.eligibility_flipped eq_refl))).
Defined.

(** ** Claims on the credit score *)

Module ScoreFacts.
Import CreditScoreService.

(** The score is 50, 0, or a clamped value: always within [0, 100]. *)
Lemma calculate_range (db : DB) (today : date) (c : Customer) (s : Z) :
  calculate db today c = Ok s -> 0 <= s <= 100.
Proof.
  unfold calculate. intros H.
  destruct (loans_of db c) as [| l ls]; [inversion H; lia |].
  destruct (Decimal.gtb _ _); [inversion H; lia |].
  inv_bind H. inv_bind H. inversion H. lia.
Qed.

(** With a history and an active principal within the limit, the score is
    the clamped [round] of the weighted float sum. *)
Lemma calculate_rounds (db : DB) (today : date) (c : Customer) (s : Z) :
  loans_of db c <> [] ->
  Decimal.gtb (or_zero (Sum_decimal loan_amount (active (loans_of db c))))
              (Decimal.of_int (approved_limit c)) = false ->
  calculate db today c = Ok s ->
  exists (x : PyFloat.t) (n : Z),
    weighted_sum today c (loans_of db c) = Ok x /\
    PyFloat.round x = Ok n /\
    s = Z.max 0 (Z.min 100 n).
Proof.
  unfold calculate. intros Hne Hact H.
  destruct (loans_of db c) as [| l ls] eqn:E; [congruence |].
  rewrite Hact in H. inv_bind H. inv_bind H. inversion H.
  exists v, v0. auto.
Qed.

End ScoreFacts.

(** C7.  The code rounds the weighted sum with Python's [round], which sends
    a tie to the even neighbour.  On [Sample.db_tie] the four sub-scores add
    up to exactly 50.5 and the score is 50, where rounding half-up gives
    51. *)
Theorem score_tie_rounds_to_even :
  (exists x : PyFloat.t,
     CreditScoreService.weighted_sum Sample.today Sample.customer
       (loans_of Sample.db_tie Sample.customer) = Ok x /\
     Qeq (PyFloat.to_Q x) (101 # 2)) /\
  CreditScoreService.calculate Sample.db_tie Sample.today Sample.customer = Ok 50.
Proof.
  split.
  - eexists. split; [vm_compute; reflexivity | vm_compute; reflexivity].
  - vm_compute. reflexivity.
Qed.

(** ** Loan origination *)

Module LoanFacts.
Import LoanService.

(** Every way [create_loan] can end, with the database it leaves. *)
Lemma create_loan_inv (f : Faults) (today : date) (cid : Z)
    (amount rate : Decimal) (tenure : Z) (db db' : DB) (r : result LoanOutcome) :
  wf_db db ->
  create_loan f today cid amount rate tenure db = (r, db') ->
  (customers db !! cid = None /\ db' = db /\ exists e, r = Raise e)
  \/
  exists c, customers db !! cid = Some c /\
  ((exists e, EligibilityService.check db today c amount rate tenure = Raise e /\
              r = Raise e /\ db' = db)
   \/
   exists elig, EligibilityService.check db today c amount rate tenure = Ok elig /\
   ((approval elig = false /\ db' = db /\
     ((exists msg, _get_rejection_message db today c = Ok msg /\
                   r = Ok (rejected cid msg))
      \/ (exists e, _get_rejection_message db today c = Raise e /\ r = Raise e)))
    \/
    (approval elig = true /\
     ((exists e, add_months today tenure = Raise e /\ r = Raise e /\ db' = db)
      \/
      exists end_date, add_months today tenure = Ok end_date /\
      ((exists e, fail_insert f = Some e /\ r = Raise e /\ db' = db)
       \/
       (fail_insert f = None /\
        ((exists e, Decimal.add (current_debt c) amount = Raise e /\ r = Raise e /\
                    db' = mkDB (customers db) (loans db) (loans_id_seq db + 1))
         \/
         exists debt, Decimal.add (current_debt c) amount = Ok debt /\
         ((exists e, fail_update f = Some e /\ r = Raise e /\
                     db' = mkDB (customers db) (loans db) (loans_id_seq db + 1))
          \/
          (fail_update f = None /\
           r = Ok (accepted cid (loans_id_seq db + 1) (e_monthly_installment elig)) /\
           db' = mkDB (<[cid := with_debt c debt]> (customers db))
                      (loans db ++ [new_loan (loans_id_seq db + 1) c amount tenure
                                             elig today end_date])
                      (loans_id_seq db + 1)))))))))).
Proof.
  intros Hwf. unfold create_loan, atomic, create_loan_body, lock_customer.
  destruct (customers db !! cid) as [c |] eqn:Hc.
  2:{ intros H. inversion H; subst. left. destruct db; simpl. eauto. }
  intros H. right. exists c. split; [reflexivity |].
  assert (Hpk : c_pk c = cid) by (apply Hwf; assumption).
  destruct (EligibilityService.check db today c amount rate tenure) as [elig | e] eqn:Hchk.
  2:{ inversion H; subst. left. exists e. destruct db; auto. }
  right. exists elig. split; [reflexivity |].
  unfold apply_decision in H.
  destruct (approval elig) eqn:Ha; simpl in H.
  - right. split; [reflexivity |].
    destruct (add_months today tenure) as [end_date | e] eqn:Hd.
    2:{ inversion H; subst. left. exists e. destruct db; auto. }
    right. exists end_date. split; [reflexivity |].
    unfold insert_loan in H.
    destruct (fail_insert f) as [e |] eqn:Hfi.
    { inversion H; subst. left. exists e. destruct db; auto. }
    right. split; [reflexivity |]. simpl in H.
    destruct (Decimal.add (current_debt c) amount) as [debt | e] eqn:Hadd.
    2:{ inversion H; subst. left. exists e. auto. }
    right. exists debt. split; [reflexivity |].
    unfold save_current_debt in H.
    destruct (fail_update f) as [e |] eqn:Hfu.
    { inversion H; subst. left. exists e. auto. }
    right. split; [reflexivity |]. simpl in H.
    rewrite Hpk, Hc in H. inversion H; subst. split; [reflexivity |].
    unfold new_loan, with_debt. reflexivity.
  - left. split; [reflexivity |].
    destruct (_get_rejection_message db today c) as [msg | e] eqn:Hm.
    + inversion H; subst. split; [reflexivity |]. left. eauto.
    + inversion H; subst. split; [destruct db; reflexivity |]. right. eauto.
Qed.

End LoanFacts.

(** ** Digits and the rounding of the context *)

Module RoundFacts.
Import Decimal.

Lemma ndigits_aux_le (fuel : nat) :
  forall n k : Z, 1 <= k -> 0 <= n < 10 ^ k -> ndigits_aux fuel n <= k.
Proof.
  induction fuel as [| fuel IH]; intros n k Hk Hn; simpl; [lia |].
  destruct (Z.ltb_spec n 10); [lia |].
  assert (2 <= k).
  { destruct (Z.eq_dec k 1) as [-> |]; [change (10 ^ 1) with 10 in Hn; lia | lia]. }
  assert (ndigits_aux fuel (n / 10) <= k - 1); [| lia].
  apply IH; [lia |]. split; [apply Z.div_pos; lia |].
  apply Z.div_lt_upper_bound; [lia |].
  replace k with (1 + (k - 1)) in Hn by lia.
  rewrite Z.pow_add_r in Hn by lia. change (10 ^ 1) with 10 in Hn. lia.
Qed.

(** A number below [10^k] has at most [k] digits. *)
Lemma ndigits_le (n k : Z) : 1 <= k -> Z.abs n < 10 ^ k -> ndigits n <= k.
Proof.
  intros Hk Hn. unfold ndigits. apply ndigits_aux_le; [assumption | lia].
Qed.

Lemma ndigits_aux_pos (fuel : nat) (n : Z) : 1 <= ndigits_aux fuel n.
Proof.
  revert n. induction fuel as [| fuel IH]; intros n; simpl; [lia |].
  destruct (n <? 10); [lia |]. specialize (IH (n / 10)). lia.
Qed.

Lemma ndigits_pos (n : Z) : 1 <= ndigits n.
Proof. apply ndigits_aux_pos. Qed.

(** A decimal that fits the precision and the exponent range is left alone
    by the context. *)
Lemma fix_exact (p : Z) (d : t) :
  1 <= p -> ndigits (coeff d) <= p ->
  Etiny p <= exponent d <= Etop p ->
  fix_at p d = Ok d.
Proof.
  intros Hp Hn He. unfold fix_at, Etiny, Etop, Emin, Emax in *.
  destruct (Z.eqb_spec (coeff d) 0) as [Hz |].
  - destruct d as [c e]; simpl in *. subst c. f_equal. f_equal. lia.
  - destruct (Z.gtb_spec (ndigits (coeff d) + exponent d - p) (999999 - p + 1)); [lia |].
    destruct (Z.ltb_spec (exponent d)
                (Z.max (ndigits (coeff d) + exponent d - p) (-999999 - p + 1))); [lia |].
    reflexivity.
Qed.

(** The sum of two amounts of money is exact. *)
Lemma add_money (a b : t) :
  exponent a = -2 -> exponent b = -2 ->
  Z.abs (coeff a + coeff b) < 10 ^ 28 ->
  add a b = Ok (Dec (coeff a + coeff b) (-2)).
Proof.
  intros Ha Hb Hs. unfold add, add_at, add_exact. rewrite Ha, Hb. simpl.
  rewrite !Z.mul_1_r. apply fix_exact; simpl.
  - unfold prec; lia.
  - apply ndigits_le; unfold prec; [lia | assumption].
  - unfold Etiny, Etop, Emin, Emax, prec. lia.
Qed.

End RoundFacts.

(** ** Claims on loan origination *)

Lemma wf_db0 : wf_db Sample.db0.
Proof.
  intros k c H. simpl in H.
  apply lookup_singleton_Some in H. destruct H as [<- <-]. reflexivity.
Qed.

(** C4.  An approved call (storage working, the end date representable)
    appends exactly one loan: it starts today, ends [tenure] months later, is
    active, has no installment paid, and carries the corrected rate and the
    EMI of the decision; the customer's debt grows by exactly the principal.
    From a debt of 0.00 an approved principal of 100000.00 leaves a debt of
    100000.00 and one new active loan. *)
Theorem approved_call_creates_loan :
  (forall (today : date) (cid : Z) (amount rate : Decimal) (months : Z)
          (db : DB) (c : Customer) (elig : Eligibility) (ends : date),
     wf_db db ->
     customers db !! cid = Some c ->
     money (current_debt c) -> money amount ->
     EligibilityService.check db today c amount rate months = Ok elig ->
     approval elig = true ->
     add_months today months = Ok ends ->
     let pk := loans_id_seq db + 1 in
     let l := new_loan pk c amount months elig today ends in
     let debt := Decimal.Dec (Decimal.coeff (current_debt c) + Decimal.coeff amount) (-2) in
     LoanService.create_loan no_faults today cid amount rate months db =
       (Ok (accepted cid pk (e_monthly_installment elig)),
        mkDB (<[cid := LoanService.with_debt c debt]> (customers db))
             (loans db ++ [l]) pk) /\
     l_customer l = cid /\ loan_amount l = amount /\ tenure l = months /\
     start_date l = today /\ end_date l = ends /\
     is_active l = true /\ emis_paid_on_time l = 0 /\
     interest_rate l = corrected_interest_rate elig /\
     monthly_installment l = e_monthly_installment elig) /\
  (exists (db1 : DB) (l : Loan) (c1 : Customer),
     LoanService.create_loan no_faults Sample.today 1 (Sample.d 10000000)
       (Sample.d 1000) 12 Sample.db0 = (Ok (accepted 1 1 (Sample.d 888488)), db1) /\
     current_debt Sample.customer = Sample.d 0 /\
     customers db1 !! 1 = Some c1 /\ current_debt c1 = Sample.d 10000000 /\
     loans db1 = loans Sample.db0 ++ [l] /\ is_active l = true).
Proof.
  split.
  - intros today cid amount rate months db c elig ends Hwf Hc Hdebt Hamt Hchk Ha Hd.
    assert (Hpk : c_pk c = cid) by (apply Hwf; assumption).
    destruct Hdebt as (Hde & Hdc). destruct Hamt as (Hae & Hac).
    assert (Hadd : Decimal.add (current_debt c) amount =
                   Ok (Decimal.Dec (Decimal.coeff (current_debt c) + Decimal.coeff amount) (-2))).
    { apply RoundFacts.add_money; try assumption.
      assert (10 ^ 15 + 10 ^ 15 < 10 ^ 28) by (vm_compute; reflexivity). lia. }
    simpl. split; [| unfold new_loan; simpl; repeat split; assumption].
    destruct (LoanService.create_loan no_faults today cid amount rate months db)
      as [r db'] eqn:E.
    apply LoanFacts.create_loan_inv in E; [| assumption].
    destruct E as [(Hnone & _) | (c' & Hc' & E)]; [congruence |].
    assert (c' = c) by congruence; subst c'.
    destruct E as [(e & He & _) | (elig' & Hchk' & E)]; [congruence |].
    assert (elig' = elig) by congruence; subst elig'.
    destruct E as [(Hf & _) | (_ & E)]; [congruence |].
    destruct E as [(e & He & _) | (ends' & Hd' & E)]; [congruence |].
    assert (ends' = ends) by congruence; subst ends'.
    destruct E as [(e & He & _) | (_ & E)]; [discriminate |].
    destruct E as [(e & He & _) | (debt & Hadd' & E)]; [congruence |].
    assert (debt = Decimal.Dec (Decimal.coeff (current_debt c) + Decimal.coeff amount) (-2))
      by congruence; subst debt.
    destruct E as [(e & He & _) | (_ & -> & ->)]; [discriminate |].
    reflexivity.
  - eexists _, _, _. split; [vm_compute; reflexivity |].
    repeat split; vm_compute; reflexivity.
Qed.

Lemma approved_call_creates_loan_witness :
  fst (LoanService.create_loan no_faults Sample.today 1 (Sample.d 10000000)
         (Sample.d 1000) 12 Sample.db0) =
  Ok (accepted 1 1 (Sample.d 888488)).
Proof.
  assert (Hm0 : money (current_debt Sample.customer)).
  { split; [reflexivity | vm_compute; split; congruence]. }
  assert (Hm1 : money (Sample.d 10000000)).
  { split; [reflexivity | vm_compute; split; congruence]. }
  pose proof (proj1 approved_call_creates_loan Sample.today 1 (Sample.d 10000000)
                (Sample.d 1000) 12 Sample.db0 Sample.customer Sample.eligibility0
                (Date 2027 11 3) wf_db0 eq_refl Hm0 Hm1 eq_refl eq_refl eq_refl) as H.
  simpl in H. destruct H as (H & _). rewrite H. reflexivity.
Defined.

(** C5.  [create_loan] is all-or-nothing.  Whatever the storage layer does,
    the call either leaves both tables as they were, or it returns the
    approval and has appended the loan and updated the debt; a rejection or
    an exception always leaves both tables as they were; and an exception
    raised by the insert or by the update is the exception the caller gets. *)
Theorem create_loan_atomic :
  forall (f : Faults) (today : date) (cid : Z) (amount rate : Decimal)
         (months : Z) (db db' : DB) (r : result LoanOutcome),
    wf_db db ->
    LoanService.create_loan f today cid amount rate months db = (r, db') ->
    ((customers db' = customers db /\ loans db' = loans db /\
      forall o, r = Ok o -> loan_approved o = false)
     \/
     (exists (c : Customer) (debt : Decimal) (l : Loan) (o : LoanOutcome),
        customers db !! cid = Some c /\
        r = Ok o /\ loan_approved o = true /\ loan_id o = Some (l_pk l) /\
        loans db' = loans db ++ [l] /\
        customers db' = <[cid := LoanService.with_debt c debt]> (customers db) /\
        Decimal.add (current_debt c) amount = Ok debt)) /\
    ((forall o, r = Ok o -> loan_approved o = false) ->
     customers db' = customers db /\ loans db' = loans db) /\
    (forall (c : Customer) (elig : Eligibility) (ends : date) (e : exn),
       customers db !! cid = Some c ->
       EligibilityService.check db today c amount rate months = Ok elig ->
       approval elig = true ->
       add_months today months = Ok ends ->
       (fail_insert f = Some e -> r = Raise e) /\
       (fail_insert f = None ->
        forall debt, Decimal.add (current_debt c) amount = Ok debt ->
                     fail_update f = Some e -> r = Raise e)).
Proof.
  intros f today cid amount rate months db db' r Hwf E.
  apply LoanFacts.create_loan_inv in E; [| assumption].
  destruct E as [(Hnone & -> & e & ->) | (c & Hc & E)].
  { split; [left; repeat split; congruence | split; [auto |]].
    intros; congruence. }
  destruct E as [(e & He & -> & ->) | (elig & Hchk & E)].
  { split; [left; repeat split; congruence | split; [auto |]].
    intros; congruence. }
  destruct E as [(Hf & -> & Hr) | (Ha & E)].
  { split; [left; repeat split | split; [auto |]].
    - destruct Hr as [(msg & _ & ->) | (e & _ & ->)]; intros o Ho;
        inversion Ho; reflexivity.
    - intros; congruence. }
  destruct E as [(e & He & -> & ->) | (ends & Hd & E)].
  { split; [left; repeat split; congruence | split; [auto |]].
    intros; congruence. }
  destruct E as [(e & Hfi & -> & ->) | (Hfi & E)].
  { split; [left; repeat split; congruence | split; [auto |]].
    intros c' elig' ends' e' _ _ _ _. split; intros; congruence. }
  destruct E as [(e & Hadd & -> & ->) | (debt & Hadd & E)].
  { split; [left; repeat split; congruence | split; [auto |]].
    intros c' elig' ends' e' Hc' _ _ _. split; [congruence |].
    intros _ debt' Hadd'. congruence. }
  destruct E as [(e & Hfu & -> & ->) | (Hfu & -> & ->)].
  { split; [left; repeat split; congruence | split; [auto |]].
    intros c' elig' ends' e' Hc' _ _ _. split; [congruence |].
    intros _ debt' _ Hfu'. congruence. }
  split; [| split].
  - right. eexists c, debt, _, _. repeat split; try reflexivity; assumption.
  - intros H. specialize (H _ eq_refl). discriminate.
  - intros c' elig' ends' e' _ _ _ _. split; intros; congruence.
Qed.

Lemma create_loan_atomic_witness :
  let out := LoanService.create_loan Sample.update_fails Sample.today 1
               (Sample.d 10000000) (Sample.d 1000) 12 Sample.db0 in
  (customers (snd out) = customers Sample.db0 /\ loans (snd out) = loans Sample.db0) /\
  fst out = Raise (DatabaseError "server closed the connection unexpectedly").
Proof.
  intros out.
  assert (E : LoanService.create_loan Sample.update_fails Sample.today 1
                (Sample.d 10000000) (Sample.d 1000) 12 Sample.db0 = (fst out, snd out)).
  { vm_compute. reflexivity. }
  pose proof (create_loan_atomic _ _ _ _ _ _ _ _ _ wf_db0 E) as (_ & Hrej & Hfault).
  split.
  - apply Hrej. intros o Ho. vm_compute in Ho. discriminate.
  - apply (proj2 (Hfault Sample.customer Sample.eligibility0 (Date 2027 11 3)
                    (DatabaseError "server closed the connection unexpectedly")
                    eq_refl eq_refl eq_refl eq_refl)
             eq_refl (Sample.d 10000000) eq_refl eq_refl).
Defined.

(** C8, as stated, fails: on [Sample.db0] (score 50, no active installment)
    a request above the approved limit and a request whose own installment
    breaches the ceiling are both rejected with the same generic sentence,
    which names neither cause. *)
Lemma rejection_reason_is_generic :
  Decimal.gtb (Sample.d 1000000000)
              (Decimal.of_int (approved_limit Sample.customer)) = true /\
  fst (LoanService.create_loan no_faults Sample.today 1 (Sample.d 1000000000)
         (Sample.d 1000) 12 Sample.db0) =
    Ok (rejected 1 "Loan not approved based on eligibility criteria.") /\
  Decimal.gtb (Sample.d 300000000)
              (Decimal.of_int (approved_limit Sample.customer)) = false /\
  fst (LoanService.create_loan no_faults Sample.today 1 (Sample.d 300000000)
         (Sample.d 1000) 12 Sample.db0) =
    Ok (rejected 1 "Loan not approved based on eligibility criteria.").
Proof.
  repeat split; vm_compute; reflexivity.
Qed.

(** C8, amended.  A rejected call returns no loan id and no installment, and
    its message is assembled from two tests on the customer alone: the
    low-score sentence when the score is at most 10, the active-EMI sentence
    when the active installments reach half the salary, both joined by a
    space when both hold, and the generic sentence otherwise. *)
Theorem rejection_outcome :
  forall (f : Faults) (today : date) (cid : Z) (amount rate : Decimal)
         (months : Z) (db db' : DB) (o : LoanOutcome),
    wf_db db ->
    LoanService.create_loan f today cid amount rate months db = (Ok o, db') ->
    loan_approved o = false ->
    loan_id o = None /\ o_monthly_installment o = None /\ db' = db /\
    exists (c : Customer) (s : Z) (lim : Decimal),
      customers db !! cid = Some c /\
      CreditScoreService.calculate db today c = Ok s /\
      EligibilityService.emi_limit c = Ok lim /\
      message o =
        match s <=? 10, Decimal.geb (EligibilityService.current_emi_total db c) lim with
        | true, true =>
            (LoanService.low_score_reason s ++ " " ++ LoanService.emi_reason)%string
        | true, false => LoanService.low_score_reason s
        | false, true => LoanService.emi_reason
        | false, false => LoanService.generic_reason
        end.
Proof.
  intros f today cid amount rate months db db' o Hwf E Hrej.
  apply LoanFacts.create_loan_inv in E; [| assumption].
  destruct E as [(_ & _ & e & He) | (c & Hc & E)]; [discriminate |].
  destruct E as [(e & _ & He & _) | (elig & Hchk & E)]; [discriminate |].
  destruct E as [(_ & -> & Hr) | (_ & E)].
  - destruct Hr as [(msg & Hmsg & Ho) | (e & _ & He)]; [| discriminate].
    inversion Ho; subst o; clear Ho. simpl. repeat split.
    unfold LoanService._get_rejection_message in Hmsg.
    inv_bind Hmsg. inv_bind Hmsg. inversion Hmsg; subst msg; clear Hmsg.
    exists c, v0, v. repeat split; try assumption.
    destruct (v0 <=? 10), (Decimal.geb _ v); reflexivity.
  - exfalso.
    destruct E as [(e & _ & He & _) | (ends & _ & E)]; [discriminate |].
    destruct E as [(e & _ & He & _) | (_ & E)]; [discriminate |].
    destruct E as [(e & _ & He & _) | (debt & _ & E)]; [discriminate |].
    destruct E as [(e & _ & He & _) | (_ & Ho & _)]; [discriminate |].
    inversion Ho; subst o. discriminate.
Qed.

Lemma rejection_outcome_witness :
  message (rejected 1 "Current EMIs exceed 50% of monthly income.") =
    LoanService.emi_reason.
Proof.
  pose proof (rejection_outcome no_faults Sample.today 1 (Sample.d 10000000)
                (Sample.d 1000) 12 Sample.db_busy Sample.db_busy
                (rejected 1 "Current EMIs exceed 50% of monthly income.")) as H.
  assert (Hwf : wf_db Sample.db_busy).
  { intros k c Hk. simpl in Hk. apply lookup_singleton_Some in Hk.
    destruct Hk as [<- <-]. reflexivity. }
  specialize (H Hwf ltac:(vm_compute; reflexivity) eq_refl).
  destruct H as (_ & _ & _ & c & s & lim & Hc & Hs & Hlim & Hmsg).
  vm_compute in Hc. injection Hc as <-.
  vm_compute in Hs. injection Hs as <-.
  vm_compute in Hlim. injection Hlim as <-.
  exact Hmsg.
Defined.

(** ** Two calls on one customer *)

Module ConcurrentFacts.
Import Concurrent.

Lemma db_eta (db : DB) : mkDB (customers db) (loans db) (loans_id_seq db) = db.
Proof. destruct db; reflexivity. Qed.

Lemma call_missing (today : date) (rq : Request) (db : DB) (e : exn) :
  LoanService.lock_customer db (r_customer_id rq) = Raise e ->
  call today rq db = (Raise e, db).
Proof.
  intros H. unfold call, LoanService.create_loan, LoanService.atomic,
    LoanService.create_loan_body. rewrite H. now rewrite db_eta.
Qed.

Lemma call_check_raise (today : date) (rq : Request) (db : DB) (c : Customer) (e : exn) :
  customers db !! r_customer_id rq = Some c ->
  EligibilityService.check db today c (r_loan_amount rq) (r_interest_rate rq)
    (r_tenure rq) = Raise e ->
  call today rq db = (Raise e, db).
Proof.
  intros Hc H. unfold call, LoanService.create_loan, LoanService.atomic,
    LoanService.create_loan_body, LoanService.lock_customer.
  rewrite Hc, H. now rewrite db_eta.
Qed.

Lemma call_decided (today : date) (rq : Request) (db : DB) (c : Customer)
    (e : Eligibility) :
  customers db !! r_customer_id rq = Some c ->
  EligibilityService.check db today c (r_loan_amount rq) (r_interest_rate rq)
    (r_tenure rq) = Ok e ->
  call today rq db =
  LoanService.atomic
    (LoanService.apply_decision (r_faults rq) today (r_customer_id rq) c
       (r_loan_amount rq) (r_tenure rq) e) db.
Proof.
  intros Hc H. unfold call, LoanService.create_loan, LoanService.atomic,
    LoanService.create_loan_body, LoanService.lock_customer.
  rewrite Hc, H. reflexivity.
Qed.

Lemma lock_customer_Ok (db : DB) (cid : Z) (c : Customer) :
  LoanService.lock_customer db cid = Ok c <-> customers db !! cid = Some c.
Proof.
  unfold LoanService.lock_customer.
  destruct (customers db !! cid); split; intros H; inversion H; reflexivity.
Qed.

(** A stage of either call keeps the world among the reachable ones. *)
Lemma step_reachable (today : date) (db : DB) (rq1 rq2 : Request)
    (i : nat) (w w' : World) :
  r_customer_id rq2 = r_customer_id rq1 ->
  reachable today db rq1 rq2 w ->
  step today i w = Some w' ->
  reachable today db rq1 rq2 w'.
Proof.
  intros Hcid Hw Hstep.
  destruct Hw as [| b c Hc | b c e Hc He | b r dbm Hr | b r dbm c Hr Hc
                  | b r dbm c e Hr Hc He | b r r' dbm db2 Hr Hr'];
    destruct i as [| [| i]]; try destruct b;
    unfold step, init, place, pick, set_pc in *; simpl in *;
    rewrite ?Hcid in *;
    rewrite ?lookup_empty, ?lookup_singleton_eq in *;
    try discriminate.
  - (* nobody holds the lock; call 0 moves *)
    destruct (LoanService.lock_customer db (r_customer_id rq1)) as [c | e] eqn:L;
      inversion Hstep; subst; clear Hstep.
    + rewrite insert_empty.
      apply (reach_first_locked today db rq1 rq2 true c), lock_customer_Ok, L.
    + apply (reach_first_done today db rq1 rq2 true (Raise e) db), call_missing, L.
  - (* nobody holds the lock; call 1 moves *)
    destruct (LoanService.lock_customer db (r_customer_id rq1)) as [c | e] eqn:L;
      inversion Hstep; subst; clear Hstep.
    + rewrite insert_empty.
      apply (reach_first_locked today db rq1 rq2 false c), lock_customer_Ok, L.
    + apply (reach_first_done today db rq1 rq2 false (Raise e) db), call_missing.
      simpl. now rewrite Hcid.
  - (* call 0 holds the lock and decides *)
    destruct (EligibilityService.check db today c _ _ _) as [e | e] eqn:K;
      inversion Hstep; subst; clear Hstep.
    + apply (reach_first_decided today db rq1 rq2 true c e Hc K).
    + rewrite delete_singleton_eq.
      apply (reach_first_done today db rq1 rq2 true (Raise e) db).
      apply (call_check_raise today rq1 db c e Hc K).
  - (* call 0 waits for the lock *)
    apply lock_customer_Ok in Hc. rewrite Hc in Hstep. discriminate.
  - apply lock_customer_Ok in Hc. rewrite Hc in Hstep. discriminate.
  - (* call 1 holds the lock and decides *)
    destruct (EligibilityService.check db today c _ _ _) as [e | e] eqn:K;
      inversion Hstep; subst; clear Hstep.
    + apply (reach_first_decided today db rq1 rq2 false c e Hc K).
    + rewrite delete_singleton_eq.
      apply (reach_first_done today db rq1 rq2 false (Raise e) db).
      apply (call_check_raise today rq2 db c e); [now rewrite Hcid | exact K].
  - (* call 0 writes and commits *)
    destruct (LoanService.atomic _ db) as [r db'] eqn:A.
    inversion Hstep; subst; clear Hstep. rewrite delete_singleton_eq.
    apply (reach_first_done today db rq1 rq2 true r db').
    simpl. rewrite (call_decided today rq1 db c e Hc He). exact A.
  - apply lock_customer_Ok in Hc. rewrite Hc in Hstep. discriminate.
  - apply lock_customer_Ok in Hc. rewrite Hc in Hstep. discriminate.
  - (* call 1 writes and commits *)
    destruct (LoanService.atomic _ db) as [r db'] eqn:A.
    inversion Hstep; subst; clear Hstep. rewrite delete_singleton_eq.
    apply (reach_first_done today db rq1 rq2 false r db').
    simpl. rewrite (call_decided today rq2 db c e); [| now rewrite Hcid | exact He].
    rewrite Hcid. exact A.
  - (* call 1 has finished; call 0 takes the lock *)
    destruct (LoanService.lock_customer dbm (r_customer_id rq1)) as [c | e] eqn:L;
      inversion Hstep; subst; clear Hstep.
    + rewrite insert_empty.
      apply (reach_second_locked today db rq1 rq2 false r dbm c Hr), lock_customer_Ok, L.
    + apply (reach_both_done today db rq1 rq2 false r (Raise e) dbm dbm Hr).
      apply call_missing, L.
  - (* call 0 has finished; call 1 takes the lock *)
    destruct (LoanService.lock_customer dbm (r_customer_id rq1)) as [c | e] eqn:L;
      inversion Hstep; subst; clear Hstep.
    + rewrite insert_empty.
      apply (reach_second_locked today db rq1 rq2 true r dbm c Hr), lock_customer_Ok, L.
    + apply (reach_both_done today db rq1 rq2 true r (Raise e) dbm dbm Hr).
      apply call_missing. simpl. now rewrite Hcid.
  - (* call 0, second, decides on the committed state *)
    destruct (EligibilityService.check dbm today c _ _ _) as [e | e] eqn:K;
      inversion Hstep; subst; clear Hstep.
    + apply (reach_second_decided today db rq1 rq2 false r dbm c e Hr Hc K).
    + rewrite delete_singleton_eq.
      apply (reach_both_done today db rq1 rq2 false r (Raise e) dbm dbm Hr).
      apply (call_check_raise today rq1 dbm c e Hc K).
  - (* call 1, second, decides on the committed state *)
    destruct (EligibilityService.check dbm today c _ _ _) as [e | e] eqn:K;
      inversion Hstep; subst; clear Hstep.
    + apply (reach_second_decided today db rq1 rq2 true r dbm c e Hr Hc K).
    + rewrite delete_singleton_eq.
      apply (reach_both_done today db rq1 rq2 true r (Raise e) dbm dbm Hr).
      apply (call_check_raise today rq2 dbm c e); [now rewrite Hcid | exact K].
  - (* call 0, second, writes and commits *)
    destruct (LoanService.atomic _ dbm) as [r0 db'] eqn:A.
    inversion Hstep; subst; clear Hstep. rewrite delete_singleton_eq.
    apply (reach_both_done today db rq1 rq2 false r r0 dbm db' Hr).
    simpl. rewrite (call_decided today rq1 dbm c e Hc He). exact A.
  - (* call 1, second, writes and commits *)
    destruct (LoanService.atomic _ dbm) as [r0 db'] eqn:A.
    inversion Hstep; subst; clear Hstep. rewrite delete_singleton_eq.
    apply (reach_both_done today db rq1 rq2 true r r0 dbm db' Hr).
    simpl. rewrite (call_decided today rq2 dbm c e); [| now rewrite Hcid | exact He].
    rewrite Hcid. exact A.
Qed.

(** Whatever the schedule, the world stays reachable. *)
Lemma run_reachable (today : date) (db : DB) (rq1 rq2 : Request) (sched : list nat) :
  r_customer_id rq2 = r_customer_id rq1 ->
  forall w w' : World,
    reachable today db rq1 rq2 w ->
    run today sched w = Some w' ->
    reachable today db rq1 rq2 w'.
Proof.
  intros Hcid. induction sched as [| i rest IH]; intros w w' Hw Hrun; simpl in Hrun.
  - inversion Hrun; subst. assumption.
  - destruct (step today i w) as [w1 |] eqn:S; [| discriminate].
    apply (IH w1 w'); [| assumption].
    apply (step_reachable today db rq1 rq2 i w w1 Hcid Hw S).
Qed.

(** When both calls have finished, they ran one after the other. *)
Lemma both_done_serial (today : date) (db : DB) (rq1 rq2 : Request) (w : World)
    (r1 r2 : result LoanOutcome) :
  reachable today db rq1 rq2 w ->
  w_calls w = [(rq1, Done r1); (rq2, Done r2)] ->
  exists (b : bool) (dbm : DB),
    call today (pick b rq1 rq2) db = (pick b r1 r2, dbm) /\
    call today (pick b rq2 rq1) dbm = (pick b r2 r1, w_db w).
Proof.
  intros Hw Hcalls.
  destruct Hw as [| b c Hc | b c e Hc He | b r dbm Hr | b r dbm c Hr Hc
                  | b r dbm c e Hr Hc He | b r r' dbm db2 Hr Hr'];
    try destruct b; unfold init, place, pick in *; simpl in *;
    try discriminate.
  - inversion Hcalls; subst. exists true, dbm. split; assumption.
  - inversion Hcalls; subst. exists false, dbm. split; assumption.
Qed.

(** [create_loan] keeps the primary keys in order. *)
Lemma call_wf (today : date) (rq : Request) (db db' : DB) (r : result LoanOutcome) :
  wf_db db -> call today rq db = (r, db') -> wf_db db'.
Proof.
  intros Hwf E. unfold call in E.
  apply LoanFacts.create_loan_inv in E; [| assumption].
  assert (Hsame : customers db' = customers db -> wf_db db').
  { intros Heq k c. rewrite Heq. apply Hwf. }
  destruct E as [(_ & -> & _) | (c & Hc & E)]; [assumption |].
  destruct E as [(e & _ & _ & ->) | (elig & _ & E)]; [assumption |].
  destruct E as [(_ & -> & _) | (_ & E)]; [assumption |].
  destruct E as [(e & _ & _ & ->) | (ends & _ & E)]; [assumption |].
  destruct E as [(e & _ & _ & ->) | (_ & E)]; [assumption |].
  destruct E as [(e & _ & _ & ->) | (debt & _ & E)]; [now apply Hsame |].
  destruct E as [(e & _ & _ & ->) | (_ & _ & ->)]; [now apply Hsame |].
  intros k c'. simpl. rewrite lookup_insert.
  destruct (decide (r_customer_id rq = k)) as [<- | Hne].
  - intros H; inversion H; subst. simpl. apply Hwf. assumption.
  - apply Hwf.
Qed.

(** An approved call has appended its loan, active, with the installment it
    returns. *)
Lemma call_approved_appends (today : date) (rq : Request) (db db' : DB) (o : LoanOutcome) :
  wf_db db -> call today rq db = (Ok o, db') -> loan_approved o = true ->
  exists l : Loan,
    loans db' = loans db ++ [l] /\ is_active l = true /\
    l_customer l = r_customer_id rq /\
    o_monthly_installment o = Some (monthly_installment l).
Proof.
  intros Hwf E Ha. unfold call in E.
  apply LoanFacts.create_loan_inv in E; [| assumption].
  destruct E as [(_ & _ & e & He) | (c & Hc & E)]; [discriminate |].
  destruct E as [(e & _ & He & _) | (elig & _ & E)]; [discriminate |].
  destruct E as [(_ & _ & Hr) | (_ & E)].
  { destruct Hr as [(msg & _ & Ho) | (e & _ & He)]; [| discriminate].
    inversion Ho; subst o. discriminate. }
  destruct E as [(e & _ & He & _) | (ends & _ & E)]; [discriminate |].
  destruct E as [(e & _ & He & _) | (_ & E)]; [discriminate |].
  destruct E as [(e & _ & He & _) | (debt & _ & E)]; [discriminate |].
  destruct E as [(e & _ & He & _) | (_ & Ho & ->)]; [discriminate |].
  inversion Ho; subst o. eexists. simpl. repeat split.
  simpl. apply Hwf. assumption.
Qed.

(** An approved call passed the new-EMI test on the database it ran on. *)
Lemma call_approved_within_ceiling (today : date) (rq : Request) (db db' : DB)
    (o : LoanOutcome) :
  wf_db db -> call today rq db = (Ok o, db') -> loan_approved o = true ->
  exists (c : Customer) (elig : Eligibility) (lim total : Decimal),
    customers db !! r_customer_id rq = Some c /\
    EligibilityService.check db today c (r_loan_amount rq) (r_interest_rate rq)
      (r_tenure rq) = Ok elig /\
    o_monthly_installment o = Some (e_monthly_installment elig) /\
    EligibilityService.emi_limit c = Ok lim /\
    Decimal.add (EligibilityService.current_emi_total db c)
                (e_monthly_installment elig) = Ok total /\
    Decimal.gtb total lim = false.
Proof.
  intros Hwf E Ha. unfold call in E.
  apply LoanFacts.create_loan_inv in E; [| assumption].
  destruct E as [(_ & _ & e & He) | (c & Hc & E)]; [discriminate |].
  destruct E as [(e & _ & He & _) | (elig & Hchk & E)]; [discriminate |].
  destruct E as [(_ & _ & Hr) | (Happ & E)].
  { destruct Hr as [(msg & _ & Ho) | (e & _ & He)]; [| discriminate].
    inversion Ho; subst o. discriminate. }
  destruct E as [(e & _ & He & _) | (ends & _ & E)]; [discriminate |].
  destruct E as [(e & _ & He & _) | (_ & E)]; [discriminate |].
  destruct E as [(e & _ & He & _) | (debt & _ & E)]; [discriminate |].
  destruct E as [(e & _ & He & _) | (_ & Ho & _)]; [discriminate |].
  inversion Ho; subst o. simpl.
  destruct (EligibilityFacts.check_inv _ _ _ _ _ _ _ Hchk)
    as (s & _ & _ & _ & _ & [(_ & _ & Hf & _) | (_ & lim & emi & Hlim & _ & H)]);
    [congruence |].
  destruct H as [(_ & _ & Hf & _) | (_ & _ & _ & H)]; [congruence |].
  destruct H as [(_ & Hf) | (_ & total & Hadd & Hneg)]; [congruence |].
  exists c, elig, lim, total. repeat split; try assumption.
  rewrite Happ in Hneg. destruct (Decimal.gtb total lim); [discriminate | reflexivity].
Qed.

End ConcurrentFacts.

(** C6, as stated, fails on the principal: two calls of 2000000.00 each for
    the customer of [Sample.db0], whose limit is 3600000, run one after the
    other - the second on the state the first committed - and both are
    approved; the active principal is then 4000000.00. *)
Lemma combined_principal_over_limit_both_approved :
  exists w : Concurrent.World,
    Concurrent.run Sample.today [0; 0; 0; 1; 1; 1]%nat
      (Concurrent.init Sample.db0 Sample.request_2m Sample.request_2m) = Some w /\
    Concurrent.w_calls w =
      [(Sample.request_2m, Concurrent.Done (Ok (Sample.approved_2m 1)));
       (Sample.request_2m, Concurrent.Done (Ok (Sample.approved_2m 2)))] /\
    or_zero (Sum_decimal loan_amount
               (active (loans_of (Concurrent.w_db w) Sample.customer))) =
      Sample.d 400000000 /\
    Decimal.gtb (Sample.d 400000000)
                (Decimal.of_int (approved_limit Sample.customer)) = true.
Proof.
  eexists. split; [vm_compute; reflexivity |].
  repeat split; vm_compute; reflexivity.
Qed.

(** C6, amended.  Under the row lock two calls on the same customer run one
    after the other: whatever the schedule, once both have finished, the one
    that took the lock first ran on the initial database and the other ran on
    the database the first one committed.  If both are approved, the second
    was decided with the first one's new active loan in view, and the active
    installments including the first one's, plus the second one's
    installment, do not exceed the ceiling.  The combined principal is not
    tested. *)
Theorem two_calls_serialize :
  forall (today : date) (db : DB) (rq1 rq2 : Request) (sched : list nat)
         (w : Concurrent.World) (r1 r2 : result LoanOutcome),
    wf_db db ->
    r_customer_id rq2 = r_customer_id rq1 ->
    Concurrent.run today sched (Concurrent.init db rq1 rq2) = Some w ->
    Concurrent.w_calls w = [(rq1, Concurrent.Done r1); (rq2, Concurrent.Done r2)] ->
    exists (b : bool) (dbm : DB),
      Concurrent.call today (Concurrent.pick b rq1 rq2) db =
        (Concurrent.pick b r1 r2, dbm) /\
      Concurrent.call today (Concurrent.pick b rq2 rq1) dbm =
        (Concurrent.pick b r2 r1, Concurrent.w_db w) /\
      (Concurrent.approved r1 = true -> Concurrent.approved r2 = true ->
       exists (l1 : Loan) (c : Customer) (elig : Eligibility) (lim total : Decimal),
         loans dbm = loans db ++ [l1] /\ is_active l1 = true /\
         l_customer l1 = r_customer_id rq1 /\
         customers dbm !! r_customer_id rq1 = Some c /\
         EligibilityService.check dbm today c
           (r_loan_amount (Concurrent.pick b rq2 rq1))
           (r_interest_rate (Concurrent.pick b rq2 rq1))
           (r_tenure (Concurrent.pick b rq2 rq1)) = Ok elig /\
         EligibilityService.emi_limit c = Ok lim /\
         Decimal.add (EligibilityService.current_emi_total dbm c)
                     (e_monthly_installment elig) = Ok total /\
         Decimal.gtb total lim = false).
Proof.
  intros today db rq1 rq2 sched w r1 r2 Hwf Hcid Hrun Hcalls.
  assert (Hreach : Concurrent.reachable today db rq1 rq2 w).
  { apply (ConcurrentFacts.run_reachable today db rq1 rq2 sched Hcid _ w
             (Concurrent.reach_init today db rq1 rq2) Hrun). }
  destruct (ConcurrentFacts.both_done_serial today db rq1 rq2 w r1 r2 Hreach Hcalls)
    as (b & dbm & Hfirst & Hsecond).
  exists b, dbm. split; [assumption |]. split; [assumption |].
  intros Ha1 Ha2.
  assert (Hwfm : wf_db dbm) by (eapply ConcurrentFacts.call_wf; eassumption).
  assert (Hcid1 : r_customer_id (Concurrent.pick b rq1 rq2) = r_customer_id rq1)
    by (destruct b; simpl; congruence).
  assert (Hcid2 : r_customer_id (Concurrent.pick b rq2 rq1) = r_customer_id rq1)
    by (destruct b; simpl; congruence).
  assert (Hfa : exists o, Concurrent.pick b r1 r2 = Ok o /\ loan_approved o = true).
  { destruct b; simpl; [destruct r1 | destruct r2]; simpl in *;
      try discriminate; eauto. }
  assert (Hsa : exists o, Concurrent.pick b r2 r1 = Ok o /\ loan_approved o = true).
  { destruct b; simpl; [destruct r2 | destruct r1]; simpl in *;
      try discriminate; eauto. }
  destruct Hfa as (o1 & Ho1 & Hap1). destruct Hsa as (o2 & Ho2 & Hap2).
  rewrite Ho1 in Hfirst. rewrite Ho2 in Hsecond.
  destruct (ConcurrentFacts.call_approved_appends _ _ _ _ _ Hwf Hfirst Hap1)
    as (l1 & Hl & Hact & Hlc & _).
  destruct (ConcurrentFacts.call_approved_within_ceiling _ _ _ _ _ Hwfm Hsecond Hap2)
    as (c & elig & lim & total & Hc & Hchk & _ & Hlim & Hadd & Hgt).
  exists l1, c, elig, lim, total.
  rewrite Hcid1 in Hlc. rewrite Hcid2 in Hc.
  repeat split; assumption.
Qed.

Lemma two_calls_serialize_witness :
  exists (w : Concurrent.World) (b : bool) (dbm : DB),
    Concurrent.run Sample.today [0; 1; 0; 0; 1; 1; 1]%nat
      (Concurrent.init Sample.db0 Sample.request_2m Sample.request_2m) = None /\
    Concurrent.run Sample.today [1; 1; 1; 0; 0; 0]%nat
      (Concurrent.init Sample.db0 Sample.request_2m Sample.request_2m) = Some w /\
    Concurrent.call Sample.today Sample.request_2m Sample.db0 =
      (Concurrent.pick b (Ok (Sample.approved_2m 2)) (Ok (Sample.approved_2m 1)), dbm) /\
    Concurrent.call Sample.today Sample.request_2m dbm =
      (Concurrent.pick b (Ok (Sample.approved_2m 1)) (Ok (Sample.approved_2m 2)),
       Concurrent.w_db w).
Proof.
  destruct (Concurrent.run Sample.today [1; 1; 1; 0; 0; 0]%nat
              (Concurrent.init Sample.db0 Sample.request_2m Sample.request_2m))
    as [w |] eqn:R; [| vm_compute in R; discriminate].
  assert (Hcalls : Concurrent.w_calls w =
            [(Sample.request_2m, Concurrent.Done (Ok (Sample.approved_2m 2)));
             (Sample.request_2m, Concurrent.Done (Ok (Sample.approved_2m 1)))]).
  { vm_compute in R. injection R as <-. reflexivity. }
  destruct (two_calls_serialize Sample.today Sample.db0 Sample.request_2m
              Sample.request_2m _ w _ _ wf_db0 eq_refl R Hcalls)
    as (b & dbm & H1 & H2 & _).
  exists w, b, dbm. split; [vm_compute; reflexivity |].
  split; [reflexivity |].
  assert (Hp : Concurrent.pick b Sample.request_2m Sample.request_2m = Sample.request_2m)
    by (destruct b; reflexivity).
  rewrite Hp in H1, H2. split; assumption.
Defined.

(** ** Claims on the installment *)

(** C3, as stated, fails: the arithmetic is carried out with 28 significant
    digits, every operation rounded, and that shows after the final rounding
    to cents.  For 300.00 at 0.02 % over one month the exact installment is
    300.005, which rounds half-up to 300.01; [calculate_emi] returns 300.00.
    For a rate of 1E-30 the sum [1 + r] rounds to 1 and the division by
    [(1+r)^n - 1] raises. *)
Lemma emi_is_not_the_exact_rounding :
  calculate_emi (Sample.d 30000) (Sample.d 2) 1 = Ok (Sample.d 30000) /\
  Spec.compute_emi_cents (Decimal.to_Q (Sample.d 30000)) (Decimal.to_Q (Sample.d 2)) 1
    = 30001 /\
  calculate_emi (Decimal.Dec 1 0) (Decimal.Dec 1 (-30)) 1 = Raise DivisionByZero.
Proof.
  repeat split; vm_compute; reflexivity.
Qed.

(** C9, as stated, fails twice.  The installment of 0.01 over three months at
    rate zero is 0.00, which is not strictly positive.  And for a principal of
    1000000 over one month, raising the rate from 1E-17 to 1.00000008E-17
    lowers the installment from 1000000.04 to 1000000.00. *)
Lemma emi_not_positive_not_monotone :
  calculate_emi (Sample.d 1) (Decimal.Dec 0 0) 3 = Ok (Sample.d 0) /\
  (Decimal.ltb (Decimal.Dec 1 (-17)) (Decimal.Dec 100000008 (-25)) = true /\
   calculate_emi (Decimal.Dec 1000000 0) (Decimal.Dec 1 (-17)) 1 =
     Ok (Sample.d 100000004) /\
   calculate_emi (Decimal.Dec 1000000 0) (Decimal.Dec 100000008 (-25)) 1 =
     Ok (Sample.d 100000000)).
Proof.
  repeat split; vm_compute; reflexivity.
Qed.

(** ** Values of decimals *)

Module ValFacts.
Import Decimal.
Local Open Scope Q_scope.

Lemma p10_pos (k : Z) : 0 < p10 k.
Proof. apply Qpower_0_lt. reflexivity. Qed.

Lemma p10_nonzero (k : Z) : ~ p10 k == 0.
Proof. intros H. pose proof (p10_pos k) as P. rewrite H in P. inversion P. Qed.

Lemma p10_add (a b : Z) : p10 (a + b) == p10 a * p10 b.
Proof. apply Qpower_plus. intros H; inversion H. Qed.

Lemma p10_0 : p10 0 == 1.
Proof. reflexivity. Qed.

Lemma p10_Z (k : Z) : (0 <= k)%Z -> p10 k == inject_Z (10 ^ k).
Proof. intros H. unfold p10. now rewrite Zpower_Qpower. Qed.

Lemma p10_le (a b : Z) : (a <= b)%Z -> p10 a <= p10 b.
Proof.
  intros H. apply Qpower_le_compat_l; [assumption |].
  unfold Qle; simpl; lia.
Qed.

Lemma p10_lt (a b : Z) : (a < b)%Z -> p10 a < p10 b.
Proof.
  intros H. apply Qpower_lt_compat_l; [assumption |].
  unfold Qlt; simpl; lia.
Qed.

Lemma p10_sub (a b : Z) : p10 (a - b) == p10 a / p10 b.
Proof.
  unfold Z.sub. rewrite p10_add. unfold p10 at 2. rewrite Qpower_opp.
  reflexivity.
Qed.

(** The value at a lower exponent: [c * 10^e = (c * 10^(e-k)) * 10^k]. *)
Lemma val_at (k : Z) (d : t) :
  (k <= exponent d)%Z ->
  val d == inject_Z (coeff d * 10 ^ (exponent d - k)) * p10 k.
Proof.
  intros H. unfold val. rewrite inject_Z_mult.
  rewrite <- p10_Z by lia. rewrite <- Qmult_assoc, <- p10_add.
  replace (exponent d - k + k)%Z with (exponent d) by lia. reflexivity.
Qed.

(** [compare] is the comparison of the values. *)
Lemma compare_val (a b : t) : compare a b = (val a ?= val b).
Proof.
  unfold compare.
  set (m := Z.min (exponent a) (exponent b)).
  rewrite (val_at m a), (val_at m b) by (unfold m; lia).
  generalize (coeff a * 10 ^ (exponent a - m))%Z (coeff b * 10 ^ (exponent b - m))%Z.
  intros x y.
  destruct (Z.compare_spec x y) as [E | L | G]; symmetry.
  - subst. apply Qeq_alt. reflexivity.
  - apply Qlt_alt. apply Qmult_lt_compat_r; [apply p10_pos |].
    rewrite <- Zlt_Qlt. assumption.
  - apply Qgt_alt. apply Qmult_lt_compat_r; [apply p10_pos |].
    rewrite <- Zlt_Qlt. assumption.
Qed.

Lemma leb_val (a b : t) : leb a b = true <-> val a <= val b.
Proof.
  unfold leb. rewrite compare_val, Qle_alt.
  destruct (val a ?= val b); split; congruence.
Qed.

Lemma ltb_val (a b : t) : ltb a b = true <-> val a < val b.
Proof.
  unfold ltb. rewrite compare_val, Qlt_alt.
  destruct (val a ?= val b); split; congruence.
Qed.

Lemma eqb_val (a b : t) : eqb a b = true <-> val a == val b.
Proof.
  unfold eqb. rewrite compare_val, Qeq_alt.
  destruct (val a ?= val b); split; congruence.
Qed.

Lemma leb_false_val (a b : t) : leb a b = false <-> val b < val a.
Proof.
  unfold leb. rewrite compare_val.
  destruct (Qcompare_spec (val a) (val b)) as [E | L | G]; split; intros H;
    try congruence; try assumption.
  - rewrite E in H. exfalso. apply (Qlt_irrefl _ H).
  - exfalso. apply (Qlt_irrefl (val a)). eapply Qlt_trans; eassumption.
Qed.

Lemma val_of_int (n : Z) : val (of_int n) == inject_Z n.
Proof. unfold val, of_int, p10; simpl. ring. Qed.

Lemma val_sign (d : t) : (0 <= coeff d)%Z <-> 0 <= val d.
Proof.
  unfold val. split; intros H.
  - apply Qmult_le_0_compat; [| apply Qlt_le_weak, p10_pos].
    change 0 with (inject_Z 0). rewrite <- Zle_Qle. assumption.
  - destruct (Z.le_gt_cases 0 (coeff d)) as [| N]; [assumption |].
    exfalso. apply (Qlt_not_le _ _ (p10_pos (exponent d))).
    assert (inject_Z (coeff d) < 0).
    { change 0 with (inject_Z 0). rewrite <- Zlt_Qlt. assumption. }
    apply Qnot_lt_le. intros P.
    assert (inject_Z (coeff d) * p10 (exponent d) < 0 * p10 (exponent d)).
    { apply Qmult_lt_compat_r; assumption. }
    rewrite Qmult_0_l in H1. apply (Qlt_not_le _ _ H1 H).
Qed.

End ValFacts.

(** ** What [calculate_emi] computes *)

Module EmiFacts.
Import Decimal.

(** [quantize] returns the rescaled operand or raises. *)
Lemma quantize_rescale (p : Z) (mode : rounding) (d v : t) (e : Z) :
  (1 <= p)%Z -> quantize_at p mode d e = Ok v -> v = rescale mode d e.
Proof.
  intros Hp. unfold quantize_at.
  destruct ((Etiny p <=? e)%Z && (e <=? Emax)%Z) eqn:R; simpl; [| discriminate].
  apply andb_true_iff in R. destruct R as (R1 & R2).
  apply Z.leb_le in R1. apply Z.leb_le in R2.
  destruct (Z.eqb_spec (coeff d) 0) as [Hz | Hnz].
  - unfold fix_at; simpl. intros H; inversion H; subst.
    unfold rescale. rewrite Hz. simpl. f_equal. lia.
  - destruct (adjusted d >? Emax)%Z; [discriminate |].
    destruct (adjusted d - e + 1 >? p)%Z; [discriminate |].
    destruct (Z.gtb_spec (adjusted (rescale mode d e)) Emax) as [| Hadj]; [discriminate |].
    destruct (Z.gtb_spec (ndigits (coeff (rescale mode d e))) p) as [| Hnd]; [discriminate |].
    assert (He : exponent (rescale mode d e) = e).
    { unfold rescale. destruct (coeff d =? 0)%Z; [reflexivity |].
      destruct (e <=? exponent d)%Z; reflexivity. }
    unfold fix_at.
    destruct (Z.eqb_spec (coeff (rescale mode d e)) 0) as [Hz | Hz].
    + intros H; inversion H; subst. rewrite He.
      destruct (rescale mode d e) as [c' e']; simpl in *. subst. f_equal. lia.
    + unfold adjusted in Hadj. rewrite He in *.
      unfold Etop, Etiny, Emax, Emin in *.
      destruct (Z.gtb_spec (ndigits (coeff (rescale mode d e)) + e - p) (999999 - p + 1));
        [lia |].
      destruct (Z.ltb_spec e (Z.max (ndigits (coeff (rescale mode d e)) + e - p)
                                    (-999999 - p + 1))); [lia |].
      intros Hv; inversion Hv; reflexivity.
Qed.

Lemma rescale_exponent (mode : rounding) (d : t) (e : Z) :
  exponent (rescale mode d e) = e.
Proof.
  unfold rescale. destruct (coeff d =? 0)%Z; [reflexivity |].
  destruct (e <=? exponent d)%Z; reflexivity.
Qed.

(** The two branches of [calculate_emi], as chains of context operations. *)
Lemma calculate_emi_inv (P rate : t) (months : Z) (v : t) :
  calculate_emi P rate months = Ok v ->
  exists n : positive,
    months = Zpos n /\ leb P (of_int 0) = false /\ ltb rate (of_int 0) = false /\
    ((eqb rate (of_int 0) = true /\
      exists q, div P (of_int (Zpos n)) = Ok q /\
                quantize ROUND_HALF_UP q (-2) = Ok v)
     \/
     (eqb rate (of_int 0) = false /\
      exists r o pw t1 t2 t3 q,
        div rate (of_int 1200) = Ok r /\
        add (of_int 1) r = Ok o /\
        pow o n = Ok pw /\
        mul P r = Ok t1 /\
        mul t1 pw = Ok t2 /\
        sub pw (of_int 1) = Ok t3 /\
        div t2 t3 = Ok q /\
        quantize ROUND_HALF_UP q (-2) = Ok v)).
Proof.
  unfold calculate_emi. intros H.
  destruct (leb P (of_int 0)) eqn:HP; [discriminate |].
  destruct (ltb rate (of_int 0)) eqn:HR; [discriminate |].
  destruct months as [| n | n]; try discriminate.
  exists n. repeat split.
  destruct (eqb rate (of_int 0)) eqn:HZ.
  - left. split; [reflexivity |]. inv_bind H. eauto.
  - right. split; [reflexivity |].
    inv_bind H. inv_bind H. inv_bind H. inv_bind H. inv_bind H. inv_bind H. inv_bind H.
    exists v0, v1, v2, v3, v4, v5, v6. repeat split; assumption.
Qed.

End EmiFacts.

(** ** Digits, again: the lower bound *)

Module DigitFacts.
Import Decimal.

Lemma ndigits_aux_spec (fuel : nat) :
  forall n : Z,
    0 < n < 2 ^ (Z.of_nat fuel + 1) ->
    10 ^ (ndigits_aux fuel n - 1) <= n < 10 ^ ndigits_aux fuel n.
Proof.
  induction fuel as [| fuel IH]; intros n Hn.
  - simpl in *. change (2 ^ 1) with 2 in Hn. assert (n = 1) by lia. subst.
    split; [reflexivity | reflexivity].
  - cbn [ndigits_aux]. destruct (Z.ltb_spec n 10) as [Hlt | Hge].
    + change (10 ^ (1 - 1)) with 1. change (10 ^ 1) with 10. lia.
    + assert (Hq : 0 < n / 10 < 2 ^ (Z.of_nat fuel + 1)).
      { split; [apply Z.div_str_pos; lia |].
        apply Z.div_lt_upper_bound; [lia |].
        replace (Z.of_nat (S fuel) + 1) with (1 + (Z.of_nat fuel + 1)) in Hn by lia.
        rewrite Z.pow_add_r in Hn by lia. change (2 ^ 1) with 2 in Hn. lia. }
      specialize (IH _ Hq).
      pose proof (RoundFacts.ndigits_aux_pos fuel (n / 10)) as Hpos.
      set (a := ndigits_aux fuel (n / 10)) in *.
      replace (1 + a - 1) with (1 + (a - 1)) by lia.
      rewrite !Z.pow_add_r by lia. change (10 ^ 1) with 10.
      pose proof (Z.div_mod n 10 ltac:(lia)) as Hdm.
      pose proof (Z.mod_pos_bound n 10 ltac:(lia)) as Hm.
      lia.
Qed.

(** A non-zero [n] lies between the powers of ten its digit count names. *)
Lemma ndigits_spec (n : Z) :
  n <> 0 -> 10 ^ (ndigits n - 1) <= Z.abs n < 10 ^ ndigits n.
Proof.
  intros Hn. unfold ndigits. apply ndigits_aux_spec.
  assert (Hp : 0 < Z.abs n) by lia. split; [assumption |].
  rewrite Z2Nat.id by apply Z.log2_nonneg.
  pose proof (Z.log2_spec (Z.abs n) Hp) as H.
  replace (Z.log2 (Z.abs n) + 1) with (Z.succ (Z.log2 (Z.abs n))) by lia. lia.
Qed.

(** The digit count is determined by the enclosing powers of ten. *)
Lemma ndigits_unique (n k : Z) :
  1 <= k -> 10 ^ (k - 1) <= Z.abs n < 10 ^ k -> ndigits n = k.
Proof.
  intros Hk (Hlo & Hhi).
  assert (Hn : n <> 0).
  { intros ->. simpl in Hlo. pose proof (Z.pow_pos_nonneg 10 (k - 1)). lia. }
  pose proof (ndigits_spec n Hn) as (Slo & Shi).
  pose proof (RoundFacts.ndigits_pos n) as Hpos.
  destruct (Z.lt_trichotomy (ndigits n) k) as [L | [E | G]]; [| assumption |].
  - exfalso. assert (10 ^ ndigits n <= 10 ^ (k - 1))
      by (apply Z.pow_le_mono_r; lia). lia.
  - exfalso. assert (10 ^ k <= 10 ^ (ndigits n - 1))
      by (apply Z.pow_le_mono_r; lia). lia.
Qed.

End DigitFacts.

(** ** Rounding an integer quotient *)

Module DivRoundFacts.
Import Decimal.

Section DivRound.
Variables (mode : rounding) (n k : Z).
Hypothesis Hn : 0 <= n.
Hypothesis Hk : 0 <= k.

Let b := 10 ^ k.

Lemma base_pos : 0 < b.
Proof. apply Z.pow_pos_nonneg; lia. Qed.

Lemma div_round_cases :
  (div_round mode n k = n / b /\ 2 * (n mod b) <= b) \/
  (div_round mode n k = n / b + 1 /\ b <= 2 * (n mod b)).
Proof.
  unfold div_round. fold b. destruct mode.
  - destruct (Z.gtb_spec (2 * (n mod b)) b) as [G | G]; simpl; [right; lia |].
    destruct (Z.eqb_spec (2 * (n mod b)) b) as [E | E]; simpl.
    + destruct (Z.odd (n / b)); [right | left]; lia.
    + left; lia.
  - destruct (Z.geb_spec (2 * (n mod b)) b); [right | left]; lia.
Qed.

(** The rounded quotient is within half a unit of the exact one. *)
Lemma div_round_error : 2 * Z.abs (div_round mode n k * b - n) <= b.
Proof.
  pose proof base_pos as Hb.
  pose proof (Z.div_mod n b ltac:(lia)) as Hdm.
  pose proof (Z.mod_pos_bound n b Hb) as Hm.
  destruct div_round_cases as [(-> & H) | (-> & H)]; nia.
Qed.

Lemma div_round_nonneg : 0 <= div_round mode n k.
Proof.
  pose proof base_pos as Hb.
  pose proof (Z.div_pos n b Hn Hb).
  destruct div_round_cases as [(-> & _) | (-> & _)]; lia.
Qed.

(** Rounding respects the multiples of the unit. *)
Lemma div_round_le (m : Z) : n <= m * b -> div_round mode n k <= m.
Proof.
  intros H. pose proof base_pos as Hb.
  pose proof (Z.div_mod n b ltac:(lia)) as Hdm.
  pose proof (Z.mod_pos_bound n b Hb) as Hm.
  destruct div_round_cases as [(-> & _) | (-> & Hr)]; nia.
Qed.

Lemma div_round_ge (m : Z) : m * b <= n -> m <= div_round mode n k.
Proof.
  intros H. pose proof base_pos as Hb.
  pose proof (Z.div_mod n b ltac:(lia)) as Hdm.
  pose proof (Z.mod_pos_bound n b Hb) as Hm.
  destruct div_round_cases as [(-> & _) | (-> & Hr)]; nia.
Qed.

End DivRound.

End DivRoundFacts.

(** ** The rounding of the context, on positive decimals *)

Module FixFacts.
Import Decimal.

(** Rounding a positive decimal whose leading digit is above the subnormal
    range: either it fits and is returned as it is, or its coefficient is
    rounded to [p] digits at the exponent [g = adjusted d - p + 1]. *)
Lemma fix_normal (p : Z) (d r : t) :
  1 <= p -> 0 < coeff d ->
  Etiny p <= adjusted d - p + 1 ->
  fix_at p d = Ok r ->
  (ndigits (coeff d) <= p /\ r = d) \/
  (p < ndigits (coeff d) /\
   exists q : Z,
     10 ^ (p - 1) <= q <= 10 ^ p /\
     2 * Z.abs (q * 10 ^ (ndigits (coeff d) - p) - coeff d)
       <= 10 ^ (ndigits (coeff d) - p) /\
     ((r = Dec q (adjusted d - p + 1) /\ q < 10 ^ p) \/
      (r = Dec (10 ^ (p - 1)) (adjusted d - p + 2) /\ q = 10 ^ p))).
Proof.
  intros Hp Hc Hnorm Hfix. unfold fix_at, adjusted in *.
  destruct (Z.eqb_spec (coeff d) 0) as [| _]; [lia |].
  set (nd := ndigits (coeff d)) in *.
  destruct (Z.gtb_spec (nd + exponent d - p) (Etop p)) as [| Hov]; [discriminate |].
  replace (Z.max (nd + exponent d - p) (Etiny p)) with (nd + exponent d - p)
    in Hfix by lia.
  destruct (Z.ltb_spec (exponent d) (nd + exponent d - p)) as [Hlt | Hge].
  2:{ inversion Hfix; subst. left. split; [lia | reflexivity]. }
  right. split; [lia |].
  replace (nd + exponent d - p - exponent d) with (nd - p) in Hfix by lia.
  rewrite (Z.abs_eq (coeff d)) in Hfix by lia.
  set (k := nd - p) in *.
  set (q := div_round ROUND_HALF_EVEN (coeff d) k) in *.
  pose proof (DigitFacts.ndigits_spec (coeff d) ltac:(lia)) as (Slo & Shi).
  fold nd in Slo, Shi. rewrite Z.abs_eq in Slo, Shi by lia.
  assert (Hk : 0 <= k) by (unfold k; lia).
  assert (Hqlo : 10 ^ (p - 1) <= q).
  { apply (DivRoundFacts.div_round_ge ROUND_HALF_EVEN (coeff d) k Hk).
    rewrite <- Z.pow_add_r by lia. replace (p - 1 + k) with (nd - 1) by (unfold k; lia).
    assumption. }
  assert (Hqhi : q <= 10 ^ p).
  { apply (DivRoundFacts.div_round_le ROUND_HALF_EVEN (coeff d) k Hk).
    rewrite <- Z.pow_add_r by lia. replace (p + k) with nd by (unfold k; lia). lia. }
  assert (Herr : 2 * Z.abs (q * 10 ^ k - coeff d) <= 10 ^ k).
  { apply (DivRoundFacts.div_round_error ROUND_HALF_EVEN (coeff d) k Hk). }
  assert (Hsgn : Z.sgn (coeff d) = 1) by (apply Z.sgn_pos; lia).
  rewrite Hsgn in Hfix.
  destruct (Z.gtb_spec (ndigits q) p) as [Hbig | Hsmall].
  - assert (Hq : q = 10 ^ p).
    { destruct (Z.eq_dec q (10 ^ p)) as [| Hne]; [assumption |].
      exfalso. assert (ndigits q <= p); [| lia].
      apply RoundFacts.ndigits_le; [assumption |].
      assert (0 < 10 ^ (p - 1)) by (apply Z.pow_pos_nonneg; lia). lia. }
    destruct (Z.gtb_spec (nd + exponent d - p + 1) (Etop p)); [discriminate |].
    inversion Hfix; subst r; clear Hfix.
    exists q. split; [lia |]. split; [assumption |]. right. split; [| assumption].
    f_equal.
    + rewrite Hq. replace p with (1 + (p - 1)) at 1 by lia.
      rewrite Z.pow_add_r by lia. change (10 ^ 1) with 10.
      rewrite Z.mul_1_l, (Z.mul_comm 10), Z.div_mul by lia. reflexivity.
    + lia.
  - destruct (Z.gtb_spec (nd + exponent d - p) (Etop p)); [discriminate |].
    inversion Hfix; subst r; clear Hfix.
    exists q. split; [lia |]. split; [assumption |]. left. split.
    + f_equal; lia.
    + destruct (Z.eq_dec q (10 ^ p)) as [Hq |]; [| lia].
      exfalso. assert (ndigits q = p + 1); [| lia].
      apply DigitFacts.ndigits_unique; [lia |].
      replace (p + 1 - 1) with p by lia. rewrite Hq.
      assert (0 < 10 ^ p) by (apply Z.pow_pos_nonneg; lia).
      rewrite Z.abs_eq by lia. split; [lia |].
      rewrite Z.pow_add_r by lia. change (10 ^ 1) with 10. lia.
Qed.

End FixFacts.

(** ** The rounding of the context, in values *)

Module FixVal.
Import Decimal ValFacts.
Local Open Scope Q_scope.

Lemma inject_le (a b : Z) : (a <= b)%Z -> inject_Z a <= inject_Z b.
Proof. intros H. now rewrite <- Zle_Qle. Qed.

Lemma inject_lt (a b : Z) : (a < b)%Z -> inject_Z a < inject_Z b.
Proof. intros H. now rewrite <- Zlt_Qlt. Qed.

(** [m * 10^e] for an integer [m] between two powers of ten. *)
Lemma scaled_bounds (m a b e : Z) :
  (0 <= a)%Z -> (0 <= b)%Z -> (10 ^ a <= m)%Z -> (m <= 10 ^ b)%Z ->
  p10 (a + e) <= inject_Z m * p10 e /\ inject_Z m * p10 e <= p10 (b + e).
Proof.
  intros Ha Hb Hlo Hhi. split.
  - rewrite p10_add, (p10_Z a Ha).
    apply Qmult_le_compat_r; [apply inject_le; assumption |].
    apply Qlt_le_weak, p10_pos.
  - rewrite p10_add, (p10_Z b Hb).
    apply Qmult_le_compat_r; [apply inject_le; assumption |].
    apply Qlt_le_weak, p10_pos.
Qed.

(** A positive decimal lies between the powers of ten around its leading
    digit. *)
Lemma val_bounds (d : t) :
  (0 < coeff d)%Z ->
  p10 (adjusted d) <= val d /\ val d < p10 (adjusted d + 1).
Proof.
  intros Hc. unfold adjusted, val.
  pose proof (DigitFacts.ndigits_spec (coeff d) ltac:(lia)) as (Slo & Shi).
  pose proof (RoundFacts.ndigits_pos (coeff d)) as Hnd.
  rewrite Z.abs_eq in Slo, Shi by lia.
  set (nd := ndigits (coeff d)) in *.
  replace (nd + exponent d - 1)%Z with ((nd - 1) + exponent d)%Z by lia.
  replace (nd - 1 + exponent d + 1)%Z with (nd + exponent d)%Z by lia.
  split.
  - rewrite p10_add, (p10_Z (nd - 1)) by lia.
    apply Qmult_le_compat_r; [apply inject_le; assumption |].
    apply Qlt_le_weak, p10_pos.
  - rewrite p10_add, (p10_Z nd) by lia.
    apply Qmult_lt_compat_r; [apply p10_pos | apply inject_lt; assumption].
Qed.

Lemma val_pos (d : t) : (0 < coeff d)%Z -> 0 < val d.
Proof.
  intros Hc. unfold val. apply Qmult_lt_0_compat; [| apply p10_pos].
  change 0 with (inject_Z 0). apply inject_lt. assumption.
Qed.

(** Rounding to [p] digits moves a positive decimal by at most half a unit
    of the last kept place, keeps it between the powers of ten around its
    leading digit, and yields a positive coefficient of at most [p] digits. *)
Lemma fix_val (p : Z) (d r : t) :
  (1 <= p)%Z -> (0 < coeff d)%Z ->
  (Etiny p <= adjusted d - p + 1)%Z ->
  fix_at p d = Ok r ->
  Qabs (val r - val d) <= (1 # 2) * p10 (adjusted d - p + 1) /\
  p10 (adjusted d) <= val r /\ val r <= p10 (adjusted d + 1) /\
  (0 < coeff r)%Z /\ (ndigits (coeff r) <= p)%Z.
Proof.
  intros Hp Hc Hnorm Hfix.
  pose proof (val_bounds d Hc) as (Vlo & Vhi).
  destruct (FixFacts.fix_normal p d r Hp Hc Hnorm Hfix)
    as [(Hnd & ->) | (Hnd & q & (Hqlo & Hqhi) & Herr & Hr)].
  - repeat split; try assumption.
    + setoid_replace (val d - val d) with 0 using relation Qeq by ring.
      simpl. apply Qmult_le_0_compat; [discriminate | apply Qlt_le_weak, p10_pos].
    + apply Qlt_le_weak; assumption.
  - set (k := (ndigits (coeff d) - p)%Z) in *.
    set (g := (adjusted d - p + 1)%Z) in *.
    assert (Hk : (0 <= k)%Z) by (unfold k; lia).
    assert (He : exponent d = (g - k)%Z) by (unfold g, k, adjusted; lia).
    assert (Hpk : p10 g == inject_Z (10 ^ k) * p10 (exponent d)).
    { rewrite <- (p10_Z k Hk), <- p10_add. replace (k + exponent d)%Z with g by lia.
      reflexivity. }
    assert (Hval : val r == inject_Z q * p10 g).
    { destruct Hr as [(-> & _) | (-> & ->)]; unfold val; simpl; [reflexivity |].
      rewrite <- !p10_Z by lia. rewrite <- !p10_add.
      replace (p - 1 + (adjusted d - p + 2))%Z with (p + g)%Z by (unfold g; lia).
      reflexivity. }
    assert (H10 : (0 < 10 ^ (p - 1))%Z) by (apply Z.pow_pos_nonneg; lia).
    split; [| split; [| split; [| split]]].
    + rewrite Hval, Hpk. unfold val.
      setoid_replace (inject_Z q * (inject_Z (10 ^ k) * p10 (exponent d)) -
                      inject_Z (coeff d) * p10 (exponent d))
        with (inject_Z (q * 10 ^ k - coeff d) * p10 (exponent d))
        using relation Qeq
        by (rewrite <- Z.add_opp_r, inject_Z_plus, inject_Z_opp, inject_Z_mult; ring).
      apply Qabs_Qle_condition.
      pose proof (p10_pos (exponent d)) as Pe.
      assert (H1 : - inject_Z (10 ^ k) <= 2 * inject_Z (q * 10 ^ k - coeff d)).
      { rewrite <- inject_Z_opp. change 2 with (inject_Z 2).
        rewrite <- inject_Z_mult. apply inject_le. lia. }
      assert (H2 : 2 * inject_Z (q * 10 ^ k - coeff d) <= inject_Z (10 ^ k)).
      { change 2 with (inject_Z 2).
        rewrite <- inject_Z_mult. apply inject_le. lia. }
      revert H1 H2 Pe.
      generalize (inject_Z (q * 10 ^ k - coeff d)) (inject_Z (10 ^ k)) (p10 (exponent d)).
      intros z T P H1 H2 HP. split; nra.
    + rewrite Hval.
      replace (adjusted d) with ((p - 1) + g)%Z by (unfold g; lia).
      apply (scaled_bounds q (p - 1) p g); lia.
    + rewrite Hval.
      replace (adjusted d + 1)%Z with (p + g)%Z by (unfold g; lia).
      apply (scaled_bounds q (p - 1) p g); lia.
    + destruct Hr as [(-> & _) | (-> & _)]; simpl; lia.
    + destruct Hr as [(-> & Hlt) | (-> & _)]; simpl.
      * apply RoundFacts.ndigits_le; [lia | lia].
      * assert (ndigits (10 ^ (p - 1)) = p); [| lia].
        apply DigitFacts.ndigits_unique; [lia |].
        rewrite Z.abs_eq by lia. split; [lia |].
        apply Z.pow_lt_mono_r; lia.
Qed.

End FixVal.

(** ** Signs and exact operations *)

Module SignFacts.
Import Decimal ValFacts FixVal.
Local Open Scope Q_scope.

(** Rounding never changes the sign. *)
Lemma fix_nonneg (p : Z) (d r : t) :
  (0 <= coeff d)%Z -> fix_at p d = Ok r -> (0 <= coeff r)%Z.
Proof.
  intros Hc. unfold fix_at.
  destruct (coeff d =? 0)%Z; [intros H; inversion H; simpl; lia |].
  destruct (_ >? Etop p)%Z; [discriminate |].
  destruct (exponent d <? _)%Z; [| intros H; inversion H; subst; assumption].
  set (k := (Z.max (ndigits (coeff d) + exponent d - p) (Etiny p) - exponent d)%Z).
  set (q := div_round ROUND_HALF_EVEN (Z.abs (coeff d)) k).
  assert (Hq : (0 <= q)%Z).
  { unfold q, div_round.
    assert (0 <= Z.abs (coeff d) / 10 ^ k)%Z.
    { destruct (Z.le_gt_cases 0 k).
      - apply Z.div_pos; [lia | apply Z.pow_pos_nonneg; lia].
      - rewrite Z.pow_neg_r by lia. rewrite Z.div_0_r_ext by reflexivity. lia. }
    destruct (_ || _)%bool; lia. }
  assert (Hs : (0 <= Z.sgn (coeff d))%Z) by (apply Z.sgn_nonneg; assumption).
  assert (Hq10 : (0 <= q / 10)%Z) by (apply Z.div_pos; lia).
  destruct (ndigits q >? p)%Z.
  - destruct (_ >? Etop p)%Z; [discriminate |].
    intros H; inversion H; simpl. apply Z.mul_nonneg_nonneg; assumption.
  - destruct (_ >? Etop p)%Z; [discriminate |].
    intros H; inversion H; simpl. apply Z.mul_nonneg_nonneg; assumption.
Qed.

(** Rounding a value of at least one gives at least one. *)
Lemma fix_ge_one (p : Z) (d r : t) :
  (1 <= p)%Z -> 1 <= val d -> fix_at p d = Ok r -> 1 <= val r /\ (0 < coeff r)%Z.
Proof.
  intros Hp Hd Hfix.
  assert (Hc : (0 < coeff d)%Z).
  { destruct (Z.lt_trichotomy 0 (coeff d)) as [| [E | N]]; [assumption | |].
    - exfalso. unfold val in Hd. rewrite <- E in Hd. rewrite Qmult_0_l in Hd.
      apply (Qle_not_lt _ _ Hd). reflexivity.
    - exfalso. assert (H0 : 0 <= val d) by (eapply Qle_trans; [| exact Hd]; discriminate).
      apply val_sign in H0. lia. }
  pose proof (val_bounds d Hc) as (_ & Vhi).
  assert (Hadj : (0 <= adjusted d)%Z).
  { destruct (Z.le_gt_cases 0 (adjusted d)) as [| N]; [assumption |].
    exfalso. assert (p10 (adjusted d + 1) <= p10 0) by (apply p10_le; lia).
    rewrite p10_0 in H. apply (Qlt_irrefl 1).
    eapply Qle_lt_trans; [exact Hd |]. eapply Qlt_le_trans; eassumption. }
  assert (Hnorm : (Etiny p <= adjusted d - p + 1)%Z) by (unfold Etiny, Emin; lia).
  destruct (fix_val p d r Hp Hc Hnorm Hfix) as (_ & Rlo & _ & Rc & _).
  split; [| assumption].
  eapply Qle_trans; [| exact Rlo].
  rewrite <- p10_0. apply p10_le. assumption.
Qed.

Lemma add_exact_val (a b : t) : val (add_exact a b) == val a + val b.
Proof.
  unfold add_exact. set (m := Z.min (exponent a) (exponent b)).
  rewrite (val_at m a), (val_at m b) by (unfold m; lia).
  unfold val; simpl. rewrite inject_Z_plus. ring.
Qed.

Lemma neg_val (a : t) : val (neg a) == - val a.
Proof. unfold val, neg; simpl. rewrite inject_Z_opp. ring. Qed.

Lemma mul_exact_val (a b : t) :
  val (Dec (coeff a * coeff b) (exponent a + exponent b)) == val a * val b.
Proof. unfold val; simpl. rewrite inject_Z_mult, p10_add. ring. Qed.

Lemma strip_zeros_nonneg (fuel : nat) :
  forall c e ideal : Z, (0 <= c)%Z -> (0 <= fst (strip_zeros fuel c e ideal))%Z.
Proof.
  induction fuel as [| fuel IH]; intros c e ideal Hc; simpl; [assumption |].
  destruct ((e <? ideal)%Z && (c mod 10 =? 0)%Z); [| assumption].
  apply IH. apply Z.div_pos; lia.
Qed.

(** The quotient of a non-negative decimal by a positive one is not
    negative. *)
Lemma div_nonneg (p : Z) (a b q : t) :
  (0 <= coeff a)%Z -> (0 < coeff b)%Z -> div_at p a b = Ok q -> (0 <= coeff q)%Z.
Proof.
  intros Ha Hb. unfold div_at.
  destruct (Z.eqb_spec (coeff b) 0); [lia |].
  destruct (Z.eqb_spec (coeff a) 0).
  { intros H. eapply fix_nonneg; [| exact H]. simpl; lia. }
  rewrite (Z.abs_eq (coeff a)), (Z.abs_eq (coeff b)) by lia.
  set (shift := (ndigits (coeff b) - ndigits (coeff a) + p + 1)%Z).
  assert (Hqr : forall x y : Z, (0 <= x)%Z -> (0 < y)%Z ->
                                (0 <= fst (Z.div_eucl x y))%Z).
  { intros x y Hx Hy. pose proof (Z.div_pos x y Hx Hy) as H.
    unfold Z.div in H. destruct (Z.div_eucl x y). assumption. }
  set (qr := if (0 <=? shift)%Z then Z.div_eucl (coeff a * 10 ^ shift) (coeff b)
             else Z.div_eucl (coeff a) (coeff b * 10 ^ (- shift))).
  assert (Hq0 : (0 <= fst qr)%Z).
  { unfold qr. destruct (Z.leb_spec 0 shift).
    - apply Hqr; [| assumption].
      apply Z.mul_nonneg_nonneg; [assumption |]. apply Z.pow_nonneg; lia.
    - apply Hqr; [assumption |].
      apply Z.mul_pos_pos; [assumption |]. apply Z.pow_pos_nonneg; lia. }
  destruct qr as [q0 r0]. simpl in Hq0.
  set (qe := if (r0 =? 0)%Z
             then strip_zeros _ q0 _ (exponent a - exponent b)
             else (if (q0 mod 5 =? 0)%Z then (q0 + 1)%Z else q0, _)).
  assert (Hq1 : (0 <= fst qe)%Z).
  { unfold qe. destruct (r0 =? 0)%Z.
    - apply strip_zeros_nonneg. assumption.
    - simpl. destruct (q0 mod 5 =? 0)%Z; lia. }
  destruct qe as [q1 e1]. simpl in Hq1.
  intros H. apply (fix_nonneg p _ _) in H; [assumption |]. simpl.
  rewrite !Z.sgn_pos by lia. lia.
Qed.

End SignFacts.

(** ** Relative error *)

Module CloseFacts.
Local Open Scope Q_scope.

Lemma close_refl (e x : Q) : 0 <= e -> 0 <= x -> close e x x.
Proof. unfold close. intros He Hx. split; nra. Qed.

Lemma close_sym (e x y : Q) : close e x y -> close e y x.
Proof. unfold close. tauto. Qed.

Lemma close_weaken (e e' x y : Q) :
  e <= e' -> 0 <= x -> 0 <= y -> close e x y -> close e' x y.
Proof. unfold close. intros He Hx Hy (H1 & H2). split; nra. Qed.

Lemma close_trans (e1 e2 x y z : Q) :
  0 <= e1 -> 0 <= e2 -> e2 <= 1 -> e1 <= 1 -> 0 <= x -> 0 <= z ->
  close e1 x y -> close e2 y z -> close (e1 + e2) x z.
Proof.
  unfold close. intros A1 A2 B2 B1 Hx Hz (H1 & H2) (H3 & H4).
  assert (Px : 0 <= x * e1 * e2) by (repeat apply Qmult_le_0_compat; assumption).
  assert (Pz : 0 <= z * e2 * e1) by (repeat apply Qmult_le_0_compat; assumption).
  split.
  - apply Qle_trans with (y * (1 - e2)); [| assumption].
    apply Qle_trans with (x * (1 - e1) * (1 - e2)); [lra |].
    apply Qmult_le_compat_r; lra.
  - apply Qle_trans with (y * (1 - e1)); [| assumption].
    apply Qle_trans with (z * (1 - e2) * (1 - e1)); [lra |].
    apply Qmult_le_compat_r; lra.
Qed.

Lemma close_mul (e1 e2 x y x' y' : Q) :
  0 <= e1 -> 0 <= e2 -> e1 <= 1 -> e2 <= 1 ->
  0 <= x -> 0 <= y -> 0 <= x' -> 0 <= y' ->
  close e1 x y -> close e2 x' y' -> close (e1 + e2) (x * x') (y * y').
Proof.
  unfold close. intros A1 A2 B1 B2 Hx Hy Hx' Hy' (H1 & H2) (H3 & H4).
  assert (Px : 0 <= x * x' * (e1 * e2))
    by (repeat apply Qmult_le_0_compat; assumption).
  assert (Py : 0 <= y * y' * (e1 * e2))
    by (repeat apply Qmult_le_0_compat; assumption).
  split.
  - apply Qle_trans with ((x * (1 - e1)) * (x' * (1 - e2))); [lra |].
    apply Qle_trans with (y * (x' * (1 - e2))).
    + apply Qmult_le_compat_r; [assumption |].
      apply Qmult_le_0_compat; lra.
    + rewrite (Qmult_comm y), (Qmult_comm y).
      apply Qmult_le_compat_r; assumption.
  - apply Qle_trans with ((y * (1 - e1)) * (y' * (1 - e2))); [lra |].
    apply Qle_trans with (x * (y' * (1 - e2))).
    + apply Qmult_le_compat_r; [assumption |].
      apply Qmult_le_0_compat; lra.
    + rewrite (Qmult_comm x), (Qmult_comm x).
      apply Qmult_le_compat_r; assumption.
Qed.

Lemma close_pos (e x y : Q) : e < 1 -> 0 < x -> close e x y -> 0 < y.
Proof. unfold close. intros He Hx (H1 & _). nra. Qed.

Lemma close_of_abs (e x y : Q) :
  e <= 1 -> 0 <= x -> Qabs (y - x) <= e * x -> close e x y.
Proof.
  unfold close. intros He1 Hx H.
  apply Qabs_Qle_condition in H. destruct H as (H1 & H2).
  assert (He : 0 <= e * x) by lra.
  split; [lra |].
  assert (A : 0 <= (x + e * x - y) * (1 - e)) by (apply Qmult_le_0_compat; lra).
  assert (B : 0 <= e * x * e).
  { destruct (Qlt_le_dec e 0) as [N | N].
    - setoid_replace (e * x * e) with ((- e) * (x * (- e))) using relation Qeq by ring.
      repeat apply Qmult_le_0_compat; lra.
    - repeat apply Qmult_le_0_compat; lra. }
  lra.
Qed.

Lemma close_abs (e x y : Q) :
  0 <= e -> e <= 1 # 2 -> 0 <= x -> close e x y -> Qabs (y - x) <= 2 * e * x.
Proof.
  unfold close. intros A B Hx (H1 & H2).
  assert (Pe : 0 <= x * e) by (apply Qmult_le_0_compat; assumption).
  apply Qabs_Qle_condition. split; [lra |].
  assert (C : 0 <= x * e * (1 - 2 * e)) by (apply Qmult_le_0_compat; lra).
  assert (D : (y - (x + 2 * e * x)) * (1 - e) <= 0) by lra.
  assert (E : ~ 0 < y - (x + 2 * e * x)).
  { intros F. assert (0 < (y - (x + 2 * e * x)) * (1 - e))
      by (apply Qmult_lt_0_compat; lra). lra. }
  lra.
Qed.

End CloseFacts.

(** ** Rounding as a relative error *)

Module FixClose.
Import Decimal ValFacts FixVal CloseFacts.
Local Open Scope Q_scope.

Lemma adjusted_range (d : t) (lo hi : Z) :
  (0 < coeff d)%Z -> p10 lo <= val d -> val d <= p10 hi ->
  (lo <= adjusted d <= hi)%Z.
Proof.
  intros Hc Hlo Hhi. destruct (val_bounds d Hc) as (Blo & Bhi). split.
  - destruct (Z.le_gt_cases lo (adjusted d)) as [| N]; [assumption | exfalso].
    assert (p10 (adjusted d + 1) <= p10 lo) by (apply p10_le; lia). lra.
  - destruct (Z.le_gt_cases (adjusted d) hi) as [| N]; [assumption | exfalso].
    assert (p10 hi < p10 (adjusted d)) by (apply p10_lt; lia). lra.
Qed.

Lemma unit_roundoff_pos (p : Z) : 0 < unit_roundoff p.
Proof. unfold unit_roundoff. pose proof (p10_pos (1 - p)). lra. Qed.

Lemma unit_roundoff_le (p q : Z) : (p <= q)%Z -> unit_roundoff q <= unit_roundoff p.
Proof.
  intros H. unfold unit_roundoff.
  assert (p10 (1 - q) <= p10 (1 - p)) by (apply p10_le; lia). lra.
Qed.

Lemma unit_roundoff_half (p : Z) : (1 <= p)%Z -> unit_roundoff p <= 1 # 2.
Proof.
  intros H. unfold unit_roundoff.
  assert (p10 (1 - p) <= p10 0) by (apply p10_le; lia).
  rewrite p10_0 in H0. lra.
Qed.

(** Away from the exponent limits the rounding returns. *)
Lemma fix_ok (p : Z) (d : t) :
  (1 <= p)%Z -> (0 < coeff d)%Z -> (adjusted d < Emax)%Z ->
  exists r, fix_at p d = Ok r.
Proof.
  intros Hp Hc Hadj. unfold fix_at, adjusted in *.
  destruct (Z.eqb_spec (coeff d) 0); [lia |].
  destruct (Z.gtb_spec (ndigits (coeff d) + exponent d - p) (Etop p)) as [G | G];
    [unfold Etop in G; lia |].
  destruct (_ <? _)%Z; [| eauto].
  destruct (_ >? p)%Z.
  - destruct (Z.gtb_spec (Z.max (ndigits (coeff d) + exponent d - p) (Etiny p) + 1)
                         (Etop p)) as [G' | G']; [| eauto].
    unfold Etop, Etiny, Emax, Emin in *. lia.
  - destruct (Z.gtb_spec (Z.max (ndigits (coeff d) + exponent d - p) (Etiny p))
                         (Etop p)) as [G' | G']; [| eauto].
    unfold Etop, Etiny, Emax, Emin in *. lia.
Qed.

(** Rounding a positive decimal of moderate size returns a decimal of at most
    [p] digits within the unit roundoff of it. *)
Lemma fix_close (p : Z) (d : t) :
  (1 <= p)%Z -> (0 < coeff d)%Z ->
  p10 (-999000) <= val d -> val d <= p10 999000 ->
  exists r, fix_at p d = Ok r /\
            close (unit_roundoff p) (val d) (val r) /\
            (0 < coeff r)%Z /\ (ndigits (coeff r) <= p)%Z.
Proof.
  intros Hp Hc Hlo Hhi.
  pose proof (adjusted_range d _ _ Hc Hlo Hhi) as (Alo & Ahi).
  destruct (fix_ok p d Hp Hc) as (r & Hr); [unfold Emax; lia |].
  exists r. split; [assumption |].
  assert (Hnorm : (Etiny p <= adjusted d - p + 1)%Z)
    by (unfold Etiny, Emin; lia).
  destruct (fix_val p d r Hp Hc Hnorm Hr) as (Herr & _ & _ & Rc & Rn).
  split; [| split; assumption].
  destruct (val_bounds d Hc) as (Blo & _).
  apply close_of_abs.
  - pose proof (unit_roundoff_half p Hp). lra.
  - apply Qlt_le_weak, val_pos. assumption.
  - eapply Qle_trans; [exact Herr |].
    replace (adjusted d - p + 1)%Z with ((1 - p) + adjusted d)%Z by lia.
    rewrite p10_add. unfold unit_roundoff.
    rewrite <- Qmult_assoc.
    apply Qmult_le_l; [reflexivity |].
    apply Qmult_le_l; [apply p10_pos | assumption].
Qed.

End FixClose.

(** ** The context operations as relative errors *)

Module OpFacts.
Import Decimal ValFacts FixVal CloseFacts FixClose SignFacts.
Local Open Scope Q_scope.

Lemma val_pos_inv (d : t) : 0 < val d -> (0 < coeff d)%Z.
Proof.
  intros H. destruct (Z.lt_trichotomy 0 (coeff d)) as [| [E | N]]; [assumption | |].
  - exfalso. unfold val in H. rewrite <- E in H. rewrite Qmult_0_l in H.
    apply (Qlt_irrefl 0). assumption.
  - exfalso. assert (H0 : 0 <= val d) by lra. apply val_sign in H0. lia.
Qed.

Lemma close_eq (e x x' y y' : Q) :
  x == x' -> y == y' -> close e x y -> close e x' y'.
Proof. unfold close. intros -> ->. tauto. Qed.

Lemma mul_close (p : Z) (a b : t) :
  (1 <= p)%Z -> 0 < val a -> 0 < val b ->
  p10 (-999000) <= val a * val b -> val a * val b <= p10 999000 ->
  exists r, mul_at p a b = Ok r /\
            close (unit_roundoff p) (val a * val b) (val r) /\
            (0 < coeff r)%Z /\ (ndigits (coeff r) <= p)%Z.
Proof.
  intros Hp Ha Hb Hlo Hhi. unfold mul_at.
  set (d := Dec (coeff a * coeff b) (exponent a + exponent b)).
  assert (Hd : val d == val a * val b) by apply mul_exact_val.
  destruct (fix_close p d Hp) as (r & Hr & Hcl & Hc & Hn).
  - apply val_pos_inv. rewrite Hd. apply Qmult_lt_0_compat; assumption.
  - rewrite Hd. assumption.
  - rewrite Hd. assumption.
  - exists r. repeat split; try assumption;
      destruct Hcl as (C1 & C2); rewrite <- Hd; assumption.
Qed.

Lemma add_close (p : Z) (a b : t) :
  (1 <= p)%Z -> 0 < val a + val b ->
  p10 (-999000) <= val a + val b -> val a + val b <= p10 999000 ->
  exists r, add_at p a b = Ok r /\
            close (unit_roundoff p) (val a + val b) (val r) /\
            (0 < coeff r)%Z /\ (ndigits (coeff r) <= p)%Z.
Proof.
  intros Hp Hpos Hlo Hhi. unfold add_at.
  assert (Hd : val (add_exact a b) == val a + val b) by apply add_exact_val.
  destruct (fix_close p (add_exact a b) Hp) as (r & Hr & Hcl & Hc & Hn).
  - apply val_pos_inv. rewrite Hd. assumption.
  - rewrite Hd. assumption.
  - rewrite Hd. assumption.
  - exists r. repeat split; try assumption;
      destruct Hcl as (C1 & C2); rewrite <- Hd; assumption.
Qed.

Lemma sub_close (p : Z) (a b : t) :
  (1 <= p)%Z -> 0 < val a - val b ->
  p10 (-999000) <= val a - val b -> val a - val b <= p10 999000 ->
  exists r, sub_at p a b = Ok r /\
            close (unit_roundoff p) (val a - val b) (val r) /\
            (0 < coeff r)%Z /\ (ndigits (coeff r) <= p)%Z.
Proof.
  intros Hp Hpos Hlo Hhi. unfold sub_at.
  assert (Hd : val (add_exact a (neg b)) == val a - val b).
  { rewrite add_exact_val, neg_val. ring. }
  destruct (fix_close p (add_exact a (neg b)) Hp) as (r & Hr & Hcl & Hc & Hn).
  - apply val_pos_inv. rewrite Hd. assumption.
  - rewrite Hd. assumption.
  - rewrite Hd. assumption.
  - exists r. repeat split; try assumption;
      destruct Hcl as (C1 & C2); rewrite <- Hd; assumption.
Qed.

Lemma strip_zeros_val (fuel : nat) :
  forall c e ideal : Z,
    inject_Z (fst (strip_zeros fuel c e ideal)) *
    p10 (snd (strip_zeros fuel c e ideal)) == inject_Z c * p10 e.
Proof.
  induction fuel as [| fuel IH]; intros c e ideal; simpl; [reflexivity |].
  destruct (Z.ltb_spec e ideal) as [L | L]; simpl; [| reflexivity].
  destruct (Z.eqb_spec (c mod 10) 0) as [M | M]; simpl; [| reflexivity].
  rewrite IH, p10_add.
  assert (Hc : c = (10 * (c / 10))%Z)
    by (pose proof (Z.div_mod c 10 ltac:(lia)); lia).
  rewrite Hc at 2. rewrite inject_Z_mult.
  change (p10 1) with (inject_Z 10). ring.
Qed.

Lemma strip_zeros_pos (fuel : nat) :
  forall c e ideal : Z, (0 < c)%Z -> (0 < fst (strip_zeros fuel c e ideal))%Z.
Proof.
  induction fuel as [| fuel IH]; intros c e ideal Hc; simpl; [assumption |].
  destruct (Z.ltb_spec e ideal) as [L | L]; simpl; [| assumption].
  destruct (Z.eqb_spec (c mod 10) 0) as [M | M]; simpl; [| assumption].
  apply IH. pose proof (Z.div_mod c 10 ltac:(lia)). lia.
Qed.

(** A quotient with remainder brackets the exact quotient. *)
Lemma quot_sandwich (x m q r u : Q) :
  0 < m -> 0 < u -> 0 <= r -> r < m -> x * m == (m * q + r) * u ->
  q * u <= x /\ x < (q + 1) * u.
Proof.
  intros Hm Hu Hr Hrm E. split.
  - destruct (Qlt_le_dec x (q * u)) as [N | N]; [exfalso | assumption].
    assert (0 < (q * u - x) * m) by (apply Qmult_lt_0_compat; lra).
    assert (0 <= r * u) by (apply Qmult_le_0_compat; lra). lra.
  - destruct (Qlt_le_dec x ((q + 1) * u)) as [N | N]; [assumption | exfalso].
    assert (0 <= (x - (q + 1) * u) * m) by (apply Qmult_le_0_compat; lra).
    assert (0 < (m - r) * u) by (apply Qmult_lt_0_compat; lra). lra.
Qed.

(** [Decimal.__truediv__]: the quotient is within twice the unit roundoff of
    the exact one. *)
Lemma div_close (p : Z) (a b : t) :
  (1 <= p)%Z -> (0 < coeff a)%Z -> (0 < coeff b)%Z ->
  (ndigits (coeff a) <= p)%Z ->
  p10 (-990000) <= val a / val b -> val a / val b <= p10 990000 ->
  exists q, div_at p a b = Ok q /\
            close (2 * unit_roundoff p) (val a / val b) (val q) /\
            (0 < coeff q)%Z /\ (ndigits (coeff q) <= p)%Z.
Proof.
  intros Hp Ha Hb Hna Hlo Hhi.
  set (x := val a / val b) in *.
  pose proof (val_pos a Ha) as Va. pose proof (val_pos b Hb) as Vb.
  assert (Hx : 0 < x).
  { unfold x. apply Qlt_shift_div_l; [assumption |]. lra. }
  pose proof (unit_roundoff_half p Hp) as Uh.
  pose proof (unit_roundoff_pos p) as Up.
  (* the value before the final rounding *)
  assert (Hpre : exists q1 e1 : Z,
             div_at p a b = fix_at p (Dec q1 e1) /\ (0 < q1)%Z /\
             Qabs (inject_Z q1 * p10 e1 - x) <= p10 (- p) * x).
  { unfold div_at.
    destruct (Z.eqb_spec (coeff b) 0); [lia |].
    destruct (Z.eqb_spec (coeff a) 0); [lia |].
    rewrite (Z.abs_eq (coeff a)), (Z.abs_eq (coeff b)), !Z.sgn_pos by lia.
    pose proof (RoundFacts.ndigits_pos (coeff b)) as Hnb.
    pose proof (RoundFacts.ndigits_pos (coeff a)) as Hna1.
    pose proof (DigitFacts.ndigits_spec (coeff a) ltac:(lia)) as (Alo & _).
    pose proof (DigitFacts.ndigits_spec (coeff b) ltac:(lia)) as (_ & Bhi).
    rewrite Z.abs_eq in Alo, Bhi by lia.
    set (s := (ndigits (coeff b) - ndigits (coeff a) + p + 1)%Z).
    assert (Hs : (0 <= s)%Z) by (unfold s; lia).
    destruct (Z.leb_spec 0 s) as [_ |]; [| lia].
    set (e := (exponent a - exponent b - s)%Z).
    pose proof (Z_div_mod (coeff a * 10 ^ s) (coeff b) ltac:(lia)) as DM.
    destruct (Z.div_eucl (coeff a * 10 ^ s) (coeff b)) as [q0 r0].
    destruct DM as (DM & Rlo & Rhi).
    assert (Hq0 : (10 ^ p <= q0)%Z).
    { assert (P1 : (10 ^ (ndigits (coeff a) - 1) * 10 ^ s <= coeff a * 10 ^ s)%Z).
      { apply Z.mul_le_mono_nonneg_r; [apply Z.pow_nonneg; lia | assumption]. }
      rewrite <- Z.pow_add_r in P1 by lia.
      replace (ndigits (coeff a) - 1 + s)%Z with (ndigits (coeff b) + p)%Z
        in P1 by (unfold s; lia).
      rewrite Z.pow_add_r in P1 by lia.
      assert (P2 : (0 < 10 ^ p)%Z) by (apply Z.pow_pos_nonneg; lia).
      assert (P3 : (coeff b * 10 ^ p < 10 ^ ndigits (coeff b) * 10 ^ p)%Z)
        by (apply Z.mul_lt_mono_pos_r; assumption).
      assert (P4 : (coeff b * 10 ^ p < coeff b * (q0 + 1))%Z) by lia.
      apply Z.mul_lt_mono_pos_l in P4; lia. }
    assert (P2 : (0 < 10 ^ p)%Z) by (apply Z.pow_pos_nonneg; lia).
    (* the exact quotient in units of 10^e *)
    assert (Ex : x * inject_Z (coeff b) ==
                 (inject_Z (coeff b) * inject_Z q0 + inject_Z r0) * p10 e).
    { rewrite <- inject_Z_mult, <- inject_Z_plus, <- DM.
      rewrite inject_Z_mult, <- (p10_Z s Hs).
      unfold x, val.
      replace (exponent a) with (s + e + exponent b)%Z at 1 by (unfold e; lia).
      rewrite !p10_add. field. split; [apply p10_nonzero |].
      intros F. assert (0 < inject_Z (coeff b)) by (apply inject_lt; assumption).
      lra. }
    assert (Mpos : 0 < inject_Z (coeff b)) by (apply (inject_lt 0); assumption).
    assert (R0 : 0 <= inject_Z r0) by (apply (inject_le 0); assumption).
    assert (R1 : inject_Z r0 < inject_Z (coeff b)) by (apply inject_lt; assumption).
    pose proof (quot_sandwich _ _ _ _ _ Mpos (p10_pos e) R0 R1 Ex) as (Slo & Shi).
    assert (Q0 : inject_Z (10 ^ p) <= inject_Z q0) by (apply inject_le; assumption).
    rewrite <- (p10_Z p) in Q0 by lia.
    assert (Unit : p10 e <= p10 (- p) * x).
    { apply Qle_trans with (p10 (- p) * (inject_Z q0 * p10 e)).
      - apply Qle_trans with (p10 (- p) * (p10 p * p10 e)).
        + rewrite Qmult_assoc, <- p10_add.
          replace (- p + p)%Z with 0%Z by lia. rewrite p10_0. lra.
        + apply Qmult_le_l; [apply p10_pos |].
          apply Qmult_le_compat_r; [assumption | apply Qlt_le_weak, p10_pos].
      - apply Qmult_le_l; [apply p10_pos | assumption]. }
    destruct (Z.eqb_spec r0 0) as [Hr0 | Hr0].
    - set (sz := strip_zeros (Z.to_nat (exponent a - exponent b - e)) q0 e
                             (exponent a - exponent b)).
      pose proof (strip_zeros_val (Z.to_nat (exponent a - exponent b - e)) q0 e
                                  (exponent a - exponent b)) as SV.
      pose proof (strip_zeros_pos (Z.to_nat (exponent a - exponent b - e)) q0 e
                                  (exponent a - exponent b) ltac:(lia)) as SP.
      fold sz in SV, SP. destruct sz as [q1 e1]. simpl in SV, SP.
      exists q1, e1. split; [f_equal; f_equal; lia |]. split; [assumption |].
      rewrite SV. subst r0.
      assert (Xe : x == inject_Z q0 * p10 e).
      { apply (Qmult_inj_r _ _ (inject_Z (coeff b))); [lra |].
        rewrite Ex. change (inject_Z 0) with 0. ring. }
      rewrite Xe.
      setoid_replace (inject_Z q0 * p10 e - inject_Z q0 * p10 e) with 0
        using relation Qeq by ring.
      simpl. rewrite <- Xe.
      apply Qmult_le_0_compat; [apply Qlt_le_weak, p10_pos | lra].
    - pose proof (p10_pos e) as Te.
      destruct (Z.eqb_spec (q0 mod 5) 0) as [H5 | H5].
      + exists (q0 + 1)%Z, e. split; [f_equal; f_equal; lia |]. split; [lia |].
        rewrite inject_Z_plus. change (inject_Z 1) with 1.
        apply Qabs_Qle_condition. split; lra.
      + exists q0, e. split; [f_equal; f_equal; lia |]. split; [lia |].
        apply Qabs_Qle_condition. split; lra. }
  destruct Hpre as (q1 & e1 & Hdiv & Hq1 & Herr).
  assert (P10 : p10 (- p) <= 1 # 10).
  { assert (p10 (- p) <= p10 (-1)) by (apply p10_le; lia).
    change (p10 (-1)) with (1 # 10) in H. assumption. }
  assert (P10' : unit_roundoff p == 5 * p10 (- p)).
  { unfold unit_roundoff. replace (1 - p)%Z with (1 + - p)%Z by lia.
    rewrite p10_add. change (p10 1) with (10 # 1). ring. }
  pose proof (p10_pos (- p)) as Pp.
  assert (Hcl1 : close (p10 (- p)) x (val (Dec q1 e1))).
  { apply close_of_abs; [lra | lra | exact Herr]. }
  assert (V1 : 0 < val (Dec q1 e1)) by (apply val_pos; assumption).
  destruct Hcl1 as (C1 & C2).
  assert (Xp : 0 <= x * p10 (- p)) by (apply Qmult_le_0_compat; lra).
  assert (Vp : 0 <= val (Dec q1 e1) * p10 (- p)) by (apply Qmult_le_0_compat; lra).
  assert (Xt : x * p10 (- p) <= x * (1 # 10)) by (apply Qmult_le_l; assumption).
  assert (Vt : val (Dec q1 e1) * p10 (- p) <= val (Dec q1 e1) * (1 # 10))
    by (apply Qmult_le_l; assumption).
  pose proof (p10_pos 990000) as Big.
  destruct (fix_close p (Dec q1 e1) Hp Hq1) as (q & Hq & Hcl & Hc & Hn).
  - apply Qle_trans with (p10 (-1) * p10 (-990000)).
    + rewrite <- p10_add. apply p10_le. lia.
    + change (p10 (-1)) with (1 # 10).
      assert (0 <= p10 (-990000)) by apply Qlt_le_weak, p10_pos. lra.
  - apply Qle_trans with (p10 1 * p10 990000).
    + change (p10 1) with (10 # 1). lra.
    + rewrite <- p10_add. apply p10_le. lia.
  - exists q. rewrite Hdiv. split; [assumption |]. split; [| split; assumption].
    apply close_weaken with (e := p10 (- p) + unit_roundoff p).
    + lra.
    + lra.
    + apply Qlt_le_weak, val_pos. assumption.
    + apply close_trans with (y := val (Dec q1 e1)); try lra.
      * apply Qlt_le_weak, val_pos. assumption.
      * split; assumption.
      * assumption.
Qed.

End OpFacts.

(** ** The integer power *)

Module PowFacts.
Import Decimal ValFacts FixVal CloseFacts FixClose SignFacts OpFacts.
Local Open Scope Q_scope.

Lemma qpow_xO (x : Q) (m : positive) :
  x ^ Zpos (xO m) == x ^ Zpos m * x ^ Zpos m.
Proof. rewrite <- Pos.add_diag. simpl. apply Qpower_plus_positive. Qed.

Lemma qpow_xI (x : Q) (m : positive) :
  x ^ Zpos (xI m) == x ^ Zpos m * x ^ Zpos m * x.
Proof.
  replace (xI m) with (xO m + 1)%positive by (rewrite Pos.add_1_r; reflexivity).
  change (x ^ Zpos (xO m + 1)) with (Qpower_positive x (xO m + 1)).
  rewrite Qpower_plus_positive.
  change (Qpower_positive x (xO m)) with (x ^ Zpos (xO m)).
  rewrite qpow_xO. simpl. reflexivity.
Qed.

Lemma p10_small : p10 (-999000) <= 1 # 10.
Proof.
  apply Qle_trans with (p10 (-1)); [apply p10_le; lia | apply Qle_refl].
Qed.

Lemma p10_large (k : Z) : (k < 999000)%Z -> 10 * p10 k <= p10 999000.
Proof.
  intros H. change (10 # 1) with (p10 1). rewrite <- p10_add.
  apply p10_le. lia.
Qed.

(** Upper and lower bounds from a relative error of at most one half. *)
Lemma close_bounds (e x y : Q) :
  0 <= e -> e <= 1 # 2 -> 0 <= x -> 0 <= y -> close e x y ->
  x * (1 # 2) <= y /\ y <= 2 * x.
Proof.
  unfold close. intros A B Hx Hy (H1 & H2).
  assert (0 <= x * ((1 # 2) - e)) by (apply Qmult_le_0_compat; lra).
  assert (0 <= y * ((1 # 2) - e)) by (apply Qmult_le_0_compat; lra).
  split; lra.
Qed.

(** [pow_uint] for a base of at least one: [n - 1] roundings at the working
    precision. *)
Lemma pow_uint_close (w : Z) (base : t) :
  (1 <= w)%Z -> 1 <= val base ->
  forall n : positive,
    inject_Z (Zpos n - 1) * unit_roundoff w <= 1 # 2 ->
    val base ^ Zpos n <= p10 400000 ->
    exists r, pow_uint w base n = Ok r /\
              close (inject_Z (Zpos n - 1) * unit_roundoff w)
                    (val base ^ Zpos n) (val r) /\
              (0 < coeff r)%Z.
Proof.
  intros Hw Hb.
  pose proof (unit_roundoff_pos w) as Up.
  pose proof (unit_roundoff_half w Hw) as Uh.
  set (u := unit_roundoff w) in *. set (x := val base) in *.
  assert (Hstep : forall m : positive,
    inject_Z (2 * (Zpos m - 1) + 1) * u <= 1 # 2 ->
    x ^ Zpos m * x ^ Zpos m <= p10 400000 ->
    (exists r, pow_uint w base m = Ok r /\
               close (inject_Z (Zpos m - 1) * u) (x ^ Zpos m) (val r) /\
               (0 < coeff r)%Z) ->
    exists r s, pow_uint w base m = Ok r /\ (0 < coeff r)%Z /\
                mul_at w r r = Ok s /\
                close (inject_Z (2 * (Zpos m - 1) + 1) * u)
                      (x ^ Zpos m * x ^ Zpos m) (val s) /\
                (0 < coeff s)%Z).
  { intros m He Hx (r & Hr & Hcl & Hc).
    pose proof (Qpower_1_le_pos x m Hb) as X1.
    set (X := x ^ Zpos m) in *.
    rewrite inject_Z_plus, inject_Z_mult in He.
    change (inject_Z 2) with 2 in He. change (inject_Z 1) with 1 in He.
    assert (E0 : 0 <= inject_Z (Zpos m - 1)) by (apply (inject_le 0); lia).
    set (k := inject_Z (Zpos m - 1)) in *.
    assert (Ek : 0 <= k * u) by (apply Qmult_le_0_compat; lra).
    pose proof (val_pos r Hc) as Vr.
    destruct (close_bounds (k * u) X (val r)) as (Rlo & Rhi);
      [lra | lra | lra | lra | exact Hcl |].
    assert (RR1 : (1 # 2) * (1 # 2) <= val r * val r).
    { apply Qle_trans with ((1 # 2) * val r).
      - apply Qmult_le_l; lra.
      - apply Qmult_le_compat_r; lra. }
    assert (RR2 : val r * val r <= (2 * X) * (2 * X)).
    { apply Qle_trans with (2 * X * val r).
      - apply Qmult_le_compat_r; lra.
      - apply Qmult_le_l; lra. }
    pose proof p10_small as Ps. pose proof (p10_large 400000 ltac:(lia)) as Pl.
    destruct (mul_close w r r Hw Vr Vr) as (s & Hs & Hcls & Hcs & _); [lra | lra |].
    exists r, s.
    split; [exact Hr |]. split; [exact Hc |]. split; [exact Hs |].
    split; [| exact Hcs].
    apply close_weaken with (e := k * u + k * u + u).
    - rewrite inject_Z_plus, inject_Z_mult.
      change (inject_Z 2) with 2. change (inject_Z 1) with 1. fold k. lra.
    - apply Qmult_le_0_compat; lra.
    - apply Qlt_le_weak, val_pos; exact Hcs.
    - apply close_trans with (y := val r * val r).
      + lra.
      + lra.
      + lra.
      + lra.
      + apply Qmult_le_0_compat; lra.
      + apply Qlt_le_weak, val_pos; exact Hcs.
      + apply close_mul; try lra; exact Hcl.
      + exact Hcls. }
  induction n as [m IH | m IH |]; intros He Hx.
  - (* 2m + 1 *)
    rewrite qpow_xI in Hx.
    pose proof (Qpower_1_le_pos x m Hb) as X1.
    assert (XX : 1 <= x ^ Zpos m * x ^ Zpos m).
    { apply Qle_trans with (1 * x ^ Zpos m); [lra |].
      apply Qmult_le_compat_r; lra. }
    assert (XXx : x ^ Zpos m * x ^ Zpos m <= x ^ Zpos m * x ^ Zpos m * x).
    { apply Qle_trans with (x ^ Zpos m * x ^ Zpos m * 1); [lra |].
      apply Qmult_le_l; lra. }
    replace (Zpos (xI m) - 1)%Z with (2 * (Zpos m - 1) + 1 + 1)%Z in He |- * by lia.
    rewrite (inject_Z_plus _ 1) in He |- *. change (inject_Z 1) with 1 in He |- *.
    assert (E1 : 0 <= inject_Z (2 * (Zpos m - 1) + 1)) by (apply (inject_le 0); lia).
    assert (E2 : inject_Z (Zpos m - 1) <= inject_Z (2 * (Zpos m - 1) + 1))
      by (apply inject_le; lia).
    assert (E3 : 0 <= inject_Z (Zpos m - 1)) by (apply (inject_le 0); lia).
    set (k2 := inject_Z (2 * (Zpos m - 1) + 1)) in *.
    assert (Ek : 0 <= k2 * u) by (apply Qmult_le_0_compat; lra).
    assert (Ekm : inject_Z (Zpos m - 1) * u <= k2 * u)
      by (apply Qmult_le_compat_r; lra).
    destruct (Hstep m) as (r & s & Hr & Hc & Hs & Hcl & Hcs); [fold k2; lra | lra | |].
    { apply IH; [lra |]. apply Qle_trans with (x ^ Zpos m * x ^ Zpos m); [| lra].
      apply Qle_trans with (1 * x ^ Zpos m); [lra |].
      apply Qmult_le_compat_r; lra. }
    pose proof (val_pos s Hcs) as Vs.
    fold k2 in Hcl.
    destruct (close_bounds (k2 * u) (x ^ Zpos m * x ^ Zpos m) (val s))
      as (Slo & Shi); [lra | lra | lra | lra | exact Hcl |].
    assert (Vb : 0 < x) by lra.
    assert (SB1 : (1 # 2) * 1 <= val s * x).
    { apply Qle_trans with ((1 # 2) * x); [lra |].
      apply Qmult_le_compat_r; lra. }
    assert (SB2 : val s * x <= 2 * (x ^ Zpos m * x ^ Zpos m * x)).
    { setoid_replace (2 * (x ^ Zpos m * x ^ Zpos m * x))
        with (2 * (x ^ Zpos m * x ^ Zpos m) * x) using relation Qeq by ring.
      apply Qmult_le_compat_r; lra. }
    pose proof p10_small as Ps. pose proof (p10_large 400000 ltac:(lia)) as Pl.
    destruct (mul_close w s base Hw Vs Vb) as (v & Hv & Hclv & Hcv & _);
      [fold x; lra | fold x; lra |].
    exists v. split; [| split; [| exact Hcv]].
    + simpl. rewrite Hr. simpl.
      destruct (Z.eqb_spec (coeff r) 0); [lia |].
      rewrite Hs. simpl. exact Hv.
    + apply (close_eq _ (x ^ Zpos m * x ^ Zpos m * x) _ (val v) (val v));
        [symmetry; apply qpow_xI | reflexivity |].
      apply close_weaken with (e := k2 * u + 0 + u); [lra | lra | | ].
      * apply Qlt_le_weak, val_pos; exact Hcv.
      * apply close_trans with (y := val s * x).
        -- lra.
        -- lra.
        -- lra.
        -- lra.
        -- lra.
        -- apply Qlt_le_weak, val_pos; exact Hcv.
        -- apply close_mul; try lra; [exact Hcl | apply close_refl; lra].
        -- exact Hclv.
  - (* 2m *)
    rewrite qpow_xO in Hx.
    pose proof (Qpower_1_le_pos x m Hb) as X1.
    replace (Zpos (xO m) - 1)%Z with (2 * (Zpos m - 1) + 1)%Z in He |- * by lia.
    assert (E1 : 0 <= inject_Z (2 * (Zpos m - 1) + 1)) by (apply (inject_le 0); lia).
    assert (E2 : inject_Z (Zpos m - 1) <= inject_Z (2 * (Zpos m - 1) + 1))
      by (apply inject_le; lia).
    assert (Ekm : inject_Z (Zpos m - 1) * u <= inject_Z (2 * (Zpos m - 1) + 1) * u)
      by (apply Qmult_le_compat_r; lra).
    destruct (Hstep m) as (r & s & Hr & Hc & Hs & Hcl & Hcs); [lra | lra | |].
    { apply IH; [lra |].
      apply Qle_trans with (x ^ Zpos m * x ^ Zpos m); [| lra].
      apply Qle_trans with (1 * x ^ Zpos m); [lra |].
      apply Qmult_le_compat_r; lra. }
    exists s. split; [| split; [| exact Hcs]].
    + simpl. rewrite Hr. simpl.
      destruct (Z.eqb_spec (coeff r) 0); [lia |]. exact Hs.
    + apply (close_eq _ (x ^ Zpos m * x ^ Zpos m) _ (val s) (val s));
        [symmetry; apply qpow_xO | reflexivity | exact Hcl].
  - (* 1 *)
    exists base. split; [reflexivity |]. split.
    + simpl. change (inject_Z (1 - 1)) with 0.
      apply close_weaken with (e := 0); [lra | | | apply close_refl]; fold x; lra.
    + apply val_pos_inv. fold x. lra.
Qed.

End PowFacts.

(** * Further properties of the code *)

(** ** Strings *)

Module StrFacts.
Import PyStr.

Lemma eqb_eq (a b : t) : eqb a b = true <-> a = b.
Proof.
  revert b. induction a as [| x a IH]; intros [| y b]; simpl;
    try (split; [discriminate | intros H; discriminate]); [tauto |].
  rewrite andb_true_iff, N.eqb_eq, IH. split.
  - intros (-> & ->). reflexivity.
  - intros H. inversion H. auto.
Qed.

Lemma contains_In (l : list t) (x : t) : contains l x = true <-> In x l.
Proof.
  unfold contains. rewrite existsb_exists. split.
  - intros (y & Hy & E). apply eqb_eq in E. subst. assumption.
  - intros H. exists x. split; [assumption | now apply eqb_eq].
Qed.

Lemma startswith_app (s p : t) :
  startswith s p = true <-> exists r, s = p ++ r.
Proof.
  revert s. induction p as [| a p IH]; intros s; simpl.
  - split; [eauto | intros _; destruct s; reflexivity].
  - destruct s as [| b s]; simpl.
    + split; [discriminate | intros (r & H); discriminate].
    + rewrite andb_true_iff, N.eqb_eq, IH. split.
      * intros (-> & r & ->). eauto.
      * intros (r & H). inversion H. eauto.
Qed.

(** [lstrip] drops a run of white space and stops at the first other
    character. *)
Lemma lstrip_spec (s : t) :
  exists w, s = w ++ lstrip s /\ forallb isspace w = true /\
            match lstrip s with c :: _ => isspace c = false | [] => True end.
Proof.
  induction s as [| c s (w & E & W & H)]; simpl.
  - exists []. auto.
  - destruct (isspace c) eqn:C.
    + exists (c :: w). simpl. rewrite C, W. split; [congruence | auto].
    + exists []. simpl. rewrite C. auto.
Qed.

Lemma lstrip_id (s : t) :
  match s with c :: _ => isspace c = false | [] => True end -> lstrip s = s.
Proof. destruct s as [| c s]; simpl; [reflexivity |]. now intros ->. Qed.

Lemma In_lstrip (s : t) (c : N) : In c (lstrip s) -> In c s.
Proof.
  destruct (lstrip_spec s) as (w & E & _). intros H. rewrite E.
  apply in_or_app. now right.
Qed.

Lemma In_rstrip (s : t) (c : N) : In c (rstrip s) -> In c s.
Proof.
  unfold rstrip. intros H. apply in_rev in H. apply In_lstrip in H.
  now apply in_rev.
Qed.

Lemma In_strip (s : t) (c : N) : In c (strip s) -> In c s.
Proof. unfold strip. intros H. now apply In_lstrip, In_rstrip. Qed.

Lemma rstrip_spec (s : t) :
  exists w, s = rstrip s ++ w /\ forallb isspace w = true /\
            forall c r, rstrip s = r ++ [c] -> isspace c = false.
Proof.
  unfold rstrip. destruct (lstrip_spec (rev s)) as (w & E & W & H).
  exists (rev w). split; [| split].
  - rewrite <- rev_app_distr, <- E. symmetry. apply rev_involutive.
  - rewrite forallb_forall in W |- *. intros x Hx. apply W. now apply in_rev.
  - intros c r Hr.
    assert (E' : lstrip (rev s) = c :: rev r).
    { rewrite <- (rev_involutive (lstrip (rev s))), Hr, rev_app_distr.
      reflexivity. }
    rewrite E' in H. assumption.
Qed.

Lemma strip_ends (s : t) :
  (forall c r, strip s = c :: r -> isspace c = false) /\
  (forall c r, strip s = r ++ [c] -> isspace c = false).
Proof.
  unfold strip. destruct (rstrip_spec (lstrip s)) as (w & E & W & H).
  split; [| exact H].
  intros c r Hr. pose proof (lstrip_spec s) as (_ & _ & _ & L).
  rewrite E, Hr in L. simpl in L. assumption.
Qed.

Lemma strip_id (k : t) :
  (forall c r, k = c :: r -> isspace c = false) ->
  (forall c r, k = r ++ [c] -> isspace c = false) ->
  strip k = k.
Proof.
  intros Hh Hl. unfold strip.
  rewrite (lstrip_id k) by (destruct k; [exact I | eapply Hh; reflexivity]).
  unfold rstrip. rewrite lstrip_id; [apply rev_involutive |].
  destruct (rev k) as [| c r] eqn:E; [exact I |].
  apply (Hl c (rev r)). rewrite <- (rev_involutive k), E. reflexivity.
Qed.

Lemma split_nonempty (sep : N) (s : t) : split sep s <> [].
Proof.
  induction s as [| c s IH]; simpl; [discriminate |].
  destruct (c =? sep)%N; [discriminate |].
  destruct (split sep s); [congruence | discriminate].
Qed.

Lemma split_no_sep (sep : N) (s k : t) : In k (split sep s) -> ~ In sep k.
Proof.
  revert k. induction s as [| c s IH]; intros k; simpl.
  - intros [<- | []]. auto.
  - destruct (N.eqb_spec c sep) as [-> | Hc].
    + intros [<- | H]; [auto | now apply IH].
    + pose proof (split_nonempty sep s) as Hne.
      destruct (split sep s) as [| h tl]; [congruence |].
      intros [<- | H].
      * intros [E | E]; [congruence |]. apply (IH h); [now left | assumption].
      * apply IH. now right.
Qed.

Lemma split_piece (sep : N) (a r : t) :
  ~ In sep a -> split sep (a ++ sep :: r) = a :: split sep r.
Proof.
  induction a as [| c a IH]; intros Ha; simpl.
  - now rewrite N.eqb_refl.
  - destruct (N.eqb_spec c sep) as [-> | Hc]; [exfalso; apply Ha; now left |].
    rewrite IH; [reflexivity |]. intros H. apply Ha. now right.
Qed.

Lemma split_whole (sep : N) (a : t) : ~ In sep a -> split sep a = [a].
Proof.
  induction a as [| c a IH]; intros Ha; simpl; [reflexivity |].
  destruct (N.eqb_spec c sep) as [-> | Hc]; [exfalso; apply Ha; now left |].
  rewrite IH; [reflexivity |]. intros H. apply Ha. now right.
Qed.

Lemma split_join (sep : N) (ks : list t) :
  ks <> [] -> Forall (fun k => ~ In sep k) ks -> split sep (join [sep] ks) = ks.
Proof.
  induction ks as [| x ks IH]; intros Hne Hall; [congruence |].
  inversion Hall as [| ? ? Hx Hks]; subst.
  destruct ks as [| y ks].
  - simpl. now apply split_whole.
  - change (join [sep] (x :: y :: ks)) with (x ++ sep :: join [sep] (y :: ks)).
    rewrite split_piece by assumption. f_equal. apply IH; [discriminate | assumption].
Qed.

End StrFacts.

(** ** The configured keys *)

(** Whatever the environment holds, every key of [API_KEYS] is clean: not
    empty, without a comma, without white space at its ends. *)
Theorem api_keys_are_clean :
  forall (environ : option PyStr.t) (k : PyStr.t),
    In k (API_KEYS environ) -> clean_key k.
Proof.
  intros environ k. unfold API_KEYS.
  set (value := match environ with Some v => v | None => [] end).
  rewrite in_map_iff. intros (seg & <- & Hseg).
  apply filter_In in Hseg. destruct Hseg as (Hin & Hne).
  pose proof (StrFacts.strip_ends seg) as (Hh & Hl).
  repeat split.
  - intros E. rewrite E in Hne. discriminate.
  - intros Hc. apply StrFacts.In_strip in Hc.
    exact (StrFacts.split_no_sep COMMA value seg Hin Hc).
  - exact Hh.
  - exact Hl.
Qed.

Lemma api_keys_are_clean_witness :
  clean_key (PyStr.of_string "k1").
Proof.
  apply (api_keys_are_clean (Some (PyStr.of_string " k1 ,, k2"))).
  vm_compute. left. reflexivity.
Defined.

Lemma clean_keyb_ok (k : PyStr.t) : clean_keyb k = true -> clean_key k.
Proof.
  unfold clean_keyb, clean_key. destruct k as [| c k]; [discriminate |].
  rewrite !andb_true_iff, !negb_true_iff. intros ((Hh & Hl) & Hc).
  split; [discriminate |]. split; [| split].
  - intros Hin.
    assert (E : existsb (N.eqb COMMA) (c :: k) = true).
    { apply existsb_exists. exists COMMA. split; [exact Hin | apply N.eqb_refl]. }
    congruence.
  - intros c' r E. inversion E. subst. exact Hh.
  - intros c' r E. rewrite E, List.last_last in Hl. exact Hl.
Qed.

Lemma clean_keys_kept (l : list PyStr.t) :
  Forall clean_key l ->
  map PyStr.strip
      (List.filter (fun k => match PyStr.strip k with [] => false | _ => true end) l)
  = l.
Proof.
  induction l as [| k l IH]; intros Hall; [reflexivity |].
  inversion Hall as [| ? ? (Hne & _ & Hh & Hl) Hrest]; subst.
  simpl. rewrite (StrFacts.strip_id k Hh Hl).
  destruct k as [| c k]; [congruence |].
  simpl. rewrite (StrFacts.strip_id (c :: k) Hh Hl). f_equal. now apply IH.
Qed.

(** Writing clean keys with commas between them and reading the variable
    back gives the same keys, in the same order. *)
Theorem api_keys_round_trip :
  forall ks : list PyStr.t,
    Forall clean_key ks ->
    API_KEYS (Some (PyStr.join [COMMA] ks)) = ks.
Proof.
  intros ks Hall. unfold API_KEYS.
  destruct ks as [| x ks]; [reflexivity |].
  rewrite StrFacts.split_join.
  - now apply clean_keys_kept.
  - discriminate.
  - rewrite Forall_forall in Hall |- *. intros k Hk.
    destruct (Hall k Hk) as (_ & Hc & _). exact Hc.
Qed.

Lemma api_keys_round_trip_witness :
  API_KEYS (Some (PyStr.of_string "test-api-key-123,another-key-456")) =
  [PyStr.of_string "test-api-key-123"; PyStr.of_string "another-key-456"].
Proof.
  apply (api_keys_round_trip
           [PyStr.of_string "test-api-key-123"; PyStr.of_string "another-key-456"]).
  repeat constructor; apply clean_keyb_ok; reflexivity.
Defined.

(** ** The API-key gate *)

Lemma exempt_paths_spec (p : PyStr.t) :
  existsb (PyStr.startswith p) APIKeyMiddleware.EXEMPT_PATHS =
  PyStr.startswith p (PyStr.of_string "/health/") ||
  PyStr.startswith p (PyStr.of_string "/health") ||
  PyStr.startswith p (PyStr.of_string "/admin/").
Proof.
  unfold APIKeyMiddleware.EXEMPT_PATHS. simpl.
  rewrite orb_false_r, orb_assoc. reflexivity.
Qed.

Lemma health_slash (p : PyStr.t) :
  PyStr.startswith p (PyStr.of_string "/health/") = true ->
  PyStr.startswith p (PyStr.of_string "/health") = true.
Proof.
  rewrite !StrFacts.startswith_app. intros (r & ->).
  exists (47%N :: r). reflexivity.
Qed.

(** [APIKeyMiddleware.__call__] hands a request on exactly when its path
    starts with [/health] or [/admin/], when no key is configured, or when
    the header carries one of the configured keys; otherwise it answers 401
    for a missing or empty header and 403 for a key that is not configured. *)
Theorem api_key_gate :
  forall (keys : list PyStr.t) (rq : APIKeyMiddleware.HttpRequest),
    (APIKeyMiddleware.call keys rq = APIKeyMiddleware.get_response <->
       (exists rest, APIKeyMiddleware.path rq = PyStr.of_string "/health" ++ rest) \/
       (exists rest, APIKeyMiddleware.path rq = PyStr.of_string "/admin/" ++ rest) \/
       keys = [] \/
       (exists k, APIKeyMiddleware.HTTP_X_API_KEY rq = Some k /\ k <> [] /\ In k keys)) /\
    (forall (status : Z) (detail : string),
       APIKeyMiddleware.call keys rq = APIKeyMiddleware.JsonResponse status detail ->
       (status = 401 /\
        detail = "Authentication required. Provide X-API-KEY header."%string /\
        (APIKeyMiddleware.HTTP_X_API_KEY rq = None \/
         APIKeyMiddleware.HTTP_X_API_KEY rq = Some [])) \/
       (status = 403 /\ detail = "Invalid API key."%string /\
        exists k, APIKeyMiddleware.HTTP_X_API_KEY rq = Some k /\ k <> [] /\
                  ~ In k keys)).
Proof.
  intros keys [p hdr]. unfold APIKeyMiddleware.call.
  cbn [APIKeyMiddleware.path APIKeyMiddleware.HTTP_X_API_KEY].
  rewrite exempt_paths_spec.
  pose proof (health_slash p) as Hsub.
  destruct (PyStr.startswith p (PyStr.of_string "/health/")) eqn:E1.
  { specialize (Hsub eq_refl). rewrite Hsub.
    apply StrFacts.startswith_app in Hsub.
    cbn [orb]. split; [tauto | discriminate]. }
  clear Hsub.
  destruct (PyStr.startswith p (PyStr.of_string "/health")) eqn:E2.
  { apply StrFacts.startswith_app in E2. cbn [orb].
    split; [tauto | discriminate]. }
  destruct (PyStr.startswith p (PyStr.of_string "/admin/")) eqn:E3.
  { apply StrFacts.startswith_app in E3. cbn [orb].
    split; [tauto | discriminate]. }
  cbn [orb].
  assert (N2 : ~ exists rest, p = PyStr.of_string "/health" ++ rest).
  { intros H. apply StrFacts.startswith_app in H. congruence. }
  assert (N3 : ~ exists rest, p = PyStr.of_string "/admin/" ++ rest).
  { intros H. apply StrFacts.startswith_app in H. congruence. }
  destruct keys as [| k0 keys]; [split; [tauto | discriminate] |].
  set (ks := k0 :: keys).
  destruct hdr as [[| c k] |].
  - split.
    + split; [discriminate |].
      intros [H | [H | [H | (k & Hk & Hne & _)]]];
        [tauto | tauto | discriminate | inversion Hk; congruence].
    + intros status detail H. inversion H. left. auto.
  - destruct (PyStr.contains ks (c :: k)) eqn:Hin; cbn [negb].
    + apply StrFacts.contains_In in Hin. split; [| discriminate].
      split; [| reflexivity]. intros _. right. right. right.
      exists (c :: k). split; [reflexivity |]. split; [discriminate | exact Hin].
    + assert (Hnin : ~ In (c :: k) ks).
      { intros H. apply StrFacts.contains_In in H. congruence. }
      split.
      * split; [discriminate |].
        intros [H | [H | [H | (k' & Hk & _ & Hk')]]];
          [tauto | tauto | discriminate | inversion Hk; subst; exfalso; exact (Hnin Hk')].
      * intros status detail H. inversion H. right.
        split; [reflexivity |]. split; [reflexivity |].
        exists (c :: k). split; [reflexivity |]. split; [discriminate | exact Hnin].
  - split.
    + split; [discriminate |].
      intros [H | [H | [H | (k & Hk & _)]]];
        [tauto | tauto | discriminate | discriminate].
    + intros status detail H. inversion H. left. auto.
Qed.

(** With the keys read from the environment: a variable that is unset, or
    holds only commas and white space, switches the gate off; otherwise a
    request outside the exempt paths passes only with a header equal to one
    of the comma-separated entries after stripping, hence never with a key
    that is empty or has white space at an end. *)
Theorem gate_with_environment :
  forall (environ : option PyStr.t) (rq : APIKeyMiddleware.HttpRequest),
    let value := match environ with Some v => v | None => [] end in
    ((forall seg, In seg (PyStr.split COMMA value) -> PyStr.strip seg = []) ->
     APIKeyMiddleware.call (API_KEYS environ) rq = APIKeyMiddleware.get_response) /\
    (PyStr.startswith (APIKeyMiddleware.path rq) (PyStr.of_string "/health") = false ->
     PyStr.startswith (APIKeyMiddleware.path rq) (PyStr.of_string "/admin/") = false ->
     API_KEYS environ <> [] ->
     APIKeyMiddleware.call (API_KEYS environ) rq = APIKeyMiddleware.get_response ->
     exists k seg,
       APIKeyMiddleware.HTTP_X_API_KEY rq = Some k /\ clean_key k /\
       In seg (PyStr.split COMMA value) /\ PyStr.strip seg = k).
Proof.
  intros environ [p hdr] value. split.
  - intros Hall.
    assert (E : API_KEYS environ = []).
    { unfold API_KEYS. fold value.
      induction (PyStr.split COMMA value) as [| seg l IH]; [reflexivity |].
      simpl. rewrite (Hall seg) by (now left). apply IH.
      intros s Hs. apply Hall. now right. }
    rewrite E. unfold APIKeyMiddleware.call.
    destruct (existsb _ _); reflexivity.
  - cbn [APIKeyMiddleware.path APIKeyMiddleware.HTTP_X_API_KEY].
    intros H2 H3 Hne Hcall.
    unfold APIKeyMiddleware.call in Hcall.
    cbn [APIKeyMiddleware.path APIKeyMiddleware.HTTP_X_API_KEY] in Hcall.
    rewrite exempt_paths_spec in Hcall.
    assert (H1 : PyStr.startswith p (PyStr.of_string "/health/") = false).
    { destruct (PyStr.startswith p (PyStr.of_string "/health/")) eqn:E; [| reflexivity].
      apply health_slash in E. congruence. }
    rewrite H1, H2, H3 in Hcall. cbn [orb] in Hcall.
    destruct (API_KEYS environ) as [| k0 ks] eqn:EK; [congruence |].
    destruct hdr as [[| c k] |]; try discriminate.
    destruct (PyStr.contains (k0 :: ks) (c :: k)) eqn:Hin; [| discriminate].
    apply StrFacts.contains_In in Hin. rewrite <- EK in Hin.
    assert (Hin' := Hin).
    unfold API_KEYS in Hin'. fold value in Hin'.
    apply in_map_iff in Hin'. destruct Hin' as (seg & Hseg & Hf).
    apply filter_In in Hf. destruct Hf as (Hf & _).
    exists (c :: k), seg. split; [reflexivity |]. split; [| split; assumption].
    pose proof (StrFacts.strip_ends seg) as (Hh & Hl). rewrite Hseg in Hh, Hl.
    repeat split.
    + discriminate.
    + intros Hc. rewrite <- Hseg in Hc. apply StrFacts.In_strip in Hc.
      exact (StrFacts.split_no_sep COMMA value seg Hf Hc).
    + exact Hh.
    + exact Hl.
Qed.

Lemma gate_with_environment_witness :
  APIKeyMiddleware.call (API_KEYS (Some (PyStr.of_string " , ,")))
    (APIKeyMiddleware.mkHttpRequest (PyStr.of_string "/api/register") None)
  = APIKeyMiddleware.get_response /\
  exists k seg,
    Some (PyStr.of_string "test-api-key-123") = Some k /\ clean_key k /\
    In seg (PyStr.split COMMA (PyStr.of_string " test-api-key-123 ,another-key-456")) /\
    PyStr.strip seg = k.
Proof.
  split.
  - apply (gate_with_environment (Some (PyStr.of_string " , ,"))
             (APIKeyMiddleware.mkHttpRequest (PyStr.of_string "/api/register") None)).
    intros seg Hseg. vm_compute in Hseg.
    destruct Hseg as [<- | [<- | [<- | []]]]; reflexivity.
  - apply (gate_with_environment
             (Some (PyStr.of_string " test-api-key-123 ,another-key-456"))
             (APIKeyMiddleware.mkHttpRequest (PyStr.of_string "/api/register")
                (Some (PyStr.of_string "test-api-key-123"))));
      [reflexivity | reflexivity | vm_compute; discriminate | reflexivity].
Defined.

(** ** Reading back what [create_loan] wrote *)

Module QueryFacts.
Import LoanService LoanQueries.






End QueryFacts.







(** ** Customers above their limit *)

(** Factor v of the score, seen from the caller: a customer whose active
    loans add up to more than the approved limit has score 0, so
    [EligibilityService.check] never approves, whatever is requested. *)
Theorem over_limit_customer_never_approved :
  forall (db : DB) (today : date) (c : Customer) (amount rate : Decimal)
         (months : Z) (e : Eligibility),
    0 <= approved_limit c ->
    Decimal.gtb (or_zero (Sum_decimal loan_amount (active (loans_of db c))))
                (Decimal.of_int (approved_limit c)) = true ->
    EligibilityService.check db today c amount rate months = Ok e ->
    CreditScoreService.calculate db today c = Ok 0 /\ approval e = false.
Proof.
  intros db today c amount rate months e Hlim Hover Hchk.
  assert (Hs : CreditScoreService.calculate db today c = Ok 0).
  { unfold CreditScoreService.calculate.
    destruct (loans_of db c) as [| l ls] eqn:El.
    - exfalso. simpl in Hover. unfold Decimal.gtb, Decimal.ltb, Decimal.compare in Hover.
      simpl in Hover. rewrite Z.mul_1_r in Hover.
      change (0 * 10 ^ (0 - Z.min 0 0)) with 0 in Hover.
      destruct (Z.compare_spec (approved_limit c) 0); try discriminate; lia.
    - rewrite Hover. reflexivity. }
  split; [exact Hs |].
  apply EligibilityFacts.check_inv in Hchk.
  destruct Hchk as (s & Hs' & _ & _ & _ & H).
  rewrite Hs in Hs'. inversion Hs'; subst s.
  destruct H as [(_ & _ & H & _) | (_ & lim & emi & _ & _ & H)]; [exact H |].
  destruct H as [(_ & _ & H & _) | (_ & _ & _ & H)]; [exact H |].
  destruct H as [(_ & H) | (H & _)]; [exact H |].
  vm_compute in H. discriminate.
Qed.

Lemma over_limit_customer_never_approved_witness :
  CreditScoreService.calculate
    (mkDB {[ 1 := Sample.customer ]}
          [mkLoan 1 1 (Sample.d 400000000) 60 (Sample.d 1000) (Sample.d 100000) 5
                  (Date 2023 1 1) (Date 2028 1 1) true] 1)
    Sample.today Sample.customer = Ok 0.
Proof.
  refine (proj1 (over_limit_customer_never_approved _ Sample.today Sample.customer
                   (Sample.d 10000000) (Sample.d 1000) 12
                   (mkEligibility 1 false (Sample.d 1000) (Sample.d 1000) 12
                                  (Sample.d 879159)) _ _ _)).
  - vm_compute. discriminate.
  - vm_compute. reflexivity.
  - vm_compute. reflexivity.
Defined.

(** ** The installment is an amount *)

Module EmiSign.
Import Decimal ValFacts FixVal SignFacts OpFacts.
Local Open Scope Q_scope.

Lemma rescale_nonneg (mode : rounding) (d : t) (e : Z) :
  (0 <= coeff d)%Z -> (0 <= coeff (rescale mode d e))%Z.
Proof.
  intros Hd. unfold rescale.
  destruct (coeff d =? 0)%Z; [simpl; lia |].
  destruct (Z.leb_spec e (exponent d)); simpl.
  - apply Z.mul_nonneg_nonneg; [assumption | apply Z.pow_nonneg; lia].
  - apply Z.mul_nonneg_nonneg; [apply Z.sgn_nonneg; assumption |].
    apply DivRoundFacts.div_round_nonneg; lia.
Qed.

Lemma mul_nonneg (p : Z) (a b r : t) :
  (0 <= coeff a)%Z -> (0 <= coeff b)%Z -> mul_at p a b = Ok r -> (0 <= coeff r)%Z.
Proof.
  intros Ha Hb H. unfold mul_at in H.
  apply (fix_nonneg p _ _) in H; [assumption |]. simpl.
  apply Z.mul_nonneg_nonneg; assumption.
Qed.

Lemma mul_ge_one (p : Z) (a b r : t) :
  (1 <= p)%Z -> 1 <= val a -> 1 <= val b -> mul_at p a b = Ok r -> 1 <= val r.
Proof.
  intros Hp Ha Hb H. unfold mul_at in H.
  apply (fix_ge_one p _ _ Hp) in H; [tauto |].
  rewrite mul_exact_val.
  apply Qle_trans with (1 * val b); [lra |].
  apply Qmult_le_compat_r; lra.
Qed.

(** A power of a base of at least one is at least one. *)
Lemma pow_uint_ge_one (w : Z) (base : t) :
  (1 <= w)%Z -> 1 <= val base ->
  forall (n : positive) (r : t), pow_uint w base n = Ok r -> 1 <= val r.
Proof.
  intros Hw Hb. induction n as [m IH | m IH |]; intros r H; simpl in H.
  - inv_bind H. specialize (IH _ Hv).
    destruct (Z.eqb_spec (coeff v) 0) as [E |].
    { exfalso. unfold val in IH. rewrite E in IH. rewrite Qmult_0_l in IH.
      apply (Qle_not_lt _ _ IH). reflexivity. }
    inv_bind H.
    apply (mul_ge_one w v0 base r Hw); [| exact Hb | exact H].
    apply (mul_ge_one w v v v0 Hw); [exact IH | exact IH | exact Hv0].
  - inv_bind H. specialize (IH _ Hv).
    destruct (Z.eqb_spec (coeff v) 0) as [E |].
    { exfalso. unfold val in IH. rewrite E in IH. rewrite Qmult_0_l in IH.
      apply (Qle_not_lt _ _ IH). reflexivity. }
    apply (mul_ge_one w v v r Hw); [exact IH | exact IH | exact H].
  - inversion H; subst. exact Hb.
Qed.

Lemma pow_ge_one (p : Z) (base r : t) (n : positive) :
  (1 <= p)%Z -> 1 <= val base -> pow_at p base n = Ok r -> 1 <= val r.
Proof.
  intros Hp Hb H. unfold pow_at in H.
  assert (Hc : (0 < coeff base)%Z) by (apply val_pos_inv; lra).
  destruct (Z.eqb_spec (coeff base) 0); [lia |].
  destruct ((exponent base <=? 0)%Z && _) eqn:B.
  - apply andb_true_iff in B. destruct B as (B1 & _). apply Z.leb_le in B1.
    inversion H; subst. unfold val. cbn [coeff exponent].
    rewrite Z.sgn_pos by assumption.
    set (shift := Z.min (Z.pos n * - exponent base) (p - 1)).
    assert (Hs : (0 <= shift)%Z) by (unfold shift; nia).
    match goal with
    | |- context [if ?b then 1%Z else 1%Z] =>
        replace (if b then 1%Z else 1%Z) with 1%Z by (destruct b; reflexivity)
    end.
    rewrite Z.mul_1_l.
    rewrite <- (p10_Z shift Hs), <- p10_add.
    replace (shift + - shift)%Z with 0%Z by lia. rewrite p10_0. apply Qle_refl.
  - inv_bind H.
    pose proof (RoundFacts.ndigits_pos (Z.pos n)).
    apply (pow_uint_ge_one (p + ndigits (Z.pos n) + 2) base ltac:(lia) Hb) in Hv.
    apply (fix_ge_one p _ _ Hp) in H; tauto.
Qed.

Lemma div_nonneg_ok (p : Z) (a b q : t) :
  (0 <= coeff a)%Z -> (0 <= coeff b)%Z -> div_at p a b = Ok q -> (0 <= coeff q)%Z.
Proof.
  intros Ha Hb H.
  destruct (Z.eq_dec (coeff b) 0%Z) as [E | E].
  - unfold div_at in H. rewrite E in H. simpl in H.
    destruct (coeff a =? 0)%Z; discriminate.
  - apply (div_nonneg p a b q Ha); [lia | exact H].
Qed.

Lemma sub_one_nonneg (p : Z) (a r : t) :
  1 <= val a -> sub_at p a (of_int 1) = Ok r -> (0 <= coeff r)%Z.
Proof.
  intros Ha H. unfold sub_at in H.
  apply (fix_nonneg p _ _) in H; [exact H |].
  apply val_sign. rewrite add_exact_val, neg_val, val_of_int.
  change (inject_Z 1) with 1. lra.
Qed.

Lemma add_one_ge_one (p : Z) (a r : t) :
  (1 <= p)%Z -> (0 <= coeff a)%Z -> add_at p (of_int 1) a = Ok r -> 1 <= val r.
Proof.
  intros Hp Ha H. unfold add_at in H.
  apply (fix_ge_one p _ _ Hp) in H; [tauto |].
  rewrite add_exact_val, val_of_int. apply val_sign in Ha.
  change (inject_Z 1) with 1. lra.
Qed.

(** What [calculate_emi] returns, when it returns: the guards held, and the
    value is a non-negative amount with two decimals. *)
Lemma returned_emi (P rate : t) (months : Z) (v : t) :
  calculate_emi P rate months = Ok v ->
  (1 <= months)%Z /\ 0 < val P /\ 0 <= val rate /\
  exponent v = (-2)%Z /\ (0 <= coeff v)%Z.
Proof.
  intros H. apply EmiFacts.calculate_emi_inv in H.
  destruct H as (n & -> & HP & HR & H).
  apply leb_false_val in HP. rewrite val_of_int in HP.
  change (inject_Z 0) with 0 in HP.
  assert (HR' : 0 <= val rate).
  { destruct (Qlt_le_dec (val rate) 0) as [N | N]; [| exact N].
    exfalso. assert (E : ltb rate (of_int 0) = true).
    { apply ltb_val. rewrite val_of_int. exact N. }
    congruence. }
  assert (Pc : (0 <= coeff P)%Z) by (apply val_sign; lra).
  assert (Rc : (0 <= coeff rate)%Z) by (apply val_sign; exact HR').
  assert (Hp : (1 <= prec)%Z) by (unfold prec; lia).
  split; [lia |]. split; [exact HP |]. split; [exact HR' |].
  assert (Hq : exists q, (0 <= coeff q)%Z /\ quantize ROUND_HALF_UP q (-2) = Ok v).
  { destruct H as [(_ & q & Hd & Hq) | (_ & r & o & pw & t1 & t2 & t3 & q & H)].
    - exists q. split; [| exact Hq].
      apply (div_nonneg_ok prec P (of_int (Z.pos n)) q Pc); [simpl; lia | exact Hd].
    - destruct H as (Hr & Ho & Hpw & Ht1 & Ht2 & Ht3 & Hd & Hq).
      exists q. split; [| exact Hq].
      assert (Cr : (0 <= coeff r)%Z)
        by (apply (div_nonneg_ok prec rate (of_int 1200) r Rc); [simpl; lia | exact Hr]).
      assert (Vo : 1 <= val o) by (apply (add_one_ge_one prec r o Hp Cr); exact Ho).
      assert (Vpw : 1 <= val pw) by (apply (pow_ge_one prec o pw n Hp Vo); exact Hpw).
      assert (Cpw : (0 <= coeff pw)%Z) by (apply val_sign; lra).
      assert (C1 : (0 <= coeff t1)%Z) by (apply (mul_nonneg prec P r t1 Pc Cr); exact Ht1).
      assert (C2 : (0 <= coeff t2)%Z) by (apply (mul_nonneg prec t1 pw t2 C1 Cpw); exact Ht2).
      assert (C3 : (0 <= coeff t3)%Z) by (apply (sub_one_nonneg prec pw t3 Vpw); exact Ht3).
      apply (div_nonneg_ok prec t2 t3 q C2 C3). exact Hd. }
  destruct Hq as (q & Cq & Hq).
  apply (EmiFacts.quantize_rescale prec) in Hq; [| exact Hp]. subst v.
  split; [apply EmiFacts.rescale_exponent | apply rescale_nonneg; exact Cq].
Qed.

End EmiSign.

(** Whenever [calculate_emi] returns, the principal was positive, the rate
    not negative and the tenure at least one month, and the installment is an
    amount with exactly two decimals that is not negative. *)
Theorem emi_is_an_amount :
  forall (principal annual_rate : Decimal) (tenure_months : Z) (emi : Decimal),
    calculate_emi principal annual_rate tenure_months = Ok emi ->
    Decimal.exponent emi = -2 /\ 0 <= Decimal.coeff emi /\
    1 <= tenure_months /\
    Decimal.gtb principal (Decimal.of_int 0) = true /\
    Decimal.geb annual_rate (Decimal.of_int 0) = true.
Proof.
  intros P rate months v H.
  pose proof (EmiSign.returned_emi P rate months v H) as (Hm & HP & HR & He & Hc).
  apply EmiFacts.calculate_emi_inv in H. destruct H as (n & _ & HP' & HR' & _).
  repeat split; try assumption.
  - unfold Decimal.gtb. unfold Decimal.leb in HP'. unfold Decimal.ltb.
    rewrite DecimalFacts.compare_antisym.
    destruct (Decimal.compare P (Decimal.of_int 0)); simpl in *; congruence.
  - unfold Decimal.geb, Decimal.leb. unfold Decimal.ltb in HR'.
    rewrite DecimalFacts.compare_antisym.
    destruct (Decimal.compare rate (Decimal.of_int 0)); simpl in *; congruence.
Qed.

Lemma emi_is_an_amount_witness :
  Decimal.exponent (Sample.d 2424332) = -2 /\ 0 <= Decimal.coeff (Sample.d 2424332).
Proof.
  destruct (emi_is_an_amount (Decimal.Dec 500000 0) (Decimal.Dec 15 0) 24
              (Sample.d 2424332)) as (He & Hc & _).
  - vm_compute. reflexivity.
  - split; assumption.
Defined.

(** ** Relative errors through the annuity formula *)

Module ErrFacts.
Import CloseFacts.
Local Open Scope Q_scope.

Lemma qpow_succ (x : Q) (n : positive) :
  x ^ Zpos (Pos.succ n) == x * x ^ Zpos n.
Proof.
  rewrite <- Pos.add_1_l.
  change (x ^ Zpos (1 + n)) with (Qpower_positive x (1 + n)).
  rewrite Qpower_plus_positive. reflexivity.
Qed.

Lemma inject_succ (n : positive) :
  inject_Z (Zpos (Pos.succ n)) == inject_Z (Zpos n) + 1.
Proof. rewrite Pos2Z.inj_succ. unfold Z.succ. rewrite inject_Z_plus. reflexivity. Qed.

Lemma inject_pos (n : positive) : 1 <= inject_Z (Zpos n).
Proof. change 1 with (inject_Z 1). rewrite <- Zle_Qle. lia. Qed.

Lemma qpow_nonneg (x : Q) (n : positive) : 0 <= x -> 0 <= x ^ Zpos n.
Proof. intros H. apply Qpower_0_le. exact H. Qed.

(** Bernoulli's inequality. *)
Lemma bernoulli (r : Q) (n : positive) :
  0 <= r -> 1 + inject_Z (Zpos n) * r <= (1 + r) ^ Zpos n.
Proof.
  intros Hr. induction n as [| n IH] using Pos.peano_ind.
  - simpl. change (inject_Z 1) with 1. lra.
  - rewrite qpow_succ, inject_succ.
    set (k := inject_Z (Zpos n)) in *. set (X := (1 + r) ^ Zpos n) in *.
    pose proof (inject_pos n) as Hk. fold k in Hk.
    assert (H1 : (1 + r) * (1 + k * r) <= (1 + r) * X)
      by (apply Qmult_le_l; lra).
    assert (H2 : 0 <= k * r * r)
      by (repeat apply Qmult_le_0_compat; lra).
    lra.
Qed.

(** The power is monotone in its base. *)
Lemma qpow_le (a b : Q) (n : positive) :
  0 <= a -> a <= b -> a ^ Zpos n <= b ^ Zpos n.
Proof.
  intros Ha Hab. induction n as [| n IH] using Pos.peano_ind.
  - simpl. exact Hab.
  - rewrite !qpow_succ.
    pose proof (qpow_nonneg a n Ha) as Pa.
    apply Qle_trans with (a * b ^ Zpos n).
    + rewrite !(Qmult_comm a). apply Qmult_le_compat_r; assumption.
    + apply Qmult_le_compat_r; [assumption | lra].
Qed.

Lemma close_pow (e a b : Q) (n : positive) :
  0 <= e -> inject_Z (Zpos n) * e <= 1 -> 0 <= a -> 0 <= b ->
  close e a b -> close (inject_Z (Zpos n) * e) (a ^ Zpos n) (b ^ Zpos n).
Proof.
  intros He Hne Ha Hb Hcl. induction n as [| n IH] using Pos.peano_ind.
  - simpl. apply (close_weaken e); try assumption.
    change (inject_Z 1) with 1. lra.
  - pose proof (inject_pos n) as Hk. pose proof (inject_succ n) as Hs.
    set (k := inject_Z (Zpos n)) in *.
    set (k' := inject_Z (Zpos (Pos.succ n))) in *.
    assert (Hke : 0 <= k * e) by (apply Qmult_le_0_compat; lra).
    assert (Hk'e : k' * e == k * e + e) by (rewrite Hs; ring).
    assert (IH' : close (k * e) (a ^ Zpos n) (b ^ Zpos n)) by (apply IH; lra).
    apply (OpFacts.close_eq (k' * e) (a * a ^ Zpos n) _ (b * b ^ Zpos n));
      [symmetry; apply qpow_succ | symmetry; apply qpow_succ |].
    apply (close_weaken (e + k * e)).
    + lra.
    + apply Qmult_le_0_compat; [assumption | apply qpow_nonneg; assumption].
    + apply Qmult_le_0_compat; [assumption | apply qpow_nonneg; assumption].
    + apply close_mul; try lra; try assumption; apply qpow_nonneg; assumption.
Qed.

Lemma close_add_one (e a b : Q) :
  0 <= e -> e <= 1 -> close e a b -> close e (1 + a) (1 + b).
Proof. unfold close. intros He He1 (H1 & H2). split; lra. Qed.

(** The cancellation in [(1+r)^n - 1]. *)
Lemma close_sub_one (e c x y : Q) :
  0 <= e -> e < 1 -> 0 <= c -> c <= 1 -> 1 < x -> 1 <= y ->
  e * x <= c * (x - 1) -> close e x y -> close c (x - 1) (y - 1).
Proof.
  unfold close. intros He He1 Hc Hc1 Hx Hy Hec (H1 & H2). split.
  - lra.
  - assert (A : (y - 1) * (1 - e) <= x - 1 + e) by lra.
    assert (B : (y - 1) * (1 - e) * (1 - c) <= (x - 1 + e) * (1 - c))
      by (apply Qmult_le_compat_r; lra).
    assert (C : 0 <= e * c) by (apply Qmult_le_0_compat; lra).
    assert (D : (y - 1) * (1 - c) * (1 - e) <= (x - 1) * (1 - e)) by lra.
    destruct (Qlt_le_dec (x - 1) ((y - 1) * (1 - c))) as [N | N]; [| exact N].
    exfalso.
    assert (0 < ((y - 1) * (1 - c) - (x - 1)) * (1 - e))
      by (apply Qmult_lt_0_compat; lra).
    lra.
Qed.

Lemma close_inv (e c d : Q) :
  0 < c -> 0 < d -> close e c d -> close e (/ c) (/ d).
Proof.
  unfold close. intros Hc Hd (H1 & H2).
  assert (Ic : 0 < / c) by (apply Qinv_lt_0_compat; assumption).
  assert (Id : 0 < / d) by (apply Qinv_lt_0_compat; assumption).
  assert (Ec : c * / c == 1) by (apply Qmult_inv_r; lra).
  assert (Ed : d * / d == 1) by (apply Qmult_inv_r; lra).
  split.
  - (* multiply d * (1 - e) <= c by (/ c) * (/ d) *)
    assert (A : d * (1 - e) * (/ c * / d) <= c * (/ c * / d)).
    { apply Qmult_le_compat_r; [assumption |].
      apply Qmult_le_0_compat; lra. }
    setoid_replace (d * (1 - e) * (/ c * / d)) with ((d * / d) * (/ c * (1 - e)))
      using relation Qeq in A by ring.
    setoid_replace (c * (/ c * / d)) with ((c * / c) * / d)
      using relation Qeq in A by ring.
    rewrite Ec, Ed in A. lra.
  - assert (A : c * (1 - e) * (/ c * / d) <= d * (/ c * / d)).
    { apply Qmult_le_compat_r; [assumption |].
      apply Qmult_le_0_compat; lra. }
    setoid_replace (c * (1 - e) * (/ c * / d)) with ((c * / c) * (/ d * (1 - e)))
      using relation Qeq in A by ring.
    setoid_replace (d * (/ c * / d)) with ((d * / d) * / c)
      using relation Qeq in A by ring.
    rewrite Ec, Ed in A. lra.
Qed.

Lemma close_div (e1 e2 a b c d : Q) :
  0 <= e1 -> 0 <= e2 -> e1 <= 1 -> e2 <= 1 ->
  0 <= a -> 0 <= b -> 0 < c -> 0 < d ->
  close e1 a b -> close e2 c d -> close (e1 + e2) (a / c) (b / d).
Proof.
  intros A1 A2 B1 B2 Ha Hb Hc Hd H1 H2. unfold Qdiv.
  apply close_mul; try assumption.
  - apply Qlt_le_weak, Qinv_lt_0_compat. assumption.
  - apply Qlt_le_weak, Qinv_lt_0_compat. assumption.
  - apply close_inv; assumption.
Qed.

End ErrFacts.

(** ** [Decimal.__pow__] as a relative error *)

Module PowClose.
Import Decimal ValFacts FixVal CloseFacts FixClose SignFacts OpFacts PowFacts.
Local Open Scope Q_scope.

Lemma p10_times10 (k : Z) : 10 * p10 k == p10 (k + 1).
Proof. rewrite p10_add. change (p10 1) with (10 # 1). ring. Qed.

(** Values between [10^-40] and [10^40] are far inside the exponent range. *)
Lemma moderate (x : Q) :
  p10 (-40) <= x -> x <= p10 40 ->
  (p10 (-999000) <= x /\ x <= p10 999000) /\
  (p10 (-990000) <= x /\ x <= p10 990000) /\
  x <= p10 400000.
Proof.
  intros Hlo Hhi.
  assert (A : p10 (-999000) <= p10 (-40)) by (apply p10_le; lia).
  assert (B : p10 (-990000) <= p10 (-40)) by (apply p10_le; lia).
  assert (C : p10 40 <= p10 400000) by (apply p10_le; lia).
  assert (D : p10 400000 <= p10 990000) by (apply p10_le; lia).
  assert (E : p10 990000 <= p10 999000) by (apply p10_le; lia).
  repeat split; lra.
Qed.

Lemma val_one (base : t) :
  (exponent base <= 0)%Z -> coeff base = (10 ^ (- exponent base))%Z ->
  val base == 1.
Proof.
  intros He Hc. unfold val. rewrite Hc, <- (p10_Z (- exponent base)) by lia.
  rewrite <- p10_add. replace (- exponent base + exponent base)%Z with 0%Z by lia.
  apply p10_0.
Qed.

Lemma qpow_one (n : positive) : 1 ^ Zpos n == 1.
Proof. apply Qpower_1. Qed.

(** [pow_at]: for a base of at least one and a power of moderate size the
    result is within [n] unit roundoffs of the exact power. *)
Lemma pow_close (p : Z) (base : t) (n : positive) :
  (1 <= p)%Z -> 1 <= val base ->
  inject_Z (Zpos n) * unit_roundoff p <= 1 # 2 ->
  val base ^ Zpos n <= p10 30 ->
  exists pw, pow_at p base n = Ok pw /\
             close (inject_Z (Zpos n) * unit_roundoff p)
                   (val base ^ Zpos n) (val pw) /\
             (0 < coeff pw)%Z.
Proof.
  intros Hp Hb He Hx.
  pose proof (unit_roundoff_pos p) as Up.
  pose proof (ErrFacts.inject_pos n) as Hn.
  pose proof (Qpower_1_le_pos (val base) n Hb) as X1.
  assert (Hc : (0 < coeff base)%Z) by (apply val_pos_inv; lra).
  assert (Hne : 0 <= inject_Z (Z.pos n) * unit_roundoff p)
    by (apply Qmult_le_0_compat; lra).
  unfold pow_at.
  destruct (Z.eqb_spec (coeff base) 0); [lia |].
  destruct ((exponent base <=? 0)%Z && _) eqn:B.
  - apply andb_true_iff in B. destruct B as (B1 & B2).
    apply Z.leb_le in B1. apply Z.eqb_eq in B2. rewrite Z.abs_eq in B2 by lia.
    pose proof (val_one base B1 B2) as V1.
    eexists. split; [reflexivity |].
    rewrite Z.sgn_pos by assumption.
    set (shift := Z.min (Z.pos n * - exponent base) (p - 1)).
    assert (Hs : (0 <= shift)%Z) by (unfold shift; nia).
    match goal with
    | |- context [if ?b then 1%Z else 1%Z] =>
        replace (if b then 1%Z else 1%Z) with 1%Z by (destruct b; reflexivity)
    end.
    rewrite Z.mul_1_l.
    assert (V : val (Dec (10 ^ shift) (- shift)) == 1).
    { apply val_one; simpl; [lia |]. f_equal. lia. }
    split.
    + apply (close_eq _ 1 _ 1 _).
      * rewrite V1. symmetry. apply qpow_one.
      * symmetry. exact V.
      * apply close_refl; lra.
    + simpl. apply Z.pow_pos_nonneg; lia.
  - set (w := (p + ndigits (Z.pos n) + 2)%Z).
    pose proof (RoundFacts.ndigits_pos (Z.pos n)) as Hnd.
    assert (Hw : (1 <= w)%Z) by (unfold w; lia).
    pose proof (unit_roundoff_le p w ltac:(unfold w; lia)) as Uw.
    pose proof (unit_roundoff_pos w) as Upw.
    assert (Hn1 : 0 <= inject_Z (Z.pos n - 1)) by (apply (inject_le 0); lia).
    assert (Hn2 : inject_Z (Z.pos n - 1) == inject_Z (Z.pos n) - 1).
    { unfold Z.sub. rewrite inject_Z_plus. reflexivity. }
    assert (Hk : inject_Z (Z.pos n - 1) * unit_roundoff w <=
                 inject_Z (Z.pos n - 1) * unit_roundoff p).
    { rewrite !(Qmult_comm (inject_Z (Z.pos n - 1))).
      apply Qmult_le_compat_r; [exact Uw | exact Hn1]. }
    assert (Hk2 : inject_Z (Z.pos n - 1) * unit_roundoff p + unit_roundoff p ==
                  inject_Z (Z.pos n) * unit_roundoff p) by (rewrite Hn2; ring).
    assert (Hkw : 0 <= inject_Z (Z.pos n - 1) * unit_roundoff w)
      by (apply Qmult_le_0_compat; lra).
    assert (P40 : p10 30 <= p10 40) by (apply p10_le; lia).
    assert (P31 : 2 * p10 30 <= p10 40).
    { apply Qle_trans with (p10 31); [| apply p10_le; lia].
      rewrite <- (p10_times10 30). pose proof (p10_pos 30). lra. }
    assert (Pm : p10 (-40) <= 1 # 2).
    { apply Qle_trans with (p10 (-1)); [apply p10_le; lia |].
      change (p10 (-1)) with (1 # 10). lra. }
    destruct (moderate (val base ^ Z.pos n)) as (_ & _ & M3); [lra | lra |].
    destruct (pow_uint_close w base Hw Hb n) as (r & Hr & Hcl & Hcr);
      [lra | exact M3 |].
    rewrite Hr. cbn [bind].
    pose proof (val_pos r Hcr) as Vr.
    destruct (close_bounds (inject_Z (Z.pos n - 1) * unit_roundoff w)
                (val base ^ Z.pos n) (val r)) as (Rlo & Rhi);
      [exact Hkw | lra | lra | lra | exact Hcl |].
    destruct (moderate (val r)) as ((M1 & M2) & _); [lra | lra |].
    destruct (fix_close p r Hp Hcr M1 M2) as (pw & Hpw & Hclp & Hcp & _).
    exists pw. split; [exact Hpw |]. split; [| exact Hcp].
    apply (close_weaken (inject_Z (Z.pos n - 1) * unit_roundoff w + unit_roundoff p)).
    + lra.
    + lra.
    + apply Qlt_le_weak, val_pos. exact Hcp.
    + apply (close_trans _ _ _ (val r)).
      * exact Hkw.
      * lra.
      * pose proof (unit_roundoff_half p Hp). lra.
      * lra.
      * lra.
      * apply Qlt_le_weak, val_pos. exact Hcp.
      * exact Hcl.
      * exact Hclp.
Qed.

End PowClose.

(** ** The annuity, step by step, on a request *)

Module EmiChain.
Import Decimal ValFacts FixVal CloseFacts FixClose SignFacts OpFacts PowFacts
       PowClose ErrFacts.
Local Open Scope Q_scope.

(** The unit roundoff of the context, [5E-28]. *)
Local Abbreviation u0 := (1 # 2000000000000000000000000000).

Lemma unit_roundoff_prec : unit_roundoff prec == u0.
Proof. reflexivity. Qed.

Lemma p10_m40 : p10 (-40) <= 1 # 10000000000000000000000000000000000000000.
Proof. apply Qle_refl. Qed.

Lemma p10_40 : 10000000000000000000000000000000000000000 # 1 <= p10 40.
Proof. apply Qle_refl. Qed.

(** Numeric bounds put a value inside the range of every operation. *)
Lemma in_range (x : Q) :
  1 # 100000000000000000000000000000000000000 <= x ->
  x <= 100000000000000000000000000000000000000 # 1 ->
  (p10 (-999000) <= x /\ x <= p10 999000) /\
  (p10 (-990000) <= x /\ x <= p10 990000).
Proof.
  intros Hlo Hhi. pose proof p10_m40. pose proof p10_40.
  destruct (moderate x) as (A & B & _); [lra | lra |]. split; [exact A | exact B].
Qed.

Lemma close_prec (k x y : Q) :
  close (k * unit_roundoff prec) x y -> close (k * u0) x y.
Proof. unfold close. rewrite unit_roundoff_prec. tauto. Qed.

(** The value of a decimal with two places. *)
Lemma val_cents (d : t) : exponent d = (-2)%Z -> val d == inject_Z (coeff d) * (1 # 100).
Proof. intros E. unfold val. rewrite E. reflexivity. Qed.

(** Step 1: the monthly rate. *)
Lemma monthly_rate (rate : t) :
  exponent rate = (-2)%Z -> (1 <= coeff rate <= 10000)%Z ->
  exists r, div rate (of_int 1200) = Ok r /\
            close (2 * u0) (val rate / 1200) (val r) /\
            (0 < coeff r)%Z /\
            1 # 120000 <= val rate / 1200 /\ val rate / 1200 <= 1 # 12.
Proof.
  intros He Hc.
  pose proof (val_cents rate He) as Vr.
  assert (C1 : 1 <= inject_Z (coeff rate)) by (apply (inject_le 1); lia).
  assert (C2 : inject_Z (coeff rate) <= 10000) by (apply (inject_le _ 10000); lia).
  assert (Hrho : val rate / 1200 == inject_Z (coeff rate) * (1 # 120000)).
  { rewrite Vr. field. }
  assert (B1 : 1 # 120000 <= val rate / 1200) by (rewrite Hrho; lra).
  assert (B2 : val rate / 1200 <= 1 # 12) by (rewrite Hrho; lra).
  assert (V12 : val (of_int 1200) == 1200) by apply val_of_int.
  destruct (in_range (val rate / 1200)) as (_ & R1 & R2); [lra | lra |].
  destruct (div_close prec rate (of_int 1200)) as (r & Hr & Hcl & Hcr & _).
  - unfold prec. lia.
  - lia.
  - simpl. lia.
  - apply RoundFacts.ndigits_le; [unfold prec; lia |]. unfold prec. lia.
  - rewrite V12. exact R1.
  - rewrite V12. exact R2.
  - exists r. split; [exact Hr |]. split; [| split; [exact Hcr | split; assumption]].
    apply (close_eq _ (val rate / val (of_int 1200)) _ (val r) (val r));
      [rewrite V12; reflexivity | reflexivity |].
    apply (close_prec 2). exact Hcl.
Qed.

(** Step 2: one plus the monthly rate. *)
Lemma one_plus (r : t) (rho : Q) :
  1 # 120000 <= rho -> rho <= 1 # 12 -> (0 < coeff r)%Z ->
  close (2 * u0) rho (val r) ->
  exists o, add (of_int 1) r = Ok o /\
            close (3 * u0) (1 + rho) (val o) /\ 1 <= val o.
Proof.
  intros B1 B2 Hc Hcl.
  pose proof (val_pos r Hc) as Vr.
  assert (V1 : val (of_int 1) == 1) by apply val_of_int.
  destruct (close_bounds (2 * u0) rho (val r)) as (Rlo & Rhi);
    [lra | lra | lra | lra | exact Hcl |].
  destruct (in_range (val (of_int 1) + val r)) as (R1 & _);
    [rewrite V1; lra | rewrite V1; lra |].
  destruct (add_close prec (of_int 1) r) as (o & Ho & Hclo & Hco & _).
  - unfold prec. lia.
  - rewrite V1. lra.
  - exact (proj1 R1).
  - exact (proj2 R1).
  - exists o. split; [exact Ho |].
    assert (Hcl3 : close (3 * u0) (1 + rho) (val o)).
    { apply (close_weaken (2 * u0 + 1 * u0)); [lra | lra | |].
      - apply Qlt_le_weak, val_pos. exact Hco.
      - apply (close_trans _ _ _ (1 + val r)); try lra.
        + apply Qlt_le_weak, val_pos. exact Hco.
        + apply close_add_one; [lra | lra | exact Hcl].
        + apply (close_prec 1).
          apply (close_eq _ (val (of_int 1) + val r) _ (val o) (val o));
            [rewrite V1; reflexivity | reflexivity |].
          apply (close_weaken (unit_roundoff prec)).
          * lra.
          * rewrite V1. lra.
          * apply Qlt_le_weak, val_pos. exact Hco.
          * exact Hclo. }
    split; [exact Hcl3 |].
    destruct Hcl3 as (H1 & _). lra.
Qed.

Lemma thirteen_twelfths : (13 # 12) ^ 360 <= 10000000000000 # 1.
Proof. apply Qle_bool_imp_le. vm_compute. reflexivity. Qed.

(** The exact power on a request: Bernoulli from below, [10^13] from
    above. *)
Lemma power_bounds (rho : Q) (n : positive) :
  0 <= rho -> rho <= 1 # 12 -> (Zpos n <= 360)%Z ->
  1 + inject_Z (Zpos n) * rho <= (1 + rho) ^ Zpos n /\
  (1 + rho) ^ Zpos n <= 10000000000000 # 1.
Proof.
  intros B1 B2 Hn. split; [apply bernoulli; exact B1 |].
  apply Qle_trans with ((13 # 12) ^ Zpos n).
  - apply qpow_le; lra.
  - apply Qle_trans with ((13 # 12) ^ 360); [| exact thirteen_twelfths].
    apply Qpower_le_compat_l; [exact Hn | lra].
Qed.

(** Step 3: the power term. *)
Lemma power_term (o : t) (rho : Q) (n : positive) :
  1 # 120000 <= rho -> rho <= 1 # 12 -> (Zpos n <= 360)%Z ->
  1 <= val o -> close (3 * u0) (1 + rho) (val o) ->
  exists pw, pow o n = Ok pw /\
             close (4 * inject_Z (Zpos n) * u0) ((1 + rho) ^ Zpos n) (val pw) /\
             (0 < coeff pw)%Z.
Proof.
  intros B1 B2 Hn Ho Hcl.
  destruct (power_bounds rho n) as (Xlo & Xhi); [lra | lra | exact Hn |].
  pose proof (inject_pos n) as N1.
  assert (N2 : inject_Z (Zpos n) <= 360) by (apply (inject_le _ 360); exact Hn).
  set (N := inject_Z (Zpos n)) in *.
  set (X := (1 + rho) ^ Zpos n) in *.
  assert (X1 : 1 <= X) by (apply Qpower_1_le_pos; lra).
  assert (Hclp : close (N * (3 * u0)) X (val o ^ Zpos n)).
  { apply close_pow; fold N; [lra | lra | lra | lra | exact Hcl]. }
  assert (Y0 : 0 <= val o ^ Zpos n) by (apply qpow_nonneg; lra).
  destruct (close_bounds (N * (3 * u0)) X (val o ^ Zpos n)) as (Ylo & Yhi);
    [lra | lra | lra | exact Y0 | exact Hclp |].
  assert (P30 : 1000000000000000000000000000000 # 1 <= p10 30) by apply Qle_refl.
  destruct (pow_close prec o n) as (pw & Hpw & Hclw & Hcw).
  - unfold prec. lia.
  - exact Ho.
  - rewrite unit_roundoff_prec. fold N. lra.
  - lra.
  - fold N in Hclw. exists pw. split; [exact Hpw |]. split; [| exact Hcw].
    apply (close_weaken (N * (3 * u0) + N * u0)); [lra | lra | |].
    + apply Qlt_le_weak, val_pos. exact Hcw.
    + apply (close_trans _ _ _ (val o ^ Zpos n)); try lra.
      * apply Qlt_le_weak, val_pos. exact Hcw.
      * exact Hclp.
      * apply close_prec. exact Hclw.
Qed.

(** Step 4: the denominator [(1+r)^n - 1], where digits cancel. *)
Lemma minus_one (pw : t) (X N : Q) :
  1 <= N -> N <= 360 ->
  1 + N * (1 # 120000) <= X -> X <= 10000000000000 # 1 ->
  (0 < coeff pw)%Z -> close (4 * N * u0) X (val pw) ->
  exists t3, sub pw (of_int 1) = Ok t3 /\
             close (481441 * u0) (X - 1) (val t3) /\ (0 < coeff t3)%Z.
Proof.
  intros N1 N2 Xlo Xhi Hc Hcl.
  pose proof (val_pos pw Hc) as Vp.
  assert (HNX : 0 <= (360 - N) * (X - 1)) by (apply Qmult_le_0_compat; lra).
  assert (V1 : val (of_int 1) == 1) by apply val_of_int.
  assert (Hy : 1 <= val pw) by (destruct Hcl as (H1 & _); lra).
  assert (Hsub : close (481440 * u0) (X - 1) (val pw - 1)).
  { apply (close_sub_one (4 * N * u0)); try lra. exact Hcl. }
  destruct (close_bounds (481440 * u0) (X - 1) (val pw - 1)) as (Dlo & Dhi);
    [lra | lra | lra | lra | exact Hsub |].
  destruct (in_range (val pw - val (of_int 1))) as (R1 & _);
    [rewrite V1; lra | rewrite V1; lra |].
  destruct (sub_close prec pw (of_int 1)) as (t3 & Ht & Hclt & Hct & _).
  - unfold prec. lia.
  - rewrite V1. lra.
  - exact (proj1 R1).
  - exact (proj2 R1).
  - exists t3. split; [exact Ht |]. split; [| exact Hct].
    apply (close_weaken (481440 * u0 + 1 * u0)); [lra | lra | |].
    + apply Qlt_le_weak, val_pos. exact Hct.
    + apply (close_trans _ _ _ (val pw - 1)); try lra.
      * apply Qlt_le_weak, val_pos. exact Hct.
      * exact Hsub.
      * apply (close_prec 1).
        apply (close_eq _ (val pw - val (of_int 1)) _ (val t3) (val t3));
          [rewrite V1; reflexivity | reflexivity |].
        apply (close_weaken (unit_roundoff prec)).
        -- lra.
        -- rewrite V1. lra.
        -- apply Qlt_le_weak, val_pos. exact Hct.
        -- exact Hclt.
Qed.

(** Bounds of a product from bounds of its factors. *)
Lemma prod_bounds (a b a0 a1 b0 b1 : Q) :
  0 <= a0 -> 0 <= b0 -> a0 <= a -> a <= a1 -> b0 <= b -> b <= b1 ->
  a0 * b0 <= a * b /\ a * b <= a1 * b1.
Proof.
  intros A0 B0 Ha0 Ha1 Hb0 Hb1. split.
  - apply Qle_trans with (a * b0).
    + apply Qmult_le_compat_r; assumption.
    + rewrite !(Qmult_comm a). apply Qmult_le_compat_r; lra.
  - apply Qle_trans with (a * b1).
    + rewrite !(Qmult_comm a). apply Qmult_le_compat_r; lra.
    + apply Qmult_le_compat_r; lra.
Qed.

(** Steps 5 and 6: the two products of the numerator. *)
Lemma numerator (P r pw : t) (rho X N : Q) :
  exponent P = (-2)%Z -> (1 <= coeff P < 10 ^ 15)%Z ->
  1 # 120000 <= rho -> rho <= 1 # 12 ->
  1 <= N -> N <= 360 -> 1 <= X -> X <= 10000000000000 # 1 ->
  (0 < coeff r)%Z -> close (2 * u0) rho (val r) ->
  (0 < coeff pw)%Z -> close (4 * N * u0) X (val pw) ->
  exists t1 t2,
    mul P r = Ok t1 /\ mul t1 pw = Ok t2 /\
    close (1444 * u0) (val P * rho * X) (val t2) /\
    (0 < coeff t2)%Z /\ (ndigits (coeff t2) <= prec)%Z.
Proof.
  intros He Hc B1 B2 N1 N2 X1 X2 Hcr Hclr Hcp Hclp.
  pose proof (val_cents P He) as VP.
  assert (C1 : 1 <= inject_Z (coeff P)) by (apply (inject_le 1); lia).
  assert (C2 : inject_Z (coeff P) <= 1000000000000000 # 1)
    by (apply (inject_le _ (10 ^ 15)); lia).
  assert (P1 : 1 # 100 <= val P) by (rewrite VP; lra).
  assert (P2 : val P <= 10000000000000 # 1) by (rewrite VP; lra).
  pose proof (val_pos r Hcr) as Vr. pose proof (val_pos pw Hcp) as Vpw.
  destruct (close_bounds (2 * u0) rho (val r)) as (Rlo & Rhi);
    [lra | lra | lra | lra | exact Hclr |].
  assert (Hclp' : close (1440 * u0) X (val pw)).
  { apply (close_weaken (4 * N * u0)); [lra | lra | lra | exact Hclp]. }
  destruct (close_bounds (1440 * u0) X (val pw)) as (Wlo & Whi);
    [lra | lra | lra | lra | exact Hclp' |].
  (* t1 *)
  destruct (prod_bounds (val P) (val r) (1 # 100) (10000000000000 # 1)
              (1 # 240000) (1 # 6)) as (T1lo & T1hi); try lra.
  destruct (in_range (val P * val r)) as (R1 & _); [lra | lra |].
  destruct (mul_close prec P r) as (t1 & Ht1 & Hcl1 & Hc1 & _);
    [unfold prec; lia | lra | lra | exact (proj1 R1) | exact (proj2 R1) |].
  pose proof (val_pos t1 Hc1) as Vt1.
  destruct (prod_bounds (val P) rho (1 # 100) (10000000000000 # 1)
              (1 # 120000) (1 # 12)) as (E1lo & E1hi); try lra.
  assert (Hcl1' : close (3 * u0) (val P * rho) (val t1)).
  { apply (close_weaken (0 + 2 * u0 + 1 * u0)); [lra | lra | lra |].
    apply (close_trans _ _ _ (val P * val r)); try lra.
    - apply close_mul; try lra; [apply close_refl; lra | exact Hclr].
    - apply (close_prec 1). apply (close_weaken (unit_roundoff prec)); try lra.
      exact Hcl1. }
  destruct (close_bounds (3 * u0) (val P * rho) (val t1)) as (T1lo' & T1hi');
    [lra | lra | lra | lra | exact Hcl1' |].
  (* t2 *)
  destruct (prod_bounds (val t1) (val pw) (1 # 24000000) (2000000000000 # 1)
              (1 # 2) (20000000000000 # 1)) as (T2lo & T2hi); try lra.
  destruct (in_range (val t1 * val pw)) as (R2 & _); [lra | lra |].
  destruct (mul_close prec t1 pw) as (t2 & Ht2 & Hcl2 & Hc2 & Hn2);
    [unfold prec; lia | lra | lra | exact (proj1 R2) | exact (proj2 R2) |].
  pose proof (val_pos t2 Hc2) as Vt2.
  destruct (prod_bounds (val P * rho) X (1 # 12000000) (1000000000000 # 1)
              1 (10000000000000 # 1)) as (E2lo & E2hi); try lra.
  exists t1, t2. split; [exact Ht1 |]. split; [exact Ht2 |].
  split; [| split; [exact Hc2 | exact Hn2]].
  apply (close_weaken (3 * u0 + 1440 * u0 + 1 * u0)); [lra | lra | lra |].
  apply (close_trans _ _ _ (val t1 * val pw)); try lra.
  - apply close_mul; try lra; [exact Hcl1' | exact Hclp'].
  - apply (close_prec 1). apply (close_weaken (unit_roundoff prec)); try lra.
    exact Hcl2.
Qed.

(** Step 7: the quotient. *)
Lemma quotient (t2 t3 : t) (A D : Q) :
  1 # 12000000 <= A -> A <= 10000000000000000000000000 # 1 ->
  1 # 120000 <= D -> D <= 10000000000000 # 1 ->
  (0 < coeff t2)%Z -> (ndigits (coeff t2) <= prec)%Z -> (0 < coeff t3)%Z ->
  close (1444 * u0) A (val t2) -> close (481441 * u0) D (val t3) ->
  exists q, div t2 t3 = Ok q /\
            close (482887 * u0) (A / D) (val q) /\ (0 < coeff q)%Z /\
            (ndigits (coeff q) <= prec)%Z.
Proof.
  intros A0 A1 D0 D1 Hc2 Hn2 Hc3 Hcl2 Hcl3.
  pose proof (val_pos t2 Hc2) as V2. pose proof (val_pos t3 Hc3) as V3.
  destruct (close_bounds (1444 * u0) A (val t2)) as (Nlo & Nhi);
    [lra | lra | lra | lra | exact Hcl2 |].
  destruct (close_bounds (481441 * u0) D (val t3)) as (Mlo & Mhi);
    [lra | lra | lra | lra | exact Hcl3 |].
  assert (Qhi : val t2 / val t3 <= 10000000000000000000000000000000 # 1)
    by (apply Qle_shift_div_r; lra).
  assert (Qlo : 1 # 1000000000000000000000 <= val t2 / val t3)
    by (apply Qle_shift_div_l; lra).
  destruct (in_range (val t2 / val t3)) as (_ & R1 & R2); [lra | lra |].
  destruct (div_close prec t2 t3) as (q & Hq & Hclq & Hcq & Hnq);
    [unfold prec; lia | exact Hc2 | exact Hc3 | exact Hn2 | exact R1 | exact R2 |].
  exists q. split; [exact Hq |]. split; [| split; [exact Hcq | exact Hnq]].
  assert (AD : 0 <= A / D) by (apply Qle_shift_div_l; lra).
  apply (close_weaken (1444 * u0 + 481441 * u0 + 2 * u0)); [lra | exact AD | |].
  - apply Qlt_le_weak, val_pos. exact Hcq.
  - apply (close_trans _ _ _ (val t2 / val t3)); try lra.
    + apply Qlt_le_weak, val_pos. exact Hcq.
    + apply close_div; try lra; [exact Hcl2 | exact Hcl3].
    + apply (close_prec 2). exact Hclq.
Qed.

End EmiChain.

(** ** Quantizing to cents *)

Module QuantFacts.
Import Decimal ValFacts FixVal SignFacts OpFacts FixClose.
Local Open Scope Q_scope.

(** Rescaling moves a non-negative decimal by at most half a unit of the
    new last place. *)
Lemma rescale_err (mode : rounding) (d : t) (e : Z) :
  (0 <= coeff d)%Z ->
  Qabs (val (rescale mode d e) - val d) <= (1 # 2) * p10 e.
Proof.
  intros Hc. pose proof (p10_pos e) as Pe. unfold rescale.
  apply Qabs_Qle_condition.
  destruct (Z.eqb_spec (coeff d) 0) as [Z0 | NZ].
  - assert (E1 : val (Dec 0 e) == 0) by (unfold val; cbn [coeff]; apply Qmult_0_l).
    assert (E2 : val d == 0) by (unfold val; rewrite Z0; apply Qmult_0_l).
    rewrite E1, E2. split; lra.
  - destruct (Z.leb_spec e (exponent d)) as [L | L].
    + assert (E1 : val (Dec (coeff d * 10 ^ (exponent d - e)) e) == val d).
      { rewrite (val_at e d L). reflexivity. }
      rewrite E1. split; lra.
    + rewrite Z.sgn_pos, Z.mul_1_l, Z.abs_eq by lia.
      set (k := (e - exponent d)%Z).
      assert (Hk : (0 <= k)%Z) by (unfold k; lia).
      pose proof (DivRoundFacts.div_round_error mode (coeff d) k Hk) as Herr.
      set (R := div_round mode (coeff d) k) in *.
      pose proof (p10_pos (exponent d)) as Px.
      assert (E : p10 e == inject_Z (10 ^ k) * p10 (exponent d)).
      { rewrite <- (p10_Z k Hk), <- p10_add. unfold k.
        replace (e - exponent d + exponent d)%Z with e by lia. reflexivity. }
      assert (E1 : val (Dec R e) - val d ==
                   inject_Z (R * 10 ^ k - coeff d) * p10 (exponent d)).
      { unfold val. cbn [coeff exponent]. rewrite E.
        rewrite <- Z.add_opp_r, inject_Z_plus, inject_Z_opp, inject_Z_mult. ring. }
      rewrite E1, E.
      assert (H1 : inject_Z (- 10 ^ k) <= inject_Z (2 * (R * 10 ^ k - coeff d)))
        by (apply inject_le; lia).
      assert (H2 : inject_Z (2 * (R * 10 ^ k - coeff d)) <= inject_Z (10 ^ k))
        by (apply inject_le; lia).
      rewrite inject_Z_mult in H1, H2. rewrite inject_Z_opp in H1.
      change (inject_Z 2) with 2 in H1, H2.
      set (a := inject_Z (R * 10 ^ k - coeff d)) in *.
      set (B := inject_Z (10 ^ k)) in *.
      assert (M1 : (- ((1 # 2) * B)) * p10 (exponent d) <= a * p10 (exponent d))
        by (apply Qmult_le_compat_r; lra).
      assert (M2 : a * p10 (exponent d) <= ((1 # 2) * B) * p10 (exponent d))
        by (apply Qmult_le_compat_r; lra).
      split; lra.
Qed.

(** Quantizing a positive decimal of moderate size to cents returns, and
    moves it by at most half a cent. *)
Lemma quantize_ok (q : t) :
  (0 < coeff q)%Z -> val q <= 100000000000000000000 # 1 ->
  exists v, quantize ROUND_HALF_UP q (-2) = Ok v /\
            v = rescale ROUND_HALF_UP q (-2) /\
            Qabs (val v - val q) <= 1 # 200.
Proof.
  intros Hc Hv.
  pose proof (rescale_err ROUND_HALF_UP q (-2) ltac:(lia)) as Herr.
  change ((1 # 2) * p10 (-2)) with ((1 # 2) * (1 # 100)) in Herr.
  set (ans := rescale ROUND_HALF_UP q (-2)) in *.
  assert (He : exponent ans = (-2)%Z) by apply EmiFacts.rescale_exponent.
  assert (Hca : (0 <= coeff ans)%Z) by (apply EmiSign.rescale_nonneg; lia).
  apply Qabs_Qle_condition in Herr. destruct Herr as (E1 & E2).
  assert (Va : val ans == inject_Z (coeff ans) * (1 # 100)).
  { unfold val. rewrite He. reflexivity. }
  assert (Hbig : (coeff ans < 10 ^ 23)%Z).
  { rewrite Zlt_Qlt. change (inject_Z (10 ^ 23)) with (100000000000000000000000 # 1).
    lra. }
  assert (Hnd : (ndigits (coeff ans) <= prec)%Z).
  { apply Z.le_trans with 23%Z; [| unfold prec; lia].
    apply RoundFacts.ndigits_le; [lia |]. rewrite Z.abs_eq by lia. exact Hbig. }
  assert (P20 : 100000000000000000000 # 1 <= p10 21) by (vm_compute; discriminate).
  pose proof (val_pos q Hc) as Vq.
  destruct (val_bounds q Hc) as (Blo & _).
  assert (Hadj : (adjusted q <= 21)%Z).
  { destruct (Z.le_gt_cases (adjusted q) 21) as [| N]; [assumption | exfalso].
    assert (p10 22 <= p10 (adjusted q)) by (apply p10_le; lia).
    assert (p10 21 < p10 22) by (apply p10_lt; lia). lra. }
  exists ans. split; [| split; [reflexivity | apply Qabs_Qle_condition; split; lra]].
  unfold quantize, quantize_at. fold ans.
  replace ((Etiny prec <=? -2)%Z && (-2 <=? Emax)%Z) with true by reflexivity.
  cbn [negb].
  destruct (Z.eqb_spec (coeff q) 0); [lia |].
  destruct (Z.gtb_spec (adjusted q) Emax) as [G |]; [unfold Emax in G; lia |].
  destruct (Z.gtb_spec (adjusted q - -2 + 1) prec) as [G |]; [unfold prec in G; lia |].
  assert (Hadja : (adjusted ans <= 30)%Z).
  { unfold adjusted. rewrite He. unfold prec in Hnd. lia. }
  destruct (Z.gtb_spec (adjusted ans) Emax) as [G |]; [unfold Emax in G; lia |].
  destruct (Z.gtb_spec (ndigits (coeff ans)) prec) as [G |]; [lia |].
  apply RoundFacts.fix_exact; [unfold prec; lia | exact Hnd |].
  rewrite He. unfold Etiny, Etop, Emin, Emax, prec. lia.
Qed.

End QuantFacts.

(** ** [calculate_emi] on a request *)

Module EmiRequest.
Import Decimal ValFacts FixVal CloseFacts FixClose SignFacts OpFacts PowFacts
       PowClose ErrFacts EmiChain QuantFacts.
Local Open Scope Q_scope.

Local Abbreviation u0 := (1 # 2000000000000000000000000000).

Lemma amount_bounds (P : t) :
  exponent P = (-2)%Z -> (1 <= coeff P < 10 ^ 15)%Z ->
  1 # 100 <= val P /\ val P <= 10000000000000 # 1.
Proof.
  intros He Hc. pose proof (val_cents P He) as VP.
  assert (C1 : 1 <= inject_Z (coeff P)) by (apply (inject_le 1); lia).
  assert (C2 : inject_Z (coeff P) <= 1000000000000000 # 1)
    by (apply (inject_le _ (10 ^ 15)); lia).
  split; rewrite VP; lra.
Qed.

(** The exact annuity is at most 13/12 of the principal. *)
Lemma annuity_le (Pv rho : Q) (n : positive) :
  0 <= Pv -> 1 # 120000 <= rho -> rho <= 1 # 12 ->
  1 < (1 + rho) ^ Zpos n /\
  0 <= Spec.annuity Pv rho n /\ Spec.annuity Pv rho n <= (13 # 12) * Pv.
Proof.
  intros HP B1 B2. unfold Spec.annuity.
  pose proof (bernoulli rho n ltac:(lra)) as Hb.
  pose proof (inject_pos n) as N1.
  set (N := inject_Z (Zpos n)) in *. set (X := (1 + rho) ^ Zpos n) in *.
  assert (H0 : 0 <= (N - 1) * rho) by (apply Qmult_le_0_compat; lra).
  assert (HX : 1 < X) by lra.
  assert (H1 : 0 <= ((1 # 12) - rho) * (X - 1)) by (apply Qmult_le_0_compat; lra).
  assert (H2 : 0 <= Pv * ((13 # 12) * (X - 1) - rho * X))
    by (apply Qmult_le_0_compat; lra).
  assert (H3 : 0 <= Pv * (rho * X))
    by (repeat apply Qmult_le_0_compat; lra).
  split; [exact HX |]. split.
  - apply Qle_shift_div_l; lra.
  - apply Qle_shift_div_r; lra.
Qed.

(** The branch for a positive rate. *)
Lemma positive_rate (P rate : t) (n : positive) :
  exponent P = (-2)%Z -> (1 <= coeff P < 10 ^ 15)%Z ->
  exponent rate = (-2)%Z -> (1 <= coeff rate <= 10000)%Z ->
  (Zpos n <= 360)%Z ->
  exists q v,
    calculate_emi P rate (Zpos n) = Ok v /\
    v = rescale ROUND_HALF_UP q (-2) /\ (0 < coeff q)%Z /\
    close (482887 * u0) (Spec.annuity (val P) (val rate / 1200) n) (val q) /\
    Qabs (val v - val q) <= 1 # 200.
Proof.
  intros HeP HcP HeR HcR Hn.
  destruct (amount_bounds P HeP HcP) as (P1 & P2).
  destruct (monthly_rate rate HeR HcR) as (r & Hr & Hclr & Hcr & B1 & B2).
  set (rho := val rate / 1200) in *.
  destruct (one_plus r rho B1 B2 Hcr Hclr) as (o & Ho & Hclo & Vo).
  destruct (power_term o rho n B1 B2 Hn Vo Hclo) as (pw & Hpw & Hclp & Hcp).
  destruct (power_bounds rho n) as (Xlo & Xhi); [lra | lra | exact Hn |].
  pose proof (inject_pos n) as N1.
  assert (N2 : inject_Z (Zpos n) <= 360) by (apply (inject_le _ 360); exact Hn).
  set (N := inject_Z (Zpos n)) in *. set (X := (1 + rho) ^ Zpos n) in *.
  assert (HNr : 0 <= N * (rho - (1 # 120000))) by (apply Qmult_le_0_compat; lra).
  destruct (minus_one pw X N) as (t3 & Ht3 & Hcl3 & Hc3);
    [lra | lra | lra | lra | exact Hcp | exact Hclp |].
  destruct (numerator P r pw rho X N) as (t1 & t2 & Ht1 & Ht2 & Hcl2 & Hc2 & Hn2);
    [exact HeP | exact HcP | lra | lra | lra | lra | lra | lra
     | exact Hcr | exact Hclr | exact Hcp | exact Hclp |].
  destruct (prod_bounds (val P) rho (1 # 100) (10000000000000 # 1)
              (1 # 120000) (1 # 12)) as (E1lo & E1hi); try lra.
  destruct (prod_bounds (val P * rho) X (1 # 12000000) (1000000000000 # 1)
              1 (10000000000000 # 1)) as (E2lo & E2hi); try lra.
  destruct (quotient t2 t3 (val P * rho * X) (X - 1))
    as (q & Hq & Hclq & Hcq & Hnq);
    [lra | lra | lra | lra | exact Hc2 | exact Hn2 | exact Hc3
     | exact Hcl2 | exact Hcl3 |].
  destruct (annuity_le (val P) rho n) as (_ & F0 & F1); [lra | lra | lra |].
  unfold Spec.annuity in F0, F1. fold X in F0, F1.
  pose proof (val_pos q Hcq) as Vq.
  destruct (close_bounds (482887 * u0) (val P * rho * X / (X - 1)) (val q))
    as (Qlo & Qhi); [lra | lra | lra | lra | exact Hclq |].
  destruct (quantize_ok q Hcq) as (v & Hv & Hvr & Hverr); [lra |].
  exists q, v. split; [| split; [exact Hvr | split; [exact Hcq | split]]].
  - unfold calculate_emi.
    assert (G1 : leb P (of_int 0) = false).
    { apply leb_false_val. rewrite val_of_int. change (inject_Z 0) with 0. lra. }
    assert (Vr : 1 # 100 <= val rate).
    { rewrite (val_cents rate HeR).
      assert (1 <= inject_Z (coeff rate)) by (apply (inject_le 1); lia). lra. }
    assert (G2 : ltb rate (of_int 0) = false).
    { destruct (ltb rate (of_int 0)) eqn:E; [| reflexivity].
      apply ltb_val in E. rewrite val_of_int in E. change (inject_Z 0) with 0 in E.
      lra. }
    assert (G3 : eqb rate (of_int 0) = false).
    { destruct (eqb rate (of_int 0)) eqn:E; [| reflexivity].
      apply eqb_val in E. rewrite val_of_int in E. change (inject_Z 0) with 0 in E.
      lra. }
    rewrite G1, G2, G3, Hr. cbv beta iota delta [bind].
    rewrite Ho. cbv beta iota delta [bind].
    rewrite Hpw. cbv beta iota delta [bind].
    rewrite Ht1. cbv beta iota delta [bind].
    rewrite Ht2. cbv beta iota delta [bind].
    rewrite Ht3. cbv beta iota delta [bind].
    rewrite Hq. cbv beta iota delta [bind].
    exact Hv.
  - unfold Spec.annuity. fold rho. fold X. exact Hclq.
  - exact Hverr.
Qed.

(** The branch for a rate of zero. *)
Lemma zero_rate (P rate : t) (n : positive) :
  exponent P = (-2)%Z -> (1 <= coeff P < 10 ^ 15)%Z ->
  coeff rate = 0%Z -> (Zpos n <= 360)%Z ->
  exists q v,
    calculate_emi P rate (Zpos n) = Ok v /\
    div P (of_int (Zpos n)) = Ok q /\
    v = rescale ROUND_HALF_UP q (-2) /\ (0 < coeff q)%Z /\
    close (2 * u0) (val P / inject_Z (Zpos n)) (val q) /\
    Qabs (val v - val q) <= 1 # 200.
Proof.
  intros HeP HcP HcR Hn.
  destruct (amount_bounds P HeP HcP) as (P1 & P2).
  pose proof (inject_pos n) as N1.
  assert (N2 : inject_Z (Zpos n) <= 360) by (apply (inject_le _ 360); exact Hn).
  assert (Vn : val (of_int (Zpos n)) == inject_Z (Zpos n)) by apply val_of_int.
  set (N := inject_Z (Zpos n)) in *.
  assert (Qhi : val P / N <= 10000000000000 # 1) by (apply Qle_shift_div_r; lra).
  assert (Qlo : 1 # 36000 <= val P / N) by (apply Qle_shift_div_l; lra).
  destruct (in_range (val P / N)) as (_ & R1 & R2); [lra | lra |].
  destruct (div_close prec P (of_int (Zpos n))) as (q & Hq & Hclq & Hcq & _).
  - unfold prec. lia.
  - lia.
  - simpl. lia.
  - apply Z.le_trans with 15%Z; [| unfold prec; lia].
    apply RoundFacts.ndigits_le; [lia |]. rewrite Z.abs_eq by lia. lia.
  - rewrite Vn. exact R1.
  - rewrite Vn. exact R2.
  - change (div P (of_int (Zpos n)) = Ok q) in Hq.
    assert (Hcl : close (2 * u0) (val P / N) (val q)).
    { apply (close_eq _ (val P / val (of_int (Zpos n))) _ (val q) (val q));
        [rewrite Vn; reflexivity | reflexivity |].
      apply (close_prec 2). exact Hclq. }
    pose proof (val_pos q Hcq) as Vq.
    destruct (close_bounds (2 * u0) (val P / N) (val q)) as (Qlo' & Qhi');
      [lra | lra | lra | lra | exact Hcl |].
    destruct (quantize_ok q Hcq) as (v & Hv & Hvr & Hverr); [lra |].
    exists q, v. split; [| split; [exact Hq | split; [exact Hvr |
      split; [exact Hcq | split; [exact Hcl | exact Hverr]]]]].
    unfold calculate_emi.
    assert (G1 : leb P (of_int 0) = false).
    { apply leb_false_val. rewrite val_of_int. change (inject_Z 0) with 0. lra. }
    assert (Vr : val rate == 0) by (unfold val; rewrite HcR; apply Qmult_0_l).
    assert (G2 : ltb rate (of_int 0) = false).
    { destruct (ltb rate (of_int 0)) eqn:E; [| reflexivity].
      apply ltb_val in E. rewrite val_of_int in E. change (inject_Z 0) with 0 in E.
      lra. }
    assert (G3 : eqb rate (of_int 0) = true).
    { apply eqb_val. rewrite val_of_int. exact Vr. }
    rewrite G1, G2, G3, Hq. cbv beta iota delta [bind]. exact Hv.
Qed.

End EmiRequest.

(** On every request the serializers let through, [calculate_emi] returns:
    no guard, no trap of the decimal context and no failure of [quantize]
    is hit.  The result is a non-negative amount with two decimals, and it
    differs from the exact installment ([P / n] at rate zero, the annuity
    otherwise) by at most half a cent plus [1E-8]. *)
Theorem emi_on_valid_requests :
  forall (amount rate : Decimal) (tenure : Z),
    valid_request amount rate tenure ->
    exists emi : Decimal,
      calculate_emi amount rate tenure = Ok emi /\
      Decimal.exponent emi = -2 /\ 0 <= Decimal.coeff emi /\
      (Qabs (val emi - Spec.installment (val amount) (val rate) (Z.to_pos tenure))
       <= (1 # 200) + (1 # 100000000))%Q.
Proof.
  intros P rate months (HeP & HcP & HeR & HcR & Hm).
  destruct months as [| n | n]; try lia.
  change (Z.to_pos (Z.pos n)) with n.
  assert (Hn : Z.pos n <= 360) by lia.
  destruct (EmiRequest.amount_bounds P HeP HcP) as (P1 & P2).
  destruct (Z.eq_dec (Decimal.coeff rate) 0) as [Z0 | NZ].
  - destruct (EmiRequest.zero_rate P rate n HeP HcP Z0 Hn)
      as (q & v & Hv & _ & Hvr & Hcq & Hcl & Hverr).
    exists v. split; [exact Hv |].
    destruct (EmiSign.returned_emi P rate (Z.pos n) v Hv) as (_ & _ & _ & He & Hc).
    split; [exact He |]. split; [exact Hc |].
    assert (Vr : (val rate == 0)%Q)
      by (unfold val; rewrite Z0; apply Qmult_0_l).
    unfold Spec.installment.
    rewrite (proj2 (Qeq_bool_iff (val rate) 0) Vr).
    pose proof (ErrFacts.inject_pos n) as N1.
    assert (X0 : (0 <= val P / inject_Z (Z.pos n))%Q)
      by (apply Qle_shift_div_l; lra).
    assert (X1 : (val P / inject_Z (Z.pos n) <= 10000000000000 # 1)%Q)
      by (apply Qle_shift_div_r; lra).
    assert (Habs : (Qabs (val q - val P / inject_Z (Z.pos n))
                    <= 2 * (2 * (1 # 2000000000000000000000000000))
                       * (val P / inject_Z (Z.pos n)))%Q).
    { apply CloseFacts.close_abs; [lra | lra | exact X0 | exact Hcl]. }
    apply Qabs_Qle_condition in Habs. apply Qabs_Qle_condition in Hverr.
    apply Qabs_Qle_condition. split; lra.
  - destruct (EmiRequest.positive_rate P rate n HeP HcP HeR ltac:(lia) Hn)
      as (q & v & Hv & Hvr & Hcq & Hcl & Hverr).
    exists v. split; [exact Hv |].
    destruct (EmiSign.returned_emi P rate (Z.pos n) v Hv) as (_ & _ & _ & He & Hc).
    split; [exact He |]. split; [exact Hc |].
    assert (C1 : (1 <= inject_Z (Decimal.coeff rate))%Q)
      by (apply (FixVal.inject_le 1); lia).
    assert (C2 : (inject_Z (Decimal.coeff rate) <= 10000)%Q)
      by (apply (FixVal.inject_le _ 10000); lia).
    pose proof (EmiChain.val_cents rate HeR) as VR.
    assert (Vr : ~ (val rate == 0)%Q) by (rewrite VR; lra).
    unfold Spec.installment.
    destruct (Qeq_bool (val rate) 0) eqn:E;
      [apply Qeq_bool_iff in E; contradiction |].
    assert (Hrho : (val rate / 1200 == inject_Z (Decimal.coeff rate) * (1 # 120000))%Q).
    { rewrite VR. field. }
    destruct (EmiRequest.annuity_le (val P) (val rate / 1200) n) as (_ & F0 & F1);
      [lra | rewrite Hrho; lra | rewrite Hrho; lra |].
    assert (Habs : (Qabs (val q - Spec.annuity (val P) (val rate / 1200) n)
                    <= 2 * (482887 * (1 # 2000000000000000000000000000))
                       * Spec.annuity (val P) (val rate / 1200) n)%Q).
    { apply CloseFacts.close_abs; [lra | lra | exact F0 | exact Hcl]. }
    apply Qabs_Qle_condition in Habs. apply Qabs_Qle_condition in Hverr.
    apply Qabs_Qle_condition. split; lra.
Qed.

Lemma emi_on_valid_requests_witness :
  exists emi : Decimal,
    calculate_emi (Sample.d 50000000) (Sample.d 1500) 24 = Ok emi /\
    Decimal.exponent emi = -2.
Proof.
  destruct (emi_on_valid_requests (Sample.d 50000000) (Sample.d 1500) 24)
    as (emi & H & He & _).
  - repeat split; vm_compute; congruence.
  - exists emi. split; assumption.
Defined.
